(** * ecg_contrastive: the pairing index, the contrastive loss, the encoder
      shapes and the training loop of [Simclr.py] and [Networks.py]

    The development follows the two source files.

    - [Numpy] embeds the array operations used by the index construction
      at the top of [SimCLR.contrastive_loss] (lines 95-102 of
      [Simclr.py]): object arrays of Python strings are lists of
      [string], integer matrices are lists of rows of [Z].
      [PairingIndex] is that construction.
    - [Torch] embeds the tensor operations of the loss.  The scalar
      arithmetic is an interface ([Scalar]), so every structural
      statement holds for any arithmetic, IEEE arithmetic included.
    - [SimCLR] embeds [contrastive_loss] in an error monad (an index out
      of range and an unbound local raise) and the skeleton of [train]
      as a trace of events.
    - [Networks] embeds [BaselineConvNet.forward] on tensor shapes.
    - [XReal] is the instance of [Scalar] used where a statement is
      about finiteness: a real number, or a non-finite value. *)

From Stdlib Require Import String Ascii.
From Stdlib Require Import List Bool Arith ZArith QArith Lia.
From Stdlib Require Import Reals Lra Qreals.
From Stdlib Require Finite.
Import ListNotations.

Set Implicit Arguments.
Open Scope Z_scope.
Open Scope nat_scope.
Open Scope list_scope.

(** ** Python exceptions and the error monad *)

Inductive py_error : Type :=
| IndexError
| UnboundLocalError
| RuntimeError
| ZeroDivisionError
| ValueError.

Definition result (A : Type) : Type := (py_error + A)%type.

Definition ret {A : Type} (a : A) : result A := inr a.
Definition raise {A : Type} (e : py_error) : result A := inl e.
Definition bind {A B : Type} (m : result A) (k : A -> result B) : result B :=
  match m with
  | inl e => inl e
  | inr a => k a
  end.

Declare Scope py_scope.
Delimit Scope py_scope with py.
Notation "x <- m ;; k" := (bind m (fun x => k))
  (at level 61, m at next level, right associativity) : py_scope.
Notation "' p <- m ;; k" := (bind m (fun p => k))
  (at level 61, p pattern, m at next level, right associativity) : py_scope.

(** [mapM f l] runs [f] over [l] from left to right and stops at the
    first exception. *)
Fixpoint mapM {A B : Type} (f : A -> result B) (l : list A) : result (list B) :=
  match l with
  | [] => ret []
  | a :: t =>
      match f a with
      | inl e => inl e
      | inr b =>
          match mapM f t with
          | inl e => inl e
          | inr bs => inr (b :: bs)
          end
      end
  end.

(** ** Numpy: the operations of the index construction *)

Module Numpy.

(** [enumerate l] pairs every element with its position. *)
Definition enumerate {A : Type} (l : list A) : list (nat * A) :=
  combine (seq 0 (length l)) l.

(** [np.meshgrid(x, y)] with the default ['xy'] indexing: both results
    have [len(y)] rows and [len(x)] columns, the first repeats [x]
    along the rows, the second repeats [y] along the columns. *)
Definition meshgrid {A : Type} (x y : list A)
  : list (list A) * list (list A) :=
  (map (fun _ => x) y, map (fun b => map (fun _ => b) x) y).

(** Elementwise binary operation on two vectors / two matrices. *)
Fixpoint zip_with {A B C : Type} (f : A -> B -> C)
         (l : list A) (r : list B) : list C :=
  match l, r with
  | a :: l', b :: r' => f a b :: zip_with f l' r'
  | _, _ => []
  end.

Definition mat_zip_with {A B C : Type} (f : A -> B -> C)
  : list (list A) -> list (list B) -> list (list C) :=
  zip_with (zip_with f).

(** [a + '-' + b] on Python strings. *)
Definition join_dash (a b : string) : string :=
  (a ++ "-" ++ b)%string.

(** [np.unique]: the sorted list of the distinct elements.  Insertion
    into a sorted list without duplicates, ordered by code point. *)
Fixpoint insert_unique (x : string) (l : list string) : list string :=
  match l with
  | [] => [x]
  | y :: t =>
      match String.compare x y with
      | Eq => l
      | Lt => x :: l
      | Gt => y :: insert_unique x t
      end
  end.

Definition unique (l : list string) : list string :=
  fold_right insert_unique [] l.

(** [np.isin(m, s)] on a matrix of strings. *)
Definition isin (m : list (list string)) (s : list string)
  : list (list bool) :=
  map (map (fun x => existsb (String.eqb x) s)) m.

(** [.astype(int)] on a boolean matrix. *)
Definition astype_int (m : list (list bool)) : list (list Z) :=
  map (map (fun b : bool => if b then 1%Z else 0%Z)) m.

(** [np.triu(m, k)]: the entries with [j - i >= k] are kept, the
    others are zero. *)
Definition triu (m : list (list Z)) (k : Z) : list (list Z) :=
  map (fun '(i, row) =>
         map (fun '(j, v) =>
                if (Z.of_nat i + k <=? Z.of_nat j)%Z then v else 0%Z)
             (enumerate row))
      (enumerate m).

(** [np.tril(m, k)]: the entries with [j - i <= k] are kept. *)
Definition tril (m : list (list Z)) (k : Z) : list (list Z) :=
  map (fun '(i, row) =>
         map (fun '(j, v) =>
                if (Z.of_nat j <=? Z.of_nat i + k)%Z then v else 0%Z)
             (enumerate row))
      (enumerate m).

(** The coordinates of the non-zero entries, in row-major order. *)
Definition nonzero (m : list (list Z)) : list (nat * nat) :=
  flat_map (fun '(i, row) =>
              flat_map (fun '(j, v) =>
                          if (v =? 0)%Z then [] else [(i, j)])
                       (enumerate row))
           (enumerate m).

(** [np.where(m)] with one argument: the row indices and the column
    indices of the non-zero entries, as two arrays. *)
Definition np_where (m : list (list Z)) : list nat * list nat :=
  (map fst (nonzero m), map snd (nonzero m)).

End Numpy.

(** ** The pairing index of [SimCLR.contrastive_loss] (lines 95-102) *)

Module PairingIndex.
Import Numpy.

Definition pid_matrix (pids : list string) : list (list string) :=
  let '(pid1, pid2) := meshgrid pids pids in
  mat_zip_with (fun a b => join_dash a b) pid1 pid2.

Definition pids_of_interest (pids : list string) : list string :=
  unique (zip_with join_dash pids pids).

Definition bool_matrix_of_interest (pids : list string) : list (list Z) :=
  astype_int (isin (pid_matrix pids) (pids_of_interest pids)).

(** [rows1, cols1 = np.where(np.triu(bool_matrix_of_interest, k=1))] *)
Definition upper_index (pids : list string) : list nat * list nat :=
  np_where (triu (bool_matrix_of_interest pids) 1).

(** [rows2, cols2 = np.where(np.tril(bool_matrix_of_interest, k=-1))] *)
Definition lower_index (pids : list string) : list nat * list nat :=
  np_where (tril (bool_matrix_of_interest pids) (-1)).

(** The coordinate pairs an index denotes. *)
Definition coords (ix : list nat * list nat) : list (nat * nat) :=
  combine (fst ix) (snd ix).

Definition upper_coords (pids : list string) : list (nat * nat) :=
  coords (upper_index pids).
Definition lower_coords (pids : list string) : list (nat * nat) :=
  coords (lower_index pids).

(** A string contains the separator ['-']. *)
Fixpoint has_dash (s : string) : bool :=
  match s with
  | EmptyString => false
  | String c t => Ascii.eqb c "-"%char || has_dash t
  end.

End PairingIndex.

(** ** Torch: scalars and tensors *)

Module Torch.

(** The scalar arithmetic of a tensor library.  [lit] injects Python
    number literals; the other fields are the elementwise operations the
    loss uses. *)
Class Scalar (T : Type) : Type := {
  lit : Q -> T;
  tadd : T -> T -> T;
  tmul : T -> T -> T;
  tdiv : T -> T -> T;
  tneg : T -> T;
  texp : T -> T;
  tlog : T -> T;
  tsqrt : T -> T
}.

Section Tensors.
Context {T : Type} {ST : Scalar T}.

(** A Python [int] used as a scalar operand. *)
Definition of_nat (n : nat) : T := lit (inject_Z (Z.of_nat n)).

(** A dense 2-D tensor: its shape and its entries. *)
Record tensor2 : Type := {
  nrows : nat;
  ncols : nat;
  at2 : nat -> nat -> T
}.

(** A dense 3-D tensor of shape [(dim0, dim1, dim2)]. *)
Record tensor3 : Type := {
  dim0 : nat;
  dim1 : nat;
  dim2 : nat;
  at3 : nat -> nat -> nat -> T
}.

(** 1-D tensors are lists. *)
Definition row (m : tensor2) (i : nat) : list T :=
  map (at2 m i) (seq 0 (ncols m)).

Definition col (m : tensor2) (j : nat) : list T :=
  map (fun i => at2 m i j) (seq 0 (nrows m)).

(** [features[:, lead, :]] *)
Definition select_view (features : tensor3) (lead : nat) : tensor2 :=
  {| nrows := dim0 features;
     ncols := dim2 features;
     at2 := fun i k => at3 features i lead k |}.

(** The sum of a 1-D tensor: the terms are added from left to right,
    the sum of no term is zero. *)
Definition tsum (l : list T) : T :=
  match l with
  | [] => lit 0
  | x :: xs => fold_left tadd xs x
  end.

Definition dot (a b : list T) : T :=
  tsum (Numpy.zip_with tmul a b).

(** The 2-norm of a 1-D tensor. *)
Definition norm2 (a : list T) : T :=
  tsqrt (tsum (map (fun x => tmul x x) a)).

(** [m.norm(dim=1, keepdim=True)]: a column of row norms. *)
Definition norm_dim1_keepdim (m : tensor2) : tensor2 :=
  {| nrows := nrows m;
     ncols := 1;
     at2 := fun i _ => norm2 (row m i) |}.

(** [m.t()] *)
Definition transpose (m : tensor2) : tensor2 :=
  {| nrows := ncols m;
     ncols := nrows m;
     at2 := fun i j => at2 m j i |}.

(** [torch.mm(a, b)].  Every call in the loss multiplies a tensor by the
    transpose of one with as many columns, so the inner dimensions
    agree; that dimension is read from [a]. *)
Definition mm (a b : tensor2) : tensor2 :=
  {| nrows := nrows a;
     ncols := ncols b;
     at2 := fun i j => dot (row a i) (col b j) |}.

(** [m * c] for a Python float [c]. *)
Definition mul_scalar (m : tensor2) (c : T) : tensor2 :=
  {| nrows := nrows m;
     ncols := ncols m;
     at2 := fun i j => tmul (at2 m i j) c |}.

(** [a / b] for two tensors of one shape (both operands of the loss's
    division are [dim0] by [dim0]). *)
Definition div2 (a b : tensor2) : tensor2 :=
  {| nrows := nrows a;
     ncols := ncols a;
     at2 := fun i j => tdiv (at2 a i j) (at2 b i j) |}.

(** [torch.exp(m)] *)
Definition exp2 (m : tensor2) : tensor2 :=
  {| nrows := nrows m;
     ncols := ncols m;
     at2 := fun i j => texp (at2 m i j) |}.

(** [torch.ones_like(m)] *)
Definition ones_like (m : tensor2) : tensor2 :=
  {| nrows := nrows m;
     ncols := ncols m;
     at2 := fun _ _ => lit 1 |}.

(** [torch.diag(m)] on a 2-D tensor: the 1-D tensor of its diagonal. *)
Definition diag (m : tensor2) : list T :=
  map (fun i => at2 m i i) (seq 0 (Nat.min (nrows m) (ncols m))).

(** [torch.sum(m, dim=1)]: one sum per row. *)
Definition sum_dim1 (m : tensor2) : list T :=
  map (fun i => tsum (row m i)) (seq 0 (nrows m)).

(** [torch.sum(m, dim=0)]: one sum per column. *)
Definition sum_dim0 (m : tensor2) : list T :=
  map (fun j => tsum (col m j)) (seq 0 (ncols m)).

(** [m[rows, cols]] with two index arrays: the entries at the paired
    coordinates; an index out of range raises [IndexError]. *)
Definition index2 (m : tensor2) (rows cols : list nat) : result (list T) :=
  mapM (fun '(i, j) =>
          if (i <? nrows m) && (j <? ncols m)
          then ret (at2 m i j)
          else raise IndexError)
       (combine rows cols).

(** [v[idx]] with an index array. *)
Definition index1 (v : list T) (idx : list nat) : result (list T) :=
  mapM (fun i =>
          match nth_error v i with
          | Some x => ret x
          | None => raise IndexError
          end)
       idx.

(** [a / b] on 1-D tensors of one length. *)
Definition div1 (a b : list T) : list T :=
  Numpy.zip_with tdiv a b.

(** [torch.log(v)] *)
Definition log1 (v : list T) : list T := map tlog v.

(** [torch.mean(v)]: the sum divided by the number of elements (the mean
    of an empty tensor is [0 / 0]). *)
Definition mean (v : list T) : T :=
  tdiv (tsum v) (of_nat (length v)).

End Tensors.

Arguments tensor2 : clear implicits.
Arguments tensor3 : clear implicits.

End Torch.

(** ** [Simclr.py]: the class [SimCLR] *)

Module SimCLR.
Import Torch.

(** The attributes of a [SimCLR] object that the modelled methods can
    see (set in [__init__] from the command-line arguments). *)
Record t : Type := {
  curr_epochs : Z;
  lr : Q;
  batch_size : nat;
  lead_groupings : bool;
  epochs : Z;
  temperature : Q;
  warmup_epochs : Z;
  checkpoint_freq : Z;
  n_views : nat
}.

(** [itertools.combinations(l, 2)]: the pairs of elements of [l] at
    increasing positions, in lexicographic order of the positions. *)
Fixpoint combinations2 {A : Type} (l : list A) : list (A * A) :=
  match l with
  | [] => []
  | x :: xs => map (pair x) xs ++ combinations2 xs
  end.

(** [combinations(set(range(n)), 2)]: a set of small integers is
    iterated in increasing order. *)
Definition view_combinations (n : nat) : list (nat * nat) :=
  combinations2 (seq 0 n).

Section Loss.
Context {T : Type} {ST : Scalar T}.

(** The local variables of [contrastive_loss] that live across the
    iterations of the loop over view pairs.  [loss_terms] and
    [sim_matrix_exp] are bound by the first iteration only. *)
Record locals : Type := {
  loss : T;
  ncombinations : nat;
  loss_terms : option nat;
  sim_matrix_exp : option (tensor2 T)
}.

(** Lines 111-121: the argument of the exponential for one view pair. *)
Definition argument (features : tensor3 T) (lead1 lead2 : nat) : tensor2 T :=
  let view1_array := select_view features lead1 in
  let view2_array := select_view features lead2 in
  let norm1_vector := norm_dim1_keepdim view1_array in
  let norm2_vector := norm_dim1_keepdim view2_array in
  let sim_matrix := mm view1_array (transpose view2_array) in
  let norm_matrix := mm norm1_vector (transpose norm2_vector) in
  let temperature := lit (1 # 10) in
  div2 sim_matrix (mul_scalar norm_matrix temperature).

(** Line 131 / 132: [-torch.mean(torch.log(elements / sums))]. *)
Definition nll (elements sums : list T) : T :=
  tneg (mean (log1 (div1 elements sums))).

(** Lines 111-146: one iteration of the loop over view pairs. *)
Definition loop_body (features : tensor3 T)
           (rows1 cols1 rows2 cols2 : list nat)
           (st : locals) (leads : nat * nat) : result locals :=
  let '(lead1, lead2) := leads in
  let sim_matrix_exp := exp2 (argument features lead1 lead2) in
  (triu_elements <- index2 sim_matrix_exp rows1 cols1 ;;
   tril_elements <- index2 sim_matrix_exp rows2 cols2 ;;
   let diag_elements := diag sim_matrix_exp in
   let triu_sum := sum_dim1 sim_matrix_exp in
   let tril_sum := sum_dim0 sim_matrix_exp in
   let loss_diag1 := nll diag_elements triu_sum in
   let loss_diag2 := nll diag_elements tril_sum in
   triu_sum_rows1 <- index1 triu_sum rows1 ;;
   let loss_triu := nll triu_elements triu_sum_rows1 in
   tril_sum_cols2 <- index1 tril_sum cols2 ;;
   let loss_tril := nll tril_elements tril_sum_cols2 in
   let loss := tadd (loss st) (tadd loss_diag1 loss_diag2) in
   let loss_terms := 2 in
   let '(loss, loss_terms) :=
     if 0 <? length rows1
     then (tadd loss loss_triu, loss_terms + 1)
     else (loss, loss_terms) in
   let '(loss, loss_terms) :=
     if 0 <? length rows2
     then (tadd loss loss_tril, loss_terms + 1)
     else (loss, loss_terms) in
   ret {| loss := loss;
          ncombinations := ncombinations st + 1;
          loss_terms := Some loss_terms;
          sim_matrix_exp := Some sim_matrix_exp |})%py.

(** A [for] loop whose body can raise. *)
Fixpoint for_each {S A : Type} (body : S -> A -> result S)
         (l : list A) (st : S) : result S :=
  match l with
  | [] => ret st
  | a :: l' =>
      match body st a with
      | inl e => inl e
      | inr st' => for_each body l' st'
      end
  end.

(** Lines 95-102: the index construction at the top of
    [contrastive_loss]; it reads its last argument only. *)
Definition pairing_index (self : t) (features : tensor3 T)
           (patientIds : list string)
  : (list nat * list nat) * (list nat * list nat) :=
  (PairingIndex.upper_index patientIds, PairingIndex.lower_index patientIds).

(** Lines 95-146: the locals when the loop over view pairs is over. *)
Definition contrastive_loss_locals (self : t) (features : tensor3 T)
           (patientIds : list string) : result locals :=
  let '((rows1, cols1), (rows2, cols2)) :=
    pairing_index self features patientIds in
  let view_combinations := view_combinations (dim1 features) in
  for_each (loop_body features rows1 cols1 rows2 cols2)
           view_combinations
           {| loss := lit 0;
              ncombinations := 0;
              loss_terms := None;
              sim_matrix_exp := None |}.

(** [SimCLR.contrastive_loss].  With fewer than two views the loop body
    never runs and line 148 reads the unbound [loss_terms]. *)
Definition contrastive_loss (self : t) (features : tensor3 T)
           (patientIds : list string)
  : result (T * tensor2 T * list T) :=
  (st <- contrastive_loss_locals self features patientIds ;;
   match loss_terms st, sim_matrix_exp st with
   | Some loss_terms, Some sim_matrix_exp =>
       ret (tdiv (loss st) (of_nat (loss_terms * ncombinations st)),
            sim_matrix_exp,
            diag (ones_like sim_matrix_exp))
   | _, _ => raise UnboundLocalError
   end)%py.

(** *** The loss as the specification words it

    The definitions below restate the loss without the loop and without
    exceptions; the theorems compare them with [contrastive_loss]. *)

(** The embedding of batch row [i] in view [lead]. *)
Definition embed (features : tensor3 T) (i lead : nat) : list T :=
  map (fun k => at3 features i lead k) (seq 0 (dim2 features)).

(** The cosine similarity of two embeddings over the temperature. *)
Definition scaled_cosine (a b : list T) (temperature : T) : T :=
  tdiv (dot a b) (tmul (tmul (norm2 a) (norm2 b)) temperature).

(** The entries of a matrix at paired coordinates, and the entries of a
    vector at given positions. *)
Definition gather2 (m : tensor2 T) (rows cols : list nat) : list T :=
  map (fun '(i, j) => at2 m i j) (combine rows cols).

Definition gather1 (v : list T) (idx : list nat) : list T :=
  map (fun i => nth i v (lit 0)) idx.

(** The loss terms one view pair contributes, in the order they are
    added: the two diagonal terms, then the upper term if the upper
    index is not empty, then the lower term if the lower index is not
    empty. *)
Definition contributing_terms (features : tensor3 T)
           (patientIds : list string) (leads : nat * nat) : list T :=
  let '(rows1, cols1) := PairingIndex.upper_index patientIds in
  let '(rows2, cols2) := PairingIndex.lower_index patientIds in
  let e := exp2 (argument features (fst leads) (snd leads)) in
  [nll (diag e) (sum_dim1 e); nll (diag e) (sum_dim0 e)]
  ++ (if 0 <? length rows1
      then [nll (gather2 e rows1 cols1) (gather1 (sum_dim1 e) rows1)]
      else [])
  ++ (if 0 <? length rows2
      then [nll (gather2 e rows2 cols2) (gather1 (sum_dim0 e) cols2)]
      else []).

(** Adding the terms of one pair to the running sum: the two diagonal
    terms are added to each other first. *)
Definition accumulate (acc : T) (terms : list T) : T :=
  match terms with
  | d1 :: d2 :: rest => fold_left tadd rest (tadd acc (tadd d1 d2))
  | _ => acc
  end.

(** One iteration of the loop when no index is out of range. *)
Definition loop_step (features : tensor3 T) (patientIds : list string)
           (st : locals) (leads : nat * nat) : locals :=
  {| loss := accumulate (loss st)
                        (contributing_terms features patientIds leads);
     ncombinations := ncombinations st + 1;
     loss_terms :=
       Some (length (contributing_terms features patientIds leads));
     sim_matrix_exp :=
       Some (exp2 (argument features (fst leads) (snd leads))) |}.

(** The accumulated sum over all view pairs. *)
Definition accumulated_sum (features : tensor3 T)
           (patientIds : list string) : T :=
  fold_left accumulate
            (map (contributing_terms features patientIds)
                 (view_combinations (dim1 features)))
            (lit 0).

(** The term count of the last view pair. *)
Definition last_term_count (features : tensor3 T)
           (patientIds : list string) : nat :=
  length (last (map (contributing_terms features patientIds)
                    (view_combinations (dim1 features)))
               []).

(** The accumulated sum over (the term count of the last pair times the
    number of pairs). *)
Definition spec_loss (features : tensor3 T)
           (patientIds : list string) : T :=
  tdiv (accumulated_sum features patientIds)
       (of_nat (last_term_count features patientIds
                * length (view_combinations (dim1 features)))).

End Loss.

(** *** The skeleton of [SimCLR.train] *)

(** What the training loop does to its collaborators, in order. *)
Inductive event : Type :=
| EpochStart (epoch : Z)
| OptimizerStep (epoch : Z) (n_iter : Z)
| SchedulerStep (epoch : Z)
| SaveCheckpoint (epoch : Z).

(** The locals of [train] the skeleton depends on: the iteration
    counter, whether [loss], [top1] and [top5] are bound (they are
    assigned only inside the inner loop), and the events so far. *)
Record train_state : Type := {
  n_iter : Z;
  metrics_bound : bool;
  trace : list event
}.

Definition emit (ev : event) (st : train_state) : train_state :=
  {| n_iter := n_iter st;
     metrics_bound := metrics_bound st;
     trace := trace st ++ [ev] |}.

(** Lines 177-221: one iteration per batch of the loader; the work of
    an iteration is abstracted to its optimizer step. *)
Definition iteration {B : Type} (epoch_counter : Z)
           (st : train_state) (batch : B) : train_state :=
  {| n_iter := n_iter st + 1;
     metrics_bound := true;
     trace := trace st ++ [OptimizerStep epoch_counter (n_iter st)] |}.

(** Lines 176-239: one epoch.  The second component is the exception
    that ends the run, if any: the log line 227 reads [loss] and
    [top1], and line 230 divides by [checkpoint_freq]. *)
Definition run_epoch {B : Type} (self : t) (train_loader : list B)
           (st : train_state) (epoch_counter : Z)
  : train_state * option py_error :=
  let st := emit (EpochStart epoch_counter) st in
  let st := fold_left (iteration epoch_counter) train_loader st in
  let st :=
    if (warmup_epochs self <=? epoch_counter)%Z
    then emit (SchedulerStep epoch_counter) st
    else st in
  if negb (metrics_bound st) then (st, Some UnboundLocalError)
  else if (checkpoint_freq self =? 0)%Z then (st, Some ZeroDivisionError)
  else if ((epoch_counter mod checkpoint_freq self =? 0)
           || (epoch_counter + 1 =? epochs self))%Z
  then (emit (SaveCheckpoint epoch_counter) st, None)
  else (st, None).

Fixpoint run_epochs {B : Type} (self : t) (train_loader : list B)
         (epoch_counters : list Z) (st : train_state)
  : train_state * option py_error :=
  match epoch_counters with
  | [] => (st, None)
  | e :: es =>
      match run_epoch self train_loader st e with
      | (st', Some err) => (st', Some err)
      | (st', None) => run_epochs self train_loader es st'
      end
  end.

(** [range(lo, hi)] on Python integers. *)
Definition range (lo hi : Z) : list Z :=
  map (fun k => (lo + Z.of_nat k)%Z) (seq 0 (Z.to_nat (hi - lo))).

(** [SimCLR.train]: the events of a run and the exception that ended
    it, if any. *)
Definition train {B : Type} (self : t) (train_loader : list B)
  : list event * option py_error :=
  let '(st, err) :=
    run_epochs self train_loader
               (range (curr_epochs self + 1) (epochs self))
               {| n_iter := 0; metrics_bound := false; trace := [] |} in
  (trace st, err).

(** The epoch an event belongs to, and the number of scheduler steps of
    one epoch in a run. *)
Definition event_epoch (ev : event) : Z :=
  match ev with
  | EpochStart e | OptimizerStep e _ | SchedulerStep e | SaveCheckpoint e => e
  end.

Definition is_scheduler_step (e : Z) (ev : event) : bool :=
  match ev with
  | SchedulerStep e' => (e' =? e)%Z
  | _ => false
  end.

Definition scheduler_steps (e : Z) (tr : list event) : nat :=
  length (filter (is_scheduler_step e) tr).

(** The scheduler events the test of line 225 lets through in epoch
    [e]. *)
Definition gate (self : t) (e : Z) : list event :=
  if (warmup_epochs self <=? e)%Z then [SchedulerStep e] else [].

(** What holds of the events of a run whose entered epochs are [done]:
    every event belongs to an entered epoch; every entered epoch was
    started and has one scheduler step if its counter has reached
    [warmup_epochs] and none otherwise; no iteration of an epoch comes
    after the scheduler step of that epoch. *)
Definition scheduler_invariant (self : t) (done : list Z)
           (tr : list event) : Prop :=
  (forall ev, In ev tr -> In (event_epoch ev) done) /\
  (forall e', In e' done ->
     In (EpochStart e') tr /\
     scheduler_steps e' tr = if (warmup_epochs self <=? e')%Z then 1 else 0) /\
  (forall e' k pre post,
     tr = pre ++ SchedulerStep e' :: post ->
     ~ In (OptimizerStep e' k) post).

End SimCLR.

(** ** [Networks.py]: [BaselineConvNet] on tensor shapes *)

Module Networks.

(** The shape of a tensor. *)
Definition shape : Type := list nat.

Record Conv1d : Type := {
  in_channels : nat;
  out_channels : nat;
  kernel_size : nat;
  stride : nat
}.

Record BatchNorm1d : Type := { num_features : nat }.

Record Linear : Type := {
  in_features : nat;
  out_features : nat
}.

(** The layers of an [nn.Sequential] head. *)
Inductive layer : Type :=
| LinearLayer (l : Linear)
| Sigmoid.

(** [nn.Conv1d] without padding or dilation on a batched input
    [(N, C_in, L)]: the channel count must match and the kernel must fit;
    the output length is [floor((L - kernel_size) / stride) + 1]. *)
Definition conv1d (c : Conv1d) (s : shape) : result shape :=
  match s with
  | [n; c_in; l] =>
      if (c_in =? in_channels c) && (kernel_size c <=? l)
      then ret [n; out_channels c; (l - kernel_size c) / stride c + 1]
      else raise RuntimeError
  | _ => raise RuntimeError
  end.

(** [nn.LeakyReLU] keeps the shape. *)
Definition activation (s : shape) : result shape := ret s.

(** [nn.BatchNorm1d] on [(N, C, L)]: the channel count must match; in
    training mode a batch with a single value per channel is refused. *)
Definition batch_norm (training : bool) (b : BatchNorm1d) (s : shape)
  : result shape :=
  match s with
  | [n; c; l] =>
      if negb (c =? num_features b) then raise RuntimeError
      else if training && (n * l =? 1) then raise ValueError
      else ret s
  | _ => raise RuntimeError
  end.

(** [nn.AdaptiveAvgPool1d(1)] *)
Definition avg_pool (s : shape) : result shape :=
  match s with
  | [n; c; _] => ret [n; c; 1]
  | _ => raise RuntimeError
  end.

(** [nn.Flatten()]: all dimensions after the first are merged. *)
Definition flatten (s : shape) : result shape :=
  match s with
  | n :: rest => ret [n; fold_right Nat.mul 1 rest]
  | [] => raise RuntimeError
  end.

(** [nn.Linear] acts on the last dimension. *)
Fixpoint linear (l : Linear) (s : shape) : result shape :=
  match s with
  | [] => raise RuntimeError
  | [d] => if d =? in_features l then ret [out_features l]
           else raise RuntimeError
  | d :: rest =>
      match linear l rest with
      | inl e => inl e
      | inr rest' => inr (d :: rest')
      end
  end.

Definition apply_layer (ly : layer) (s : shape) : result shape :=
  match ly with
  | LinearLayer l => linear l s
  | Sigmoid => ret s
  end.

Fixpoint sequential (layers : list layer) (s : shape) : result shape :=
  match layers with
  | [] => ret s
  | ly :: rest =>
      match apply_layer ly s with
      | inl e => inl e
      | inr s' => sequential rest s'
      end
  end.

(** The attributes of a [BaselineConvNet]; [training] is the mode flag
    every [nn.Module] carries. *)
Record BaselineConvNet : Type := {
  classification : bool;
  avg_embeddings : bool;
  training : bool;
  conv1 : Conv1d; batch_norm1 : BatchNorm1d;
  conv2 : Conv1d; batch_norm2 : BatchNorm1d;
  conv3 : Conv1d; batch_norm3 : BatchNorm1d;
  conv4 : Conv1d; batch_norm4 : BatchNorm1d;
  conv5 : Conv1d; batch_norm5 : BatchNorm1d;
  conv6 : Conv1d; batch_norm6 : BatchNorm1d;
  finalLayer : list layer
}.

(** [BaselineConvNet.__init__]; a new module is in training mode until
    [eval()] is called, so the mode is a parameter here. *)
Definition init (classification avg_embeddings training : bool)
  : BaselineConvNet :=
  {| classification := classification;
     avg_embeddings := avg_embeddings;
     training := training;
     conv1 := {| in_channels := 1; out_channels := 16;
                 kernel_size := 7; stride := 4 |};
     batch_norm1 := {| num_features := 16 |};
     conv2 := {| in_channels := 16; out_channels := 32;
                 kernel_size := 7; stride := 3 |};
     batch_norm2 := {| num_features := 32 |};
     conv3 := {| in_channels := 32; out_channels := 64;
                 kernel_size := 5; stride := 2 |};
     batch_norm3 := {| num_features := 64 |};
     conv4 := {| in_channels := 64; out_channels := 64;
                 kernel_size := 3; stride := 1 |};
     batch_norm4 := {| num_features := 64 |};
     conv5 := {| in_channels := 64; out_channels := 128;
                 kernel_size := 3; stride := 1 |};
     batch_norm5 := {| num_features := 128 |};
     conv6 := {| in_channels := 128; out_channels := 256;
                 kernel_size := 3; stride := 1 |};
     batch_norm6 := {| num_features := 256 |};
     finalLayer :=
       if classification
       then [LinearLayer {| in_features := 256; out_features := 1 |};
             Sigmoid]
       else [LinearLayer {| in_features := 256; out_features := 256 |};
             LinearLayer {| in_features := 256; out_features := 128 |}] |}.

(** One block: [batch_norm(activation(conv(x)))]. *)
Definition block (training : bool) (c : Conv1d) (b : BatchNorm1d)
           (s : shape) : result shape :=
  (h <- conv1d c s ;;
   h <- activation h ;;
   batch_norm training b h)%py.

(** Lines 67-72 and 85-90: the six blocks. *)
Definition six_blocks (self : BaselineConvNet) (s : shape) : result shape :=
  (h <- block (training self) (conv1 self) (batch_norm1 self) s ;;
   h <- block (training self) (conv2 self) (batch_norm2 self) h ;;
   h <- block (training self) (conv3 self) (batch_norm3 self) h ;;
   h <- block (training self) (conv4 self) (batch_norm4 self) h ;;
   h <- block (training self) (conv5 self) (batch_norm5 self) h ;;
   block (training self) (conv6 self) (batch_norm6 self) h)%py.

(** Lines 83-94: the body of the loop over views.  [x[:, i, :]] has
    shape [(batch_size, L)], [unsqueeze(1)] makes it [(batch_size, 1, L)];
    the assignment [h[:, i, :] = x_i] needs [x_i] of shape
    [(batch_size, 256)]. *)
Definition view_body (self : BaselineConvNet) (batch_size l : nat)
           (h : shape) (i : nat) : result shape :=
  (x_i <- six_blocks self [batch_size; 1; l] ;;
   x_i <- avg_pool x_i ;;
   x_i <- flatten x_i ;;
   if list_eq_dec Nat.eq_dec x_i [batch_size; 256]
   then ret h
   else raise RuntimeError)%py.

(** [h.mean(dim=1, keepdim=True)] *)
Definition mean_dim1_keepdim (s : shape) : result shape :=
  match s with
  | [n; _; d] => ret [n; 1; d]
  | _ => raise RuntimeError
  end.

(** [BaselineConvNet.forward] on an input of shape
    [(batch_size, nviews, sequence_length)]. *)
Definition forward (self : BaselineConvNet) (x : nat * nat * nat)
  : result shape :=
  let '(n, c, l) := x in
  if classification self then
    (h <- six_blocks self [n; c; l] ;;
     h <- avg_pool h ;;
     h <- flatten h ;;
     sequential (finalLayer self) h)%py
  else
    let batch_size := n in
    let nviews := c in
    let h := [batch_size; nviews; 256] in
    (h <- SimCLR.for_each (view_body self batch_size l) (seq 0 nviews) h ;;
     h <- (if avg_embeddings self then mean_dim1_keepdim h else ret h) ;;
     sequential (finalLayer self) h)%py.

(** The input is long enough for the six blocks: the kernels fit (223
    samples leave one sample after the sixth convolution), and in
    training mode a batch of one sample keeps more than one value per
    channel (247 samples leave two). *)
Definition long_enough (training : bool) (batch_size l : nat) : Prop :=
  223 <= l /\ (training = true -> batch_size = 1 -> 247 <= l).

End Networks.

(** ** Extended reals: a real number, or a non-finite value

    [None] stands for every non-finite result (an infinity or a NaN):
    a division by zero, the logarithm of a number that is not positive,
    the square root of a negative number.  Rounding and overflow are not
    part of this arithmetic. *)

Module XReal.

Definition xreal : Type := option R.

Definition lift2 (f : R -> R -> R) (a b : xreal) : xreal :=
  match a, b with
  | Some x, Some y => Some (f x y)
  | _, _ => None
  end.

Definition xdiv (a b : xreal) : xreal :=
  match a, b with
  | Some x, Some y => if Req_dec_T y 0 then None else Some (x / y)%R
  | _, _ => None
  end.

Definition xlog (a : xreal) : xreal :=
  match a with
  | Some x => if Rlt_dec 0 x then Some (ln x) else None
  | None => None
  end.

Definition xsqrt (a : xreal) : xreal :=
  match a with
  | Some x => if Rle_dec 0 x then Some (sqrt x) else None
  | None => None
  end.

#[global] Instance xreal_scalar : Torch.Scalar xreal := {|
  Torch.lit := fun q => Some (Q2R q);
  Torch.tadd := lift2 Rplus;
  Torch.tmul := lift2 Rmult;
  Torch.tdiv := xdiv;
  Torch.tneg := option_map Ropp;
  Torch.texp := option_map exp;
  Torch.tlog := xlog;
  Torch.tsqrt := xsqrt
|}.

(** A value is finite. *)
Definition finite (a : xreal) : Prop := exists x, a = Some x.

(** A value is a positive real, a real that is not negative. *)
Definition positive (a : xreal) : Prop := exists x, a = Some x /\ (0 < x)%R.
Definition nonneg (a : xreal) : Prop := exists x, a = Some x /\ (0 <= x)%R.

(** The embeddings of a features tensor are finite and non-zero: every
    entry is finite and every embedding vector has a non-zero entry. *)
Definition finite_nonzero (features : Torch.tensor3 xreal) : Prop :=
  forall i v, i < Torch.dim0 features -> v < Torch.dim1 features ->
    (forall k, k < Torch.dim2 features -> finite (Torch.at3 features i v k)) /\
    (exists k, k < Torch.dim2 features /\
               Torch.at3 features i v k <> Some 0%R).

(** A features tensor with one value everywhere, and an object with
    some configuration, for concrete runs. *)
Definition const_features (b v d : nat) (x : xreal) : Torch.tensor3 xreal :=
  {| Torch.dim0 := b; Torch.dim1 := v; Torch.dim2 := d;
     Torch.at3 := fun _ _ _ => x |}.

Definition sample_self : SimCLR.t :=
  {| SimCLR.curr_epochs := 0;
     SimCLR.lr := 3 # 10000;
     SimCLR.batch_size := 4;
     SimCLR.lead_groupings := false;
     SimCLR.epochs := 6;
     SimCLR.temperature := 7 # 100;
     SimCLR.warmup_epochs := 3;
     SimCLR.checkpoint_freq := 2;
     SimCLR.n_views := 2 |}.

End XReal.

(** * Further definitions

    The definitions below serve the statements about the rest of the two
    source files. *)

(** Every coordinate of the pairing index addresses a cell of a
    [b] by [b] matrix. *)
Definition index_in_range (patientIds : list string) (b : nat) : bool :=
  forallb (fun '(i, j) => (i <? b) && (j <? b))
          (PairingIndex.upper_coords patientIds ++
           PairingIndex.lower_coords patientIds).


(** A value is a real that is not positive; a positive value is at most
    another one. *)
Definition nonpos (a : XReal.xreal) : Prop :=
  exists x, a = Some x /\ (x <= 0)%R.

Definition dominated (a s : XReal.xreal) : Prop :=
  exists x y, a = Some x /\ s = Some y /\ (0 < x <= y)%R.


(** ** [Simclr.py]: the class [AverageMeter] *)

Module AverageMeter.
Import Torch.

Section Meter.
Context {T : Type} {ST : Scalar T}.

(** A Python [int] used as a scalar operand. *)
Definition of_int (z : Z) : T := lit (inject_Z z).

(** The attributes of a meter.  [count] is a Python [int]; the values
    are Python numbers, as in [loss_meter.update(loss.item(), n)]. *)
Record t : Type := {
  val : T;
  avg : T;
  sum : T;
  count : Z
}.

(** [reset], which [__init__] calls: every attribute becomes [0]. *)
Definition reset : t :=
  {| val := lit 0; avg := lit 0; sum := lit 0; count := 0 |}.

(** [update(val, n)].  The three first assignments are done when the
    division of the fourth raises. *)
Definition update (self : t) (v : T) (n : Z) : t * option py_error :=
  let sum' := tadd (sum self) (tmul v (of_int n)) in
  let count' := (count self + n)%Z in
  if (count' =? 0)%Z
  then ({| val := v; avg := avg self; sum := sum'; count := count' |},
        Some ZeroDivisionError)
  else ({| val := v; avg := tdiv sum' (of_int count');
           sum := sum'; count := count' |},
        None).

(** A sequence of calls of [update]; the first exception ends it. *)
Fixpoint updates (self : t) (calls : list (T * Z)) : t * option py_error :=
  match calls with
  | [] => (self, None)
  | (v, n) :: rest =>
      match update self v n with
      | (self', Some e) => (self', Some e)
      | (self', None) => updates self' rest
      end
  end.

End Meter.

Arguments t : clear implicits.

End AverageMeter.


(** ** The events of a run of [train] that raises nothing *)

(** One epoch: its start, one optimizer step per batch, numbered from
    the iteration counter [n_iter], the scheduler step if the epoch has
    reached the warm-up count, the checkpoint if it is due. *)
Definition epoch_events (self : SimCLR.t) (nbatches : nat) (n_iter : Z)
           (e : Z) : list SimCLR.event :=
  SimCLR.EpochStart e
  :: map (fun k => SimCLR.OptimizerStep e (n_iter + Z.of_nat k)%Z)
         (seq 0 nbatches)
  ++ SimCLR.gate self e
  ++ (if ((e mod SimCLR.checkpoint_freq self =? 0)
          || (e + 1 =? SimCLR.epochs self))%Z
      then [SimCLR.SaveCheckpoint e] else []).

Fixpoint epochs_events (self : SimCLR.t) (nbatches : nat) (n_iter : Z)
         (es : list Z) : list SimCLR.event :=
  match es with
  | [] => []
  | e :: es' =>
      epoch_events self nbatches n_iter e
      ++ epochs_events self nbatches (n_iter + Z.of_nat nbatches)%Z es'
  end.

(** The iteration counters of the optimizer steps of a run, in order,
    and the epochs whose checkpoint was saved. *)
Definition step_counters (tr : list SimCLR.event) : list Z :=
  flat_map (fun ev => match ev with
                      | SimCLR.OptimizerStep _ k => [k]
                      | _ => []
                      end) tr.

Definition saved_epochs (tr : list SimCLR.event) : list Z :=
  flat_map (fun ev => match ev with
                      | SimCLR.SaveCheckpoint e => [e]
                      | _ => []
                      end) tr.


(** ** [Simclr.py]: [SimCLR.info_nce_loss] *)

Module InfoNCE.
Import Torch.

(** [m[mask]] with a boolean mask of the shape of [m]: the selected
    entries in row-major order. *)
Definition select_row {A : Type} (r : list A) (mask : list bool) : list A :=
  map fst (filter snd (combine r mask)).

Definition masked_select {A : Type} (m : list (list A))
           (mask : list (list bool)) : list A :=
  concat (Numpy.zip_with select_row m mask).

(** [n] rows of [c] consecutive elements. *)
Fixpoint chunk {A : Type} (n c : nat) (l : list A) : list (list A) :=
  match n with
  | 0 => []
  | S n' => firstn c l :: chunk n' c (skipn c l)
  end.

(** [flat.view(n, -1)]: the number of columns is inferred; it cannot be
    when [n] is zero, and [n] must divide the number of elements. *)
Definition view {A : Type} (n : nat) (flat : list A) : result (list (list A)) :=
  if n =? 0 then raise RuntimeError
  else if length flat mod n =? 0
       then ret (chunk n (length flat / n) flat)
       else raise RuntimeError.

(** [torch.eye(n, dtype=torch.bool)] and [~mask]. *)
Definition eye (n : nat) : list (list bool) :=
  map (fun i => map (fun j => j =? i) (seq 0 n)) (seq 0 n).

Definition lnot (mask : list (list bool)) : list (list bool) :=
  map (map negb) mask.

(** [torch.cat([a, b], dim=1)] on two matrices given by their rows. *)
Definition cat_dim1 {A : Type} (a b : list (list A)) : result (list (list A)) :=
  if length a =? length b
  then ret (Numpy.zip_with (@app A) a b)
  else raise RuntimeError.

Section Loss.
Context {T : Type} {ST : Scalar T}.

(** [.clamp_min(eps)] inside [F.normalize], whose [eps] is [1e-12]:
    the comparison of scalars is not part of [Scalar]. *)
Variable clamp_min_eps : T -> T.

(** The rows of a 2-D tensor. *)
Definition to_rows (m : tensor2 T) : list (list T) :=
  map (row m) (seq 0 (nrows m)).

(** [F.normalize(features, dim=1)]: every row over its clamped norm. *)
Definition normalize (features : tensor2 T) : tensor2 T :=
  {| nrows := nrows features;
     ncols := ncols features;
     at2 := fun i k =>
              tdiv (at2 features i k)
                   (clamp_min_eps (norm2 (row features i))) |}.

(** [torch.cat([torch.arange(batch_size) for i in range(n_views)])] *)
Definition arange_labels (self : SimCLR.t) : list nat :=
  concat (repeat (seq 0 (SimCLR.batch_size self)) (SimCLR.n_views self)).

(** [SimCLR.info_nce_loss].  The label matrix holds [1.0] and [0.0];
    it is kept as booleans, which [.float()] and [.bool()] convert back
    and forth. *)
Definition info_nce_loss (self : SimCLR.t) (features : tensor2 T)
  : result (list (list T) * list Z) :=
  if SimCLR.n_views self =? 0 then raise RuntimeError else
  let labels := arange_labels self in
  let labels :=
    map (fun li => map (fun lj => lj =? li) labels) labels in
  let features := normalize features in
  let similarity_matrix := mm features (transpose features) in
  let mask := eye (length labels) in
  (labels' <- view (length labels) (masked_select labels (lnot mask)) ;;
   if negb ((nrows similarity_matrix =? length mask)
            && (ncols similarity_matrix =? length mask))
   then raise IndexError else
   similarity_matrix' <-
     view (nrows similarity_matrix)
          (masked_select (to_rows similarity_matrix) (lnot mask)) ;;
   positives <-
     view (length labels') (masked_select similarity_matrix' labels') ;;
   negatives <-
     view (length similarity_matrix')
          (masked_select similarity_matrix' (lnot labels')) ;;
   logits <- cat_dim1 positives negatives ;;
   let labels := repeat 0%Z (length logits) in
   let logits :=
     map (map (fun x => tdiv x (lit (SimCLR.temperature self)))) logits in
   ret (logits, labels))%py.

(** The similarity of rows [i] and [j] of the normalized features. *)
Definition similarity (features : tensor2 T) (i j : nat) : T :=
  dot (row (normalize features) i) (row (normalize features) j).

End Loss.

End InfoNCE.


(** The columns of row [i] of the logits: first the other samples that
    carry the label of sample [i] (its other views), then the samples
    with another label. *)
Definition positive_columns (batch_size n i : nat) : list nat :=
  filter (fun j => negb (j =? i) && (j mod batch_size =? i mod batch_size))
         (seq 0 n).

Definition negative_columns (batch_size n i : nat) : list nat :=
  filter (fun j => negb (j mod batch_size =? i mod batch_size)) (seq 0 n).

(** * Properties *)

Unset Implicit Arguments.

(** ** The error monad *)

Lemma mapM_total {A B : Type} (f : A -> result B) (g : A -> B) (l : list A) :
  (forall a, In a l -> f a = inr (g a)) ->
  mapM f l = inr (map g l).
Proof.
  induction l as [|a l IH]; intros H; simpl.
  - reflexivity.
  - rewrite (H a (or_introl eq_refl)).
    rewrite IH by (intros b Hb; apply H; now right).
    reflexivity.
Qed.

Lemma mapM_sound {A B : Type} (f : A -> result B) (g : A -> B)
      (l : list A) (bs : list B) :
  (forall a b, f a = inr b -> b = g a) ->
  mapM f l = inr bs -> bs = map g l.
Proof.
  intros H. revert bs. induction l as [|a l IH]; intros bs E; simpl in E.
  - now injection E as <-.
  - destruct (f a) as [e|b] eqn:Ea; [discriminate|].
    destruct (mapM f l) as [e|bs'] eqn:El; [discriminate|].
    injection E as <-. simpl. now rewrite (H a b Ea), (IH bs' eq_refl).
Qed.

(** ** Lists with positions *)

Section Enumerate.
Context {A : Type}.

Lemma combine_seq_nth_error (l : list A) (s i : nat) (x : A) :
  In (i, x) (combine (seq s (length l)) l) <->
  (s <= i /\ nth_error l (i - s) = Some x).
Proof.
  revert s; induction l as [|a l IH]; intros s; simpl.
  - split; [tauto|]. intros [_ H]. destruct (i - s); discriminate.
  - rewrite IH. split.
    + intros [H | [Hle H]].
      * inversion H; subst. rewrite Nat.sub_diag. simpl. auto.
      * split; [lia|]. replace (i - s) with (S (i - S s)) by lia. exact H.
    + intros [Hle H]. destruct (i - s) as [|k] eqn:E.
      * left. simpl in H. inversion H. f_equal. lia.
      * right. split; [lia|]. simpl in H.
        replace (i - S s) with k by lia. exact H.
Qed.

Lemma In_enumerate (l : list A) (i : nat) (x : A) :
  In (i, x) (Numpy.enumerate l) <-> nth_error l i = Some x.
Proof.
  unfold Numpy.enumerate. rewrite combine_seq_nth_error.
  rewrite Nat.sub_0_r. split; [tauto | intros; split; [lia | assumption]].
Qed.

Lemma nth_error_map_combine_seq {B : Type} (f : nat * A -> B)
      (l : list A) (s i : nat) :
  nth_error (map f (combine (seq s (length l)) l)) i =
  option_map (fun x => f (s + i, x)) (nth_error l i).
Proof.
  revert s i; induction l as [|a l IH]; intros s i; simpl.
  - destruct i; reflexivity.
  - destruct i as [|i]; simpl.
    + now rewrite Nat.add_0_r.
    + rewrite IH. now rewrite Nat.add_succ_r.
Qed.

Lemma nth_error_map_enumerate {B : Type} (f : nat * A -> B)
      (l : list A) (i : nat) :
  nth_error (map f (Numpy.enumerate l)) i =
  option_map (fun x => f (i, x)) (nth_error l i).
Proof.
  unfold Numpy.enumerate. now rewrite nth_error_map_combine_seq.
Qed.

End Enumerate.

Lemma combine_fst_snd {A B : Type} (l : list (A * B)) :
  combine (map fst l) (map snd l) = l.
Proof.
  induction l as [|[a b] l IH]; simpl; [reflexivity | now rewrite IH].
Qed.

(** ** The array operations *)

Lemma In_nonzero (m : list (list Z)) (i j : nat) :
  In (i, j) (Numpy.nonzero m) <->
  exists row v, nth_error m i = Some row /\ nth_error row j = Some v /\ v <> 0%Z.
Proof.
  unfold Numpy.nonzero. rewrite in_flat_map. split.
  - intros [[i' row] [Hin H]]. apply In_enumerate in Hin.
    apply in_flat_map in H. destruct H as [[j' v] [Hin' H]].
    apply In_enumerate in Hin'.
    destruct (Z.eqb_spec v 0); [contradiction|].
    destruct H as [H|[]]. inversion H; subst. eauto.
  - intros (row & v & Hrow & Hv & Hnz).
    exists (i, row). split; [now apply In_enumerate|].
    apply in_flat_map. exists (j, v). split; [now apply In_enumerate|].
    destruct (Z.eqb_spec v 0); [contradiction|]. now left.
Qed.

Lemma coords_np_where (m : list (list Z)) :
  PairingIndex.coords (Numpy.np_where m) = Numpy.nonzero m.
Proof. apply combine_fst_snd. Qed.

Lemma zip_with_const_r {A B C : Type} (f : A -> B -> C) (x : list A) (b : B) :
  Numpy.zip_with f x (map (fun _ => b) x) = map (fun a => f a b) x.
Proof. induction x; simpl; [reflexivity | now rewrite IHx]. Qed.

Lemma zip_with_diag {A C : Type} (f : A -> A -> C) (x : list A) :
  Numpy.zip_with f x x = map (fun a => f a a) x.
Proof. induction x; simpl; [reflexivity | now rewrite IHx]. Qed.

Lemma mat_zip_with_meshgrid {A C : Type} (f : A -> A -> C) (x y : list A) :
  Numpy.mat_zip_with f (fst (Numpy.meshgrid x y)) (snd (Numpy.meshgrid x y)) =
  map (fun b => map (fun a => f a b) x) y.
Proof.
  unfold Numpy.mat_zip_with, Numpy.meshgrid; simpl.
  induction y as [|b y IH]; simpl; [reflexivity|].
  now rewrite zip_with_const_r, IH.
Qed.

Lemma In_insert_unique (x z : string) (l : list string) :
  In z (Numpy.insert_unique x l) <-> z = x \/ In z l.
Proof.
  induction l as [|y l IH]; simpl.
  - intuition congruence.
  - destruct (String.compare x y) eqn:E; simpl.
    + apply String.compare_eq_iff in E. subst. intuition congruence.
    + intuition congruence.
    + rewrite IH. intuition congruence.
Qed.

Lemma In_unique (z : string) (l : list string) :
  In z (Numpy.unique l) <-> In z l.
Proof.
  induction l as [|x l IH]; simpl; [tauto|].
  rewrite In_insert_unique, IH. intuition congruence.
Qed.

(** ** The pairing index *)

Lemma pid_matrix_rows (pids : list string) :
  PairingIndex.pid_matrix pids =
  map (fun b => map (fun a => Numpy.join_dash a b) pids) pids.
Proof.
  unfold PairingIndex.pid_matrix.
  pose proof (mat_zip_with_meshgrid (fun a b => Numpy.join_dash a b) pids pids) as H.
  destruct (Numpy.meshgrid pids pids) as [pid1 pid2]. exact H.
Qed.

Lemma bool_matrix_entry (pids : list string) (i j : nat) (v : Z) :
  (exists row, nth_error (PairingIndex.bool_matrix_of_interest pids) i = Some row /\
               nth_error row j = Some v) <->
  exists pi pj,
    nth_error pids i = Some pi /\ nth_error pids j = Some pj /\
    v = if existsb (String.eqb (Numpy.join_dash pj pi))
                   (PairingIndex.pids_of_interest pids)
        then 1%Z else 0%Z.
Proof.
  unfold PairingIndex.bool_matrix_of_interest, Numpy.astype_int, Numpy.isin.
  rewrite pid_matrix_rows, !map_map. split.
  - intros (row & Hrow & Hv). rewrite nth_error_map in Hrow.
    destruct (nth_error pids i) as [pi|] eqn:Ei; [|discriminate].
    simpl in Hrow. inversion Hrow; subst row; clear Hrow.
    rewrite !map_map, nth_error_map in Hv.
    destruct (nth_error pids j) as [pj|] eqn:Ej; [|discriminate].
    simpl in Hv. inversion Hv. eauto.
  - intros (pi & pj & Hi & Hj & ->). eexists. split.
    + rewrite nth_error_map, Hi. reflexivity.
    + rewrite !map_map, nth_error_map, Hj. reflexivity.
Qed.

Lemma triu_entry (m : list (list Z)) (k : Z) (i j : nat) (v : Z) :
  (exists row, nth_error (Numpy.triu m k) i = Some row /\
               nth_error row j = Some v) <->
  exists row w, nth_error m i = Some row /\ nth_error row j = Some w /\
                v = if (Z.of_nat i + k <=? Z.of_nat j)%Z then w else 0%Z.
Proof.
  unfold Numpy.triu. rewrite nth_error_map_enumerate. split.
  - intros (row' & Hrow & Hv).
    destruct (nth_error m i) as [row|]; [|discriminate].
    simpl in Hrow. inversion Hrow; subst row'; clear Hrow.
    rewrite nth_error_map_enumerate in Hv.
    destruct (nth_error row j) as [w|] eqn:Ew; [|discriminate].
    simpl in Hv. injection Hv as <-. exists row, w. auto.
  - intros (row & w & Hrow & Hw & ->). rewrite Hrow. simpl.
    eexists. split; [reflexivity|].
    rewrite nth_error_map_enumerate, Hw. reflexivity.
Qed.

Lemma tril_entry (m : list (list Z)) (k : Z) (i j : nat) (v : Z) :
  (exists row, nth_error (Numpy.tril m k) i = Some row /\
               nth_error row j = Some v) <->
  exists row w, nth_error m i = Some row /\ nth_error row j = Some w /\
                v = if (Z.of_nat j <=? Z.of_nat i + k)%Z then w else 0%Z.
Proof.
  unfold Numpy.tril. rewrite nth_error_map_enumerate. split.
  - intros (row' & Hrow & Hv).
    destruct (nth_error m i) as [row|]; [|discriminate].
    simpl in Hrow. inversion Hrow; subst row'; clear Hrow.
    rewrite nth_error_map_enumerate in Hv.
    destruct (nth_error row j) as [w|] eqn:Ew; [|discriminate].
    simpl in Hv. injection Hv as <-. exists row, w. auto.
  - intros (row & w & Hrow & Hw & ->). rewrite Hrow. simpl.
    eexists. split; [reflexivity|].
    rewrite nth_error_map_enumerate, Hw. reflexivity.
Qed.

(** A cell is selected when its derived key [pids[j] + '-' + pids[i]]
    is one of the self keys [p + '-' + p]. *)
Lemma key_of_interest (pids : list string) (pi pj : string) :
  existsb (String.eqb (Numpy.join_dash pj pi))
          (PairingIndex.pids_of_interest pids) = true <->
  exists pk, In pk pids /\ Numpy.join_dash pj pi = Numpy.join_dash pk pk.
Proof.
  unfold PairingIndex.pids_of_interest. rewrite existsb_exists. split.
  - intros (x & Hx & E). apply String.eqb_eq in E. subst x.
    apply (proj1 (In_unique _ _)) in Hx. rewrite zip_with_diag in Hx.
    apply in_map_iff in Hx. destruct Hx as (pk & E & Hk). eauto.
  - intros (pk & Hk & E). exists (Numpy.join_dash pj pi). split.
    + apply (proj2 (In_unique _ _)). rewrite zip_with_diag, E.
      apply in_map_iff. eauto.
    + apply String.eqb_refl.
Qed.

Lemma upper_coords_spec (pids : list string) (i j : nat) :
  In (i, j) (PairingIndex.upper_coords pids) <->
  i < j /\
  exists pi pj pk,
    nth_error pids i = Some pi /\ nth_error pids j = Some pj /\
    In pk pids /\ Numpy.join_dash pj pi = Numpy.join_dash pk pk.
Proof.
  unfold PairingIndex.upper_coords, PairingIndex.upper_index.
  rewrite coords_np_where, In_nonzero. split.
  - intros (row & v & Hrow & Hv & Hnz).
    destruct (proj1 (triu_entry _ _ _ _ _) (ex_intro _ row (conj Hrow Hv)))
      as (row' & w & Hrow' & Hw & ->).
    destruct (proj1 (bool_matrix_entry _ _ _ _) (ex_intro _ row' (conj Hrow' Hw)))
      as (pi & pj & Hi & Hj & ->).
    destruct (Z.leb_spec (Z.of_nat i + 1) (Z.of_nat j)); [|congruence].
    destruct (existsb _ _) eqn:E; [|congruence].
    apply key_of_interest in E. destruct E as (pk & Hk & E).
    split; [lia|]. exists pi, pj, pk. auto.
  - intros (Hlt & pi & pj & pk & Hi & Hj & Hk & E).
    assert (Hex : existsb (String.eqb (Numpy.join_dash pj pi))
                          (PairingIndex.pids_of_interest pids) = true)
      by (apply key_of_interest; eauto).
    destruct (proj2 (bool_matrix_entry pids i j 1%Z)) as (row & Hrow & Hv).
    { exists pi, pj. rewrite Hex. auto. }
    destruct (proj2 (triu_entry (PairingIndex.bool_matrix_of_interest pids) 1 i j 1%Z))
      as (row' & Hrow' & Hv').
    { exists row, 1%Z. repeat split; auto.
      destruct (Z.leb_spec (Z.of_nat i + 1) (Z.of_nat j)); [reflexivity | lia]. }
    exists row', 1%Z. repeat split; auto. discriminate.
Qed.

Lemma lower_coords_spec (pids : list string) (i j : nat) :
  In (i, j) (PairingIndex.lower_coords pids) <->
  j < i /\
  exists pi pj pk,
    nth_error pids i = Some pi /\ nth_error pids j = Some pj /\
    In pk pids /\ Numpy.join_dash pj pi = Numpy.join_dash pk pk.
Proof.
  unfold PairingIndex.lower_coords, PairingIndex.lower_index.
  rewrite coords_np_where, In_nonzero. split.
  - intros (row & v & Hrow & Hv & Hnz).
    destruct (proj1 (tril_entry _ _ _ _ _) (ex_intro _ row (conj Hrow Hv)))
      as (row' & w & Hrow' & Hw & ->).
    destruct (proj1 (bool_matrix_entry _ _ _ _) (ex_intro _ row' (conj Hrow' Hw)))
      as (pi & pj & Hi & Hj & ->).
    destruct (Z.leb_spec (Z.of_nat j) (Z.of_nat i + -1)); [|congruence].
    destruct (existsb _ _) eqn:E; [|congruence].
    apply key_of_interest in E. destruct E as (pk & Hk & E).
    split; [lia|]. exists pi, pj, pk. auto.
  - intros (Hlt & pi & pj & pk & Hi & Hj & Hk & E).
    assert (Hex : existsb (String.eqb (Numpy.join_dash pj pi))
                          (PairingIndex.pids_of_interest pids) = true)
      by (apply key_of_interest; eauto).
    destruct (proj2 (bool_matrix_entry pids i j 1%Z)) as (row & Hrow & Hv).
    { exists pi, pj. rewrite Hex. auto. }
    destruct (proj2 (tril_entry (PairingIndex.bool_matrix_of_interest pids) (-1) i j 1%Z))
      as (row' & Hrow' & Hv').
    { exists row, 1%Z. repeat split; auto.
      destruct (Z.leb_spec (Z.of_nat j) (Z.of_nat i + -1)); [reflexivity | lia]. }
    exists row', 1%Z. repeat split; auto. discriminate.
Qed.

(** Two derived keys built from dash-free left parts are equal only if
    their parts are. *)
Lemma join_dash_inj (a b c d : string) :
  PairingIndex.has_dash a = false ->
  PairingIndex.has_dash c = false ->
  Numpy.join_dash a b = Numpy.join_dash c d ->
  a = c /\ b = d.
Proof.
  unfold Numpy.join_dash. revert c.
  induction a as [|x a IH]; intros [|y c] Ha Hc E; simpl in *.
  - injection E as ->. auto.
  - injection E as <- _. simpl in Hc. discriminate.
  - injection E as -> _. simpl in Ha. discriminate.
  - injection E as -> E.
    apply orb_false_elim in Ha. apply orb_false_elim in Hc.
    destruct (IH c (proj2 Ha) (proj2 Hc) E) as [-> ->]. auto.
Qed.

(** Rows with equal identities are paired, whatever the identities
    are. *)
Lemma equal_identities_selected (pids : list string) (i j : nat) (p : string) :
  i <> j ->
  nth_error pids i = Some p ->
  nth_error pids j = Some p ->
  In (i, j) (PairingIndex.upper_coords pids ++ PairingIndex.lower_coords pids).
Proof.
  intros Hne Hi Hj. apply in_or_app.
  assert (Hsel : exists pi pj pk,
             nth_error pids i = Some pi /\ nth_error pids j = Some pj /\
             In pk pids /\ Numpy.join_dash pj pi = Numpy.join_dash pk pk).
  { exists p, p, p. repeat split; auto. eapply nth_error_In; eauto. }
  destruct (Nat.lt_ge_cases i j).
  - left. apply upper_coords_spec. auto.
  - right. apply lower_coords_spec. split; [lia | auto].
Qed.

(** Without the separator in any identity, the selected cells are the
    off-diagonal cells with equal identities. *)
Lemma pairing_index_equal_ids (pids : list string) :
  Forall (fun p => PairingIndex.has_dash p = false) pids ->
  forall i j,
    In (i, j) (PairingIndex.upper_coords pids ++ PairingIndex.lower_coords pids)
    <->
    (i <> j /\ exists p, nth_error pids i = Some p /\ nth_error pids j = Some p).
Proof.
  intros Hdash i j. split.
  - intros H. apply in_app_or in H.
    assert (Hsel : i <> j /\ exists pi pj pk,
               nth_error pids i = Some pi /\ nth_error pids j = Some pj /\
               In pk pids /\ Numpy.join_dash pj pi = Numpy.join_dash pk pk).
    { destruct H as [H|H].
      - apply upper_coords_spec in H. destruct H; split; [lia | auto].
      - apply lower_coords_spec in H. destruct H; split; [lia | auto]. }
    destruct Hsel as (Hne & pi & pj & pk & Hi & Hj & Hk & E).
    split; [exact Hne|].
    rewrite Forall_forall in Hdash.
    destruct (join_dash_inj pj pi pk pk) as [-> ->]; auto.
    + apply Hdash. eapply nth_error_In; eauto.
    + eauto.
  - intros (Hne & p & Hi & Hj). eapply equal_identities_selected; eauto.
Qed.




(** C5: for the identities ["p1", "p1", "p2", "p3"] the upper index is
    the single pair [(0, 1)], the lower index the single pair [(1, 0)],
    and no selected cell touches rows 2 or 3. *)
Theorem scenario_A_pairing_index :
  let pids := ["p1"; "p1"; "p2"; "p3"]%string in
  PairingIndex.upper_index pids = ([0], [1]) /\
  PairingIndex.lower_index pids = ([1], [0]) /\
  PairingIndex.upper_coords pids = [(0, 1)] /\
  PairingIndex.lower_coords pids = [(1, 0)] /\
  (forall i j,
      In (i, j) (PairingIndex.upper_coords pids ++
                 PairingIndex.lower_coords pids) ->
      i < 2 /\ j < 2).
Proof.
  cbv zeta. repeat split; try (vm_compute; reflexivity).
  - vm_compute in H. destruct H as [H|[H|[]]]; inversion H; lia.
  - vm_compute in H. destruct H as [H|[H|[]]]; inversion H; lia.
Qed.

(** C6: every coordinate of the upper index lies strictly above the
    diagonal and every coordinate of the lower index strictly below, so
    the two sets are disjoint and neither holds a diagonal cell. *)
Theorem pairing_index_triangles (pids : list string) :
  (forall i j, In (i, j) (PairingIndex.upper_coords pids) -> i < j) /\
  (forall i j, In (i, j) (PairingIndex.lower_coords pids) -> j < i) /\
  (forall c, In c (PairingIndex.upper_coords pids) ->
             ~ In c (PairingIndex.lower_coords pids)) /\
  (forall i, ~ In (i, i) (PairingIndex.upper_coords pids) /\
             ~ In (i, i) (PairingIndex.lower_coords pids)).
Proof.
  assert (U : forall i j, In (i, j) (PairingIndex.upper_coords pids) -> i < j)
    by (intros i j H; apply upper_coords_spec in H; tauto).
  assert (L : forall i j, In (i, j) (PairingIndex.lower_coords pids) -> j < i)
    by (intros i j H; apply lower_coords_spec in H; tauto).
  repeat split; auto.
  - intros [i j] Hu Hl. apply U in Hu. apply L in Hl. lia.
  - intros H. apply U in H. lia.
  - intros H. apply L in H. lia.
Qed.

Lemma pairing_index_triangles_witness : 0 < 1 /\ 0 < 1.
Proof.
  destruct (pairing_index_triangles ["p1"; "p1"; "p2"]%string)
    as (U & L & _).
  split.
  - apply (U 0 1). vm_compute. left. reflexivity.
  - apply (L 1 0). vm_compute. left. reflexivity.
Defined.


(** ** The range of the pairing index *)

Lemma upper_coords_in_range (pids : list string) (i j : nat) :
  In (i, j) (PairingIndex.upper_coords pids) ->
  i < length pids /\ j < length pids.
Proof.
  intros H. apply upper_coords_spec in H.
  destruct H as (_ & pi & pj & pk & Hi & Hj & _).
  split; apply nth_error_Some; congruence.
Qed.

Lemma lower_coords_in_range (pids : list string) (i j : nat) :
  In (i, j) (PairingIndex.lower_coords pids) ->
  i < length pids /\ j < length pids.
Proof.
  intros H. apply lower_coords_spec in H.
  destruct H as (_ & pi & pj & pk & Hi & Hj & _).
  split; apply nth_error_Some; congruence.
Qed.

Lemma upper_rows_in_range (pids : list string) (i : nat) :
  In i (fst (PairingIndex.upper_index pids)) -> i < length pids.
Proof.
  unfold PairingIndex.upper_index, Numpy.np_where; simpl. intros H.
  apply in_map_iff in H. destruct H as ([i' j] & <- & H).
  rewrite <- coords_np_where in H.
  apply (upper_coords_in_range pids i' j H).
Qed.

Lemma lower_cols_in_range (pids : list string) (j : nat) :
  In j (snd (PairingIndex.lower_index pids)) -> j < length pids.
Proof.
  unfold PairingIndex.lower_index, Numpy.np_where; simpl. intros H.
  apply in_map_iff in H. destruct H as ([i j'] & <- & H).
  rewrite <- coords_np_where in H.
  apply (lower_coords_in_range pids i j' H).
Qed.

(** ** View pairs *)

Lemma combinations2_seq_last (s n : nat) :
  2 <= n ->
  exists l, SimCLR.combinations2 (seq s n) = l ++ [(s + n - 2, s + n - 1)].
Proof.
  revert s. induction n as [|n IH]; intros s Hn; [lia|].
  simpl. destruct (Nat.eq_dec n 1) as [->|Hne].
  - exists []. simpl.
    replace (s + 2 - 2) with s by lia.
    replace (s + 2 - 1) with (S s) by lia. reflexivity.
  - destruct (IH (S s)) as [l Hl]; [lia|].
    exists (map (pair s) (seq (S s) n) ++ l).
    rewrite Hl, <- app_assoc.
    replace (S s + n - 2) with (s + S n - 2) by lia.
    replace (S s + n - 1) with (s + S n - 1) by lia. reflexivity.
Qed.

Lemma view_combinations_last (n : nat) :
  2 <= n ->
  exists l, SimCLR.view_combinations n = l ++ [(n - 2, n - 1)].
Proof.
  intros Hn. destruct (combinations2_seq_last 0 n Hn) as [l Hl].
  exists l. unfold SimCLR.view_combinations. rewrite Hl. reflexivity.
Qed.

Lemma combinations2_seq_bounds (s n a b : nat) :
  In (a, b) (SimCLR.combinations2 (seq s n)) -> s <= a < b /\ b < s + n.
Proof.
  revert s. induction n as [|n IH]; intros s; simpl; [tauto|].
  intros H. apply in_app_or in H. destruct H as [H|H].
  - apply in_map_iff in H. destruct H as (x & E & Hx).
    inversion E; subst. apply in_seq in Hx. lia.
  - apply IH in H. lia.
Qed.

Lemma view_combinations_bounds (n a b : nat) :
  In (a, b) (SimCLR.view_combinations n) -> a < b /\ b < n.
Proof.
  intros H. apply combinations2_seq_bounds in H. lia.
Qed.

(** ** The loop of [contrastive_loss], for any scalar arithmetic *)

Section LossFacts.
Context {T : Type} {ST : Torch.Scalar T}.
Import Torch.

Lemma index2_total (m : tensor2 T) (rows cols : list nat) :
  (forall i j, In (i, j) (combine rows cols) -> i < nrows m /\ j < ncols m) ->
  index2 m rows cols = inr (SimCLR.gather2 m rows cols).
Proof.
  intros H. unfold index2, SimCLR.gather2. apply mapM_total.
  intros [i j] Hin. destruct (H i j Hin) as [Hi Hj].
  apply Nat.ltb_lt in Hi. apply Nat.ltb_lt in Hj.
  now rewrite Hi, Hj.
Qed.

Lemma index1_total (v : list T) (idx : list nat) :
  (forall i, In i idx -> i < length v) ->
  index1 v idx = inr (SimCLR.gather1 v idx).
Proof.
  intros H. unfold index1, SimCLR.gather1. apply mapM_total.
  intros i Hin. now rewrite (nth_error_nth' v (lit 0) (H i Hin)).
Qed.

Lemma length_sum_dim1 (m : tensor2 T) : length (sum_dim1 m) = nrows m.
Proof. unfold sum_dim1. now rewrite length_map, length_seq. Qed.

Lemma length_sum_dim0 (m : tensor2 T) : length (sum_dim0 m) = ncols m.
Proof. unfold sum_dim0. now rewrite length_map, length_seq. Qed.

Lemma index2_sound (m : tensor2 T) (rows cols : list nat) (x : list T) :
  index2 m rows cols = inr x -> x = SimCLR.gather2 m rows cols.
Proof.
  unfold index2, SimCLR.gather2. apply mapM_sound.
  intros [i j] b. destruct ((i <? nrows m) && (j <? ncols m)); [|discriminate].
  intros E. now injection E.
Qed.

Lemma index1_sound (v : list T) (idx : list nat) (x : list T) :
  index1 v idx = inr x -> x = SimCLR.gather1 v idx.
Proof.
  unfold index1, SimCLR.gather1. apply mapM_sound.
  intros i b. destruct (nth_error v i) as [y|] eqn:E; [|discriminate].
  intros Eb. injection Eb as <-. symmetry. now apply nth_error_nth.
Qed.

(** An iteration that raises nothing is [loop_step]. *)
Lemma loop_body_sound (features : tensor3 T) (pids : list string)
      (st st' : SimCLR.locals) (leads : nat * nat) :
  SimCLR.loop_body features
    (fst (PairingIndex.upper_index pids)) (snd (PairingIndex.upper_index pids))
    (fst (PairingIndex.lower_index pids)) (snd (PairingIndex.lower_index pids))
    st leads = inr st' ->
  st' = SimCLR.loop_step features pids st leads.
Proof.
  destruct leads as [lead1 lead2].
  unfold SimCLR.loop_body, SimCLR.loop_step, SimCLR.contributing_terms.
  destruct (PairingIndex.upper_index pids) as [rows1 cols1].
  destruct (PairingIndex.lower_index pids) as [rows2 cols2].
  cbn [fst snd].
  destruct (index2 _ rows1 cols1) as [?|x1] eqn:E1; [discriminate|].
  apply index2_sound in E1. subst x1. cbn [bind].
  destruct (index2 _ rows2 cols2) as [?|x2] eqn:E2; [discriminate|].
  apply index2_sound in E2. subst x2. cbn [bind].
  destruct (index1 _ rows1) as [?|y1] eqn:E3; [discriminate|].
  apply index1_sound in E3. subst y1. cbn [bind].
  destruct (index1 _ cols2) as [?|y2] eqn:E4; [discriminate|].
  apply index1_sound in E4. subst y2. cbn [bind].
  destruct (0 <? length rows1); destruct (0 <? length rows2);
    intros E; injection E as <-; reflexivity.
Qed.

(** No iteration raises when there are no more identities than batch
    rows. *)
Lemma loop_body_total (features : tensor3 T) (pids : list string)
      (st : SimCLR.locals) (leads : nat * nat) :
  length pids <= dim0 features ->
  SimCLR.loop_body features
    (fst (PairingIndex.upper_index pids)) (snd (PairingIndex.upper_index pids))
    (fst (PairingIndex.lower_index pids)) (snd (PairingIndex.lower_index pids))
    st leads
  = inr (SimCLR.loop_step features pids st leads).
Proof.
  intros Hlen. destruct leads as [lead1 lead2].
  pose proof (upper_coords_in_range pids) as U2.
  pose proof (lower_coords_in_range pids) as L2.
  pose proof (upper_rows_in_range pids) as U1.
  pose proof (lower_cols_in_range pids) as L1.
  unfold PairingIndex.upper_coords, PairingIndex.lower_coords,
    PairingIndex.coords in U2, L2.
  unfold SimCLR.loop_body, SimCLR.loop_step, SimCLR.contributing_terms.
  destruct (PairingIndex.upper_index pids) as [rows1 cols1].
  destruct (PairingIndex.lower_index pids) as [rows2 cols2].
  cbn [fst snd] in *.
  rewrite index2_total
    by (intros i j H; apply U2 in H; cbn [nrows ncols exp2]; simpl; lia).
  rewrite index2_total
    by (intros i j H; apply L2 in H; cbn [nrows ncols exp2]; simpl; lia).
  cbn [bind].
  rewrite index1_total
    by (intros i H; apply U1 in H; rewrite length_sum_dim1; simpl; lia).
  cbn [bind].
  rewrite index1_total
    by (intros i H; apply L1 in H; rewrite length_sum_dim0; simpl; lia).
  cbn [bind].
  destruct (0 <? length rows1); destruct (0 <? length rows2); reflexivity.
Qed.

End LossFacts.

Section LossTheorems.
Context {T : Type} {ST : Torch.Scalar T}.
Import Torch.

Lemma for_each_sound (features : tensor3 T) (pids : list string)
      (l : list (nat * nat)) (st st' : SimCLR.locals) :
  SimCLR.for_each
    (SimCLR.loop_body features
       (fst (PairingIndex.upper_index pids)) (snd (PairingIndex.upper_index pids))
       (fst (PairingIndex.lower_index pids)) (snd (PairingIndex.lower_index pids)))
    l st = inr st' ->
  st' = fold_left (SimCLR.loop_step features pids) l st.
Proof.
  revert st. induction l as [|a l IH]; intros st E; cbn [SimCLR.for_each] in E.
  - now injection E as <-.
  - destruct (SimCLR.loop_body _ _ _ _ _ st a) as [?|st1] eqn:Ea;
      [discriminate|].
    apply loop_body_sound in Ea. subst st1. cbn [fold_left]. now apply IH.
Qed.

Lemma for_each_total (features : tensor3 T) (pids : list string)
      (l : list (nat * nat)) (st : SimCLR.locals) :
  length pids <= dim0 features ->
  SimCLR.for_each
    (SimCLR.loop_body features
       (fst (PairingIndex.upper_index pids)) (snd (PairingIndex.upper_index pids))
       (fst (PairingIndex.lower_index pids)) (snd (PairingIndex.lower_index pids)))
    l st = inr (fold_left (SimCLR.loop_step features pids) l st).
Proof.
  intros Hlen. revert st. induction l as [|a l IH]; intros st;
    cbn [SimCLR.for_each fold_left]; [reflexivity|].
  rewrite loop_body_total by exact Hlen. apply IH.
Qed.

(** The loop adds the terms of every pair and counts the pairs. *)
Lemma loop_accumulates (features : tensor3 T) (pids : list string)
      (l : list (nat * nat)) (st : SimCLR.locals) :
  SimCLR.loss (fold_left (SimCLR.loop_step features pids) l st) =
    fold_left SimCLR.accumulate
              (map (SimCLR.contributing_terms features pids) l)
              (SimCLR.loss st) /\
  SimCLR.ncombinations (fold_left (SimCLR.loop_step features pids) l st) =
    SimCLR.ncombinations st + length l.
Proof.
  revert st. induction l as [|a l IH]; intros st; cbn [fold_left map length].
  - split; [reflexivity | lia].
  - destruct (IH (SimCLR.loop_step features pids st a)) as [-> ->].
    cbn [SimCLR.loop_step SimCLR.loss SimCLR.ncombinations].
    split; [reflexivity | lia].
Qed.

(** The locals at line 148, for at least two views. *)
Lemma loop_final_locals (features : tensor3 T) (pids : list string) :
  2 <= dim1 features ->
  fold_left (SimCLR.loop_step features pids)
            (SimCLR.view_combinations (dim1 features))
            {| SimCLR.loss := lit 0;
               SimCLR.ncombinations := 0;
               SimCLR.loss_terms := None;
               SimCLR.sim_matrix_exp := None |} =
  {| SimCLR.loss := SimCLR.accumulated_sum features pids;
     SimCLR.ncombinations :=
       length (SimCLR.view_combinations (dim1 features));
     SimCLR.loss_terms := Some (SimCLR.last_term_count features pids);
     SimCLR.sim_matrix_exp :=
       Some (exp2 (SimCLR.argument features (dim1 features - 2)
                                   (dim1 features - 1))) |}.
Proof.
  intros HV. unfold SimCLR.accumulated_sum, SimCLR.last_term_count.
  destruct (view_combinations_last (dim1 features) HV) as [l ->].
  rewrite fold_left_app. cbn [fold_left].
  unfold SimCLR.loop_step at 1.
  match goal with
  | |- context [fold_left (SimCLR.loop_step features pids) l ?s] =>
      destruct (loop_accumulates features pids l s) as [-> ->]
  end.
  rewrite map_app. cbn [map].
  rewrite fold_left_app, last_last, length_app.
  cbn [fold_left length SimCLR.loss SimCLR.ncombinations fst snd].
  rewrite Nat.add_0_l. reflexivity.
Qed.

Lemma contrastive_loss_locals_total (self : SimCLR.t) (features : tensor3 T)
      (pids : list string) :
  2 <= dim1 features ->
  length pids <= dim0 features ->
  SimCLR.contrastive_loss_locals self features pids =
  inr {| SimCLR.loss := SimCLR.accumulated_sum features pids;
         SimCLR.ncombinations :=
           length (SimCLR.view_combinations (dim1 features));
         SimCLR.loss_terms := Some (SimCLR.last_term_count features pids);
         SimCLR.sim_matrix_exp :=
           Some (exp2 (SimCLR.argument features (dim1 features - 2)
                                       (dim1 features - 1))) |}.
Proof.
  intros HV Hlen.
  unfold SimCLR.contrastive_loss_locals, SimCLR.pairing_index.
  rewrite (surjective_pairing (PairingIndex.upper_index pids)).
  rewrite (surjective_pairing (PairingIndex.lower_index pids)).
  rewrite for_each_total by exact Hlen.
  now rewrite loop_final_locals.
Qed.

(** When the loop raises nothing its locals are those of [loop_step]. *)
Lemma contrastive_loss_locals_sound (self : SimCLR.t) (features : tensor3 T)
      (pids : list string) (st : SimCLR.locals) :
  SimCLR.contrastive_loss_locals self features pids = inr st ->
  st = fold_left (SimCLR.loop_step features pids)
                 (SimCLR.view_combinations (dim1 features))
                 {| SimCLR.loss := lit 0;
                    SimCLR.ncombinations := 0;
                    SimCLR.loss_terms := None;
                    SimCLR.sim_matrix_exp := None |}.
Proof.
  unfold SimCLR.contrastive_loss_locals, SimCLR.pairing_index.
  rewrite (surjective_pairing (PairingIndex.upper_index pids)).
  rewrite (surjective_pairing (PairingIndex.lower_index pids)).
  apply for_each_sound.
Qed.

Lemma diag_ones_like (m : tensor2 T) :
  diag (ones_like m) = repeat (lit 1) (Nat.min (nrows m) (ncols m)).
Proof.
  unfold diag, ones_like; simpl.
  generalize (Nat.min (nrows m) (ncols m)) as n. intros n.
  generalize 0 as s. induction n as [|n IH]; intros s; simpl.
  - reflexivity.
  - now rewrite IH.
Qed.

(** Every pair contributes as many terms as any other, because the
    index sets are built once, before the loop. *)
Lemma term_count_same_for_every_pair (features : tensor3 T)
      (pids : list string) (leads leads' : nat * nat) :
  length (SimCLR.contributing_terms features pids leads) =
  length (SimCLR.contributing_terms features pids leads').
Proof.
  unfold SimCLR.contributing_terms.
  destruct (PairingIndex.upper_index pids) as [rows1 cols1].
  destruct (PairingIndex.lower_index pids) as [rows2 cols2].
  destruct (0 <? length rows1); destruct (0 <? length rows2); reflexivity.
Qed.

Lemma length_contributing_terms (features : tensor3 T)
      (pids : list string) (leads : nat * nat) :
  length (SimCLR.contributing_terms features pids leads) =
  2 + (if 0 <? length (fst (PairingIndex.upper_index pids)) then 1 else 0)
    + (if 0 <? length (fst (PairingIndex.lower_index pids)) then 1 else 0).
Proof.
  unfold SimCLR.contributing_terms.
  destruct (PairingIndex.upper_index pids) as [rows1 cols1].
  destruct (PairingIndex.lower_index pids) as [rows2 cols2].
  cbn [fst].
  destruct (0 <? length rows1); destruct (0 <? length rows2); reflexivity.
Qed.

(** With empty index sets a pair contributes its two diagonal terms. *)
Lemma contributing_terms_empty_index (features : tensor3 T)
      (pids : list string) (leads : nat * nat) :
  PairingIndex.upper_index pids = ([], []) ->
  PairingIndex.lower_index pids = ([], []) ->
  SimCLR.contributing_terms features pids leads =
  let e := exp2 (SimCLR.argument features (fst leads) (snd leads)) in
  [SimCLR.nll (diag e) (sum_dim1 e); SimCLR.nll (diag e) (sum_dim0 e)].
Proof.
  intros HU HL. unfold SimCLR.contributing_terms. rewrite HU, HL.
  reflexivity.
Qed.

Lemma last_term_count_last_pair (features : tensor3 T) (pids : list string) :
  2 <= dim1 features ->
  SimCLR.last_term_count features pids =
  length (SimCLR.contributing_terms features pids
            (dim1 features - 2, dim1 features - 1)).
Proof.
  intros HV. unfold SimCLR.last_term_count.
  destruct (view_combinations_last (dim1 features) HV) as [l ->].
  rewrite map_app. cbn [map]. now rewrite last_last.
Qed.

(** The entries of the argument of the exponential. *)
Lemma argument_entry (features : tensor3 T) (lead1 lead2 i j : nat) :
  at2 (SimCLR.argument features lead1 lead2) i j =
  SimCLR.scaled_cosine (SimCLR.embed features i lead1)
                       (SimCLR.embed features j lead2)
                       (lit (1 # 10)).
Proof. reflexivity. Qed.

(** What [contrastive_loss] returns, for at least two views. *)
Lemma contrastive_loss_returns (self : SimCLR.t) (features : tensor3 T)
      (pids : list string) :
  2 <= dim1 features ->
  length pids <= dim0 features ->
  SimCLR.contrastive_loss self features pids =
  inr (SimCLR.spec_loss features pids,
       exp2 (SimCLR.argument features (dim1 features - 2) (dim1 features - 1)),
       repeat (lit 1) (dim0 features)).
Proof.
  intros HV Hlen. unfold SimCLR.contrastive_loss.
  rewrite contrastive_loss_locals_total by assumption.
  cbn [bind SimCLR.loss_terms SimCLR.sim_matrix_exp SimCLR.loss
       SimCLR.ncombinations].
  rewrite diag_ones_like.
  cbn [nrows ncols exp2 SimCLR.argument div2 mm select_view].
  rewrite Nat.min_id. reflexivity.
Qed.

(** Whenever [contrastive_loss] returns, there are at least two views
    and it returns these values; with fewer views line 148 raises. *)
Lemma contrastive_loss_sound (self : SimCLR.t) (features : tensor3 T)
      (pids : list string) (r : T * tensor2 T * list T) :
  SimCLR.contrastive_loss self features pids = inr r ->
  2 <= dim1 features /\
  r = (SimCLR.spec_loss features pids,
       exp2 (SimCLR.argument features (dim1 features - 2) (dim1 features - 1)),
       repeat (lit 1) (dim0 features)).
Proof.
  unfold SimCLR.contrastive_loss.
  destruct (SimCLR.contrastive_loss_locals self features pids) as [?|st] eqn:E;
    [discriminate|].
  apply contrastive_loss_locals_sound in E. cbn [bind].
  destruct (le_lt_dec 2 (dim1 features)) as [HV|HV].
  - rewrite loop_final_locals in E by exact HV. subst st.
    cbn [SimCLR.loss_terms SimCLR.sim_matrix_exp SimCLR.loss
         SimCLR.ncombinations].
    rewrite diag_ones_like.
    cbn [nrows ncols exp2 SimCLR.argument div2 mm select_view].
    rewrite Nat.min_id. intros R. injection R as <-. auto.
  - assert (Hnil : SimCLR.view_combinations (dim1 features) = []).
    { destruct (dim1 features) as [|[|n]]; [reflexivity | reflexivity | lia]. }
    rewrite Hnil in E. cbn [fold_left] in E. subst st.
    cbn [SimCLR.loss_terms]. discriminate.
Qed.

(** C2: with at least two views, [contrastive_loss] returns the
    accumulated sum of the contributing terms divided by (the term count
    of the last view pair times the number of view pairs): it returns
    when there are no more identities than batch rows, and whenever it
    returns the loss is this quotient. *)
Theorem contrastive_loss_normalization (self : SimCLR.t)
        (features : tensor3 T) (pids : list string) :
  (2 <= dim1 features ->
   length pids <= dim0 features ->
   exists m v,
     SimCLR.contrastive_loss self features pids =
     inr (tdiv (SimCLR.accumulated_sum features pids)
               (of_nat (SimCLR.last_term_count features pids
                        * length (SimCLR.view_combinations (dim1 features)))),
          m, v)) /\
  (forall l m v,
     SimCLR.contrastive_loss self features pids = inr (l, m, v) ->
     l = tdiv (SimCLR.accumulated_sum features pids)
              (of_nat (SimCLR.last_term_count features pids
                       * length (SimCLR.view_combinations (dim1 features))))).
Proof.
  split.
  - intros HV Hlen.
    rewrite contrastive_loss_returns by assumption.
    eexists. eexists. reflexivity.
  - intros l m v E. apply contrastive_loss_sound in E.
    destruct E as [_ E]. now injection E as -> _ _.
Qed.

(** C10: with at least two views, the second value returned is the
    exponentiated similarity matrix of the last view pair,
    [(nviews - 2, nviews - 1)], and the third is the one-dimensional
    tensor of [batch_size] ones. *)
Theorem contrastive_loss_diagnostics (self : SimCLR.t)
        (features : tensor3 T) (pids : list string) :
  (2 <= dim1 features ->
   length pids <= dim0 features ->
   last (SimCLR.view_combinations (dim1 features)) (0, 0) =
     (dim1 features - 2, dim1 features - 1) /\
   exists l,
     SimCLR.contrastive_loss self features pids =
     inr (l,
          exp2 (SimCLR.argument features (dim1 features - 2) (dim1 features - 1)),
          repeat (lit 1) (dim0 features))) /\
  (forall l m v,
     SimCLR.contrastive_loss self features pids = inr (l, m, v) ->
     m = exp2 (SimCLR.argument features (dim1 features - 2) (dim1 features - 1))
     /\ v = repeat (lit 1) (dim0 features)).
Proof.
  split.
  - intros HV Hlen. split.
    + destruct (view_combinations_last (dim1 features) HV) as [l ->].
      apply last_last.
    + rewrite contrastive_loss_returns by assumption.
      eexists. reflexivity.
  - intros l m v E. apply contrastive_loss_sound in E.
    destruct E as [_ E]. injection E as _ -> ->. auto.
Qed.

(** C4: the argument of the exponential at [(i, j)] is the dot product
    of row [i] of view [lead1] and row [j] of view [lead2] over (the
    product of their norms times 0.1); the entries of the matrix
    [contrastive_loss] returns are the exponentials of these numbers,
    whatever temperature the object was configured with. *)
Theorem similarity_uses_fixed_temperature (self : SimCLR.t)
        (features : tensor3 T) (pids : list string) :
  (forall lead1 lead2 i j,
      at2 (SimCLR.argument features lead1 lead2) i j =
      SimCLR.scaled_cosine (SimCLR.embed features i lead1)
                           (SimCLR.embed features j lead2)
                           (lit (1 # 10))) /\
  (2 <= dim1 features ->
   length pids <= dim0 features ->
   exists l m v,
     SimCLR.contrastive_loss self features pids = inr (l, m, v) /\
     nrows m = dim0 features /\ ncols m = dim0 features /\
     forall i j,
       at2 m i j =
       texp (SimCLR.scaled_cosine
               (SimCLR.embed features i (dim1 features - 2))
               (SimCLR.embed features j (dim1 features - 1))
               (lit (1 # 10)))).
Proof.
  split.
  - intros lead1 lead2 i j. apply argument_entry.
  - intros HV Hlen.
    rewrite contrastive_loss_returns by assumption.
    eexists. eexists. eexists. split; [reflexivity|].
    split; [reflexivity|]. split; [reflexivity|].
    intros i j. cbn [at2 exp2]. now rewrite argument_entry.
Qed.

End LossTheorems.

Lemma contrastive_loss_normalization_witness :
  exists m v,
    SimCLR.contrastive_loss XReal.sample_self
      (XReal.const_features 2 3 1 (Some 1%R)) ["p1"; "p1"]%string =
    inr (Torch.tdiv
           (SimCLR.accumulated_sum (XReal.const_features 2 3 1 (Some 1%R))
                                   ["p1"; "p1"]%string)
           (Torch.of_nat
              (SimCLR.last_term_count (XReal.const_features 2 3 1 (Some 1%R))
                                      ["p1"; "p1"]%string
               * length (SimCLR.view_combinations 3))),
         m, v).
Proof.
  refine (proj1 (contrastive_loss_normalization XReal.sample_self
                   (XReal.const_features 2 3 1 (Some 1%R))
                   ["p1"; "p1"]%string) _ _).
  - cbn. lia.
  - cbn. lia.
Defined.

Lemma contrastive_loss_diagnostics_witness :
  exists l,
    SimCLR.contrastive_loss XReal.sample_self
      (XReal.const_features 2 3 1 (Some 1%R)) ["p1"; "p1"]%string =
    inr (l,
         Torch.exp2 (SimCLR.argument (XReal.const_features 2 3 1 (Some 1%R)) 1 2),
         [Some (Q2R 1); Some (Q2R 1)]).
Proof.
  refine (proj2 (proj1 (contrastive_loss_diagnostics XReal.sample_self
                          (XReal.const_features 2 3 1 (Some 1%R))
                          ["p1"; "p1"]%string) _ _)).
  - cbn. lia.
  - cbn. lia.
Defined.

Lemma similarity_uses_fixed_temperature_witness :
  exists l m v,
    SimCLR.contrastive_loss XReal.sample_self
      (XReal.const_features 2 2 1 (Some 1%R)) ["p1"; "p2"]%string
    = inr (l, m, v) /\
    Torch.nrows m = 2 /\ Torch.ncols m = 2.
Proof.
  destruct (proj2 (similarity_uses_fixed_temperature XReal.sample_self
                     (XReal.const_features 2 2 1 (Some 1%R))
                     ["p1"; "p2"]%string))
    as (l & m & v & E & Hr & Hc & _).
  - cbn. lia.
  - cbn. lia.
  - exists l, m, v. auto.
Defined.


(** All-distinct identities without the separator leave both index
    sets empty. *)
Lemma distinct_identities_empty_index (pids : list string) :
  NoDup pids ->
  Forall (fun p => PairingIndex.has_dash p = false) pids ->
  PairingIndex.upper_index pids = ([], []) /\
  PairingIndex.lower_index pids = ([], []).
Proof.
  intros Hnd Hdash.
  assert (Hnone : forall i j,
             ~ In (i, j) (PairingIndex.upper_coords pids ++
                          PairingIndex.lower_coords pids)).
  { intros i j H.
    apply (pairing_index_equal_ids pids Hdash) in H.
    destruct H as (Hne & p & Hi & Hj).
    apply Hne. apply (proj1 (NoDup_nth_error pids) Hnd).
    - apply nth_error_Some. congruence.
    - congruence. }
  assert (Hempty : forall m, (forall i j, ~ In (i, j) (Numpy.nonzero m)) ->
                             Numpy.np_where m = ([], [])).
  { intros m H. unfold Numpy.np_where.
    destruct (Numpy.nonzero m) as [|[i j] l]; [reflexivity|].
    exfalso. apply (H i j). now left. }
  split; apply Hempty; intros i j H; apply (Hnone i j); apply in_or_app.
  - left. unfold PairingIndex.upper_coords, PairingIndex.upper_index.
    now rewrite coords_np_where.
  - right. unfold PairingIndex.lower_coords, PairingIndex.lower_index.
    now rewrite coords_np_where.
Qed.

(** ** The encoder on shapes *)

Section EncoderShapes.
Import Networks.

Lemma block_accepts (training : bool) (c : Conv1d) (b : BatchNorm1d)
      (n c_in l : nat) :
  c_in = in_channels c ->
  kernel_size c <= l ->
  out_channels c = num_features b ->
  (training = true -> n * ((l - kernel_size c) / stride c + 1) <> 1) ->
  block training c b [n; c_in; l] =
  inr [n; out_channels c; (l - kernel_size c) / stride c + 1].
Proof.
  intros -> Hk Hc Hbn. unfold block, conv1d, activation, batch_norm.
  rewrite Nat.eqb_refl. apply Nat.leb_le in Hk. rewrite Hk.
  cbn [andb bind ret]. rewrite Hc, Nat.eqb_refl. cbn [negb].
  destruct training; cbn [andb]; [|reflexivity].
  destruct (Nat.eqb_spec (n * ((l - kernel_size c) / stride c + 1)) 1) as [E|E].
  - exfalso. now apply Hbn.
  - reflexivity.
Qed.

(** The six blocks accept a single-channel input that is long enough,
    and leave 256 channels. *)
Lemma six_blocks_accept (avg tr : bool) (n l : nat) :
  long_enough tr n l ->
  exists l6,
    six_blocks (init false avg tr) [n; 1; l] = inr [n; 256; l6].
Proof.
  intros [Hl Hbn]. unfold six_blocks. cbn [init training conv1 conv2 conv3
    conv4 conv5 conv6 batch_norm1 batch_norm2 batch_norm3 batch_norm4
    batch_norm5 batch_norm6].
  assert (Hone : forall m, tr = true -> 2 <= m \/ n <> 1 -> n * m <> 1).
  { intros m _ H E. apply Nat.eq_mul_1 in E. lia. }
  rewrite block_accepts; cbn [in_channels out_channels kernel_size stride
    num_features bind]; try reflexivity; try lia.
  2:{ intros Ht. apply Hone; auto. left.
      pose proof (Nat.div_le_lower_bound (l - 7) 4 54). lia. }
  rewrite block_accepts; cbn [in_channels out_channels kernel_size stride
    num_features bind]; try reflexivity.
  2:{ pose proof (Nat.div_le_lower_bound (l - 7) 4 54). lia. }
  2:{ intros Ht. apply Hone; auto. left.
      pose proof (Nat.div_le_lower_bound (l - 7) 4 54).
      pose proof (Nat.div_le_lower_bound ((l - 7) / 4 + 1 - 7) 3 16). lia. }
  set (l1 := (l - 7) / 4 + 1).
  assert (H1 : 55 <= l1)
    by (pose proof (Nat.div_le_lower_bound (l - 7) 4 54); lia).
  assert (H1' : tr = true -> n = 1 -> 61 <= l1)
    by (intros Ht Hn; pose proof (Nat.div_le_lower_bound (l - 7) 4 60);
        specialize (Hbn Ht Hn); lia).
  set (l2 := (l1 - 7) / 3 + 1).
  assert (H2 : 17 <= l2)
    by (pose proof (Nat.div_le_lower_bound (l1 - 7) 3 16); lia).
  assert (H2' : tr = true -> n = 1 -> 19 <= l2)
    by (intros Ht Hn; pose proof (Nat.div_le_lower_bound (l1 - 7) 3 18);
        specialize (H1' Ht Hn); lia).
  set (l3 := (l2 - 5) / 2 + 1).
  assert (H3 : 7 <= l3)
    by (pose proof (Nat.div_le_lower_bound (l2 - 5) 2 6); lia).
  assert (H3' : tr = true -> n = 1 -> 8 <= l3)
    by (intros Ht Hn; pose proof (Nat.div_le_lower_bound (l2 - 5) 2 7);
        specialize (H2' Ht Hn); lia).
  rewrite block_accepts; cbn [in_channels out_channels kernel_size stride
    num_features bind]; try reflexivity; try lia.
  2:{ intros Ht. apply Hone; auto. left. fold l3. lia. }
  fold l3.
  rewrite block_accepts; cbn [in_channels out_channels kernel_size stride
    num_features bind]; try reflexivity; try lia.
  2:{ intros Ht. apply Hone; auto. left. rewrite Nat.div_1_r. lia. }
  rewrite !Nat.div_1_r.
  rewrite block_accepts; cbn [in_channels out_channels kernel_size stride
    num_features bind]; try reflexivity; try lia.
  2:{ intros Ht. apply Hone; auto. left. rewrite Nat.div_1_r. lia. }
  rewrite !Nat.div_1_r.
  rewrite block_accepts; cbn [in_channels out_channels kernel_size stride
    num_features bind]; try reflexivity; try lia.
  2:{ intros Ht. apply Hone; auto. rewrite Nat.div_1_r.
      destruct (Nat.eq_dec n 1) as [Hn|Hn]; [left | now right].
      specialize (H3' Ht Hn). lia. }
  eexists. reflexivity.
Qed.

Lemma block_accepted (tr : bool) (c : Conv1d) (b : BatchNorm1d)
      (n c_in l : nat) (s : shape) :
  block tr c b [n; c_in; l] = inr s ->
  kernel_size c <= l /\
  s = [n; out_channels c; (l - kernel_size c) / stride c + 1] /\
  (tr = true -> n * ((l - kernel_size c) / stride c + 1) <> 1).
Proof.
  unfold block, conv1d, activation, batch_norm.
  destruct (c_in =? in_channels c); cbn [andb]; [|discriminate].
  destruct (Nat.leb_spec (kernel_size c) l); [|discriminate].
  cbn [bind ret].
  destruct (negb (out_channels c =? num_features b)); [discriminate|].
  destruct tr; cbn [andb].
  - destruct (Nat.eqb_spec (n * ((l - kernel_size c) / stride c + 1)) 1);
      [discriminate|].
    intros E. injection E as <-. auto.
  - intros E. injection E as <-. repeat split; auto. discriminate.
Qed.

(** The six blocks accept no other single-channel input: [long_enough]
    is exactly their condition. *)
Lemma six_blocks_accepted (avg tr : bool) (n l : nat) (s : shape) :
  six_blocks (init false avg tr) [n; 1; l] = inr s ->
  long_enough tr n l.
Proof.
  unfold six_blocks. cbn [init training conv1 conv2 conv3 conv4 conv5 conv6
    batch_norm1 batch_norm2 batch_norm3 batch_norm4 batch_norm5 batch_norm6].
  intros E.
  repeat match type of E with
  | bind ?m _ = inr _ =>
      let h := fresh "h" in
      let Eh := fresh "Eh" in
      destruct m as [?|h] eqn:Eh; cbn [bind] in E; [discriminate|];
      apply block_accepted in Eh;
      cbn [in_channels out_channels kernel_size stride] in Eh;
      destruct Eh as (? & -> & ?)
  end.
  apply block_accepted in E.
  cbn [in_channels out_channels kernel_size stride] in E.
  destruct E as (Hk6 & _ & B6).
  rewrite !Nat.div_1_r in *.
  pose proof (Nat.Div0.mul_div_le (l - 7) 4).
  pose proof (Nat.Div0.mul_div_le ((l - 7) / 4 + 1 - 7) 3).
  pose proof (Nat.Div0.mul_div_le (((l - 7) / 4 + 1 - 7) / 3 + 1 - 5) 2).
  split; [lia|].
  intros Ht ->. specialize (B6 Ht). lia.
Qed.

Lemma for_each_views (self : BaselineConvNet) (batch_size l : nat)
      (h : shape) (views : list nat) (l6 : nat) :
  six_blocks self [batch_size; 1; l] = inr [batch_size; 256; l6] ->
  SimCLR.for_each (view_body self batch_size l) views h = inr h.
Proof.
  intros E. induction views as [|i views IH]; [reflexivity|].
  cbn [SimCLR.for_each]. unfold view_body at 1. rewrite E.
  cbn [bind avg_pool flatten fold_right ret].
  match goal with
  | |- context [list_eq_dec ?d ?a ?b] =>
      destruct (list_eq_dec d a b) as [_|Hne]
  end.
  - exact IH.
  - exfalso. apply Hne. reflexivity.
Qed.

(** C8: in multi-view mode, on an input of shape
    [(batch_size, num_views, sequence_length)] that is long enough for
    the six blocks, [forward] returns a tensor of shape
    [(batch_size, num_views, 128)], or [(batch_size, 1, 128)] when
    [avg_embeddings] is set. *)
Theorem forward_multi_view_shape (avg tr : bool)
        (batch_size num_views sequence_length : nat) :
  long_enough tr batch_size sequence_length ->
  forward (init false avg tr) (batch_size, num_views, sequence_length)
  = inr [batch_size; if avg then 1 else num_views; 128].
Proof.
  intros Hlong.
  destruct (six_blocks_accept avg tr _ _ Hlong) as [l6 E].
  unfold forward. cbn [classification init].
  rewrite (for_each_views _ _ _ _ _ l6 E).
  cbn [bind avg_embeddings finalLayer].
  destruct avg; reflexivity.
Qed.

Lemma forward_multi_view_shape_witness :
  forward (init false false true) (4, 8, 2500) = inr [4; 8; 128].
Proof.
  apply (forward_multi_view_shape false true 4 8 2500).
  split; [lia | intros _ H; discriminate H].
Defined.

End EncoderShapes.

(** ** The training loop *)

Section TrainingLoop.
Import SimCLR.
Context {B : Type}.
Variable self : SimCLR.t.
Variable train_loader : list B.

Lemma iterations_trace (e : Z) (l : list B) (st : train_state) :
  exists iters,
    trace (fold_left (iteration e) l st) = trace st ++ iters /\
    (forall ev, In ev iters -> exists k, ev = OptimizerStep e k) /\
    metrics_bound (fold_left (iteration e) l st) =
      (metrics_bound st || negb (length l =? 0)).
Proof.
  revert st. induction l as [|b l IH]; intros st.
  - exists []. cbn. rewrite app_nil_r, orb_false_r. repeat split; tauto.
  - cbn [fold_left]. destruct (IH (iteration e st b)) as (iters & Ht & Hi & Hm).
    exists (OptimizerStep e (n_iter st) :: iters).
    rewrite Ht, Hm. cbn. rewrite <- app_assoc. cbn. rewrite orb_true_r.
    repeat split.
    intros ev [<-|H]; eauto.
Qed.

Lemma run_epoch_trace (st : train_state) (e : Z) :
  exists iters ckpt,
    trace (fst (run_epoch self train_loader st e)) =
      trace st ++ EpochStart e :: iters ++ gate self e ++ ckpt /\
    (forall ev, In ev iters -> exists k, ev = OptimizerStep e k) /\
    (ckpt = [] \/ ckpt = [SaveCheckpoint e]).
Proof.
  unfold run_epoch, gate.
  destruct (iterations_trace e train_loader (emit (EpochStart e) st))
    as (iters & Ht & Hi & _).
  exists iters.
  set (st1 := fold_left (iteration e) train_loader (emit (EpochStart e) st)) in *.
  assert (Hshape : forall st2,
             st2 = (if (warmup_epochs self <=? e)%Z
                    then emit (SchedulerStep e) st1 else st1) ->
             trace st2 = trace st ++ EpochStart e :: iters ++
                         (if (warmup_epochs self <=? e)%Z
                          then [SchedulerStep e] else [])).
  { intros st2 ->. destruct (warmup_epochs self <=? e)%Z; cbn; rewrite Ht; cbn;
      rewrite <- !app_assoc; cbn; rewrite ?app_nil_r; reflexivity. }
  specialize (Hshape _ eq_refl).
  set (st2 := if (warmup_epochs self <=? e)%Z
              then emit (SchedulerStep e) st1 else st1) in *.
  destruct (negb (metrics_bound st2)).
  { exists []. cbn [fst]. rewrite Hshape, !app_nil_r. auto. }
  destruct (checkpoint_freq self =? 0)%Z.
  { exists []. cbn [fst]. rewrite Hshape, !app_nil_r. auto. }
  destruct ((e mod checkpoint_freq self =? 0) || (e + 1 =? epochs self))%Z.
  - exists [SaveCheckpoint e]. cbn [fst emit trace]. rewrite Hshape.
    rewrite <- !app_assoc. cbn. rewrite <- !app_assoc. auto.
  - exists []. cbn [fst]. rewrite Hshape, !app_nil_r. auto.
Qed.

Lemma scheduler_steps_app (e : Z) (l r : list event) :
  scheduler_steps e (l ++ r) = scheduler_steps e l + scheduler_steps e r.
Proof.
  unfold scheduler_steps. now rewrite filter_app, length_app.
Qed.

Lemma scheduler_steps_other_epochs (e : Z) (l : list event) :
  (forall ev, In ev l -> event_epoch ev <> e) ->
  scheduler_steps e l = 0.
Proof.
  unfold scheduler_steps. induction l as [|ev l IH]; intros H; [reflexivity|].
  cbn [filter]. destruct (is_scheduler_step e ev) eqn:E.
  - exfalso. apply (H ev (or_introl eq_refl)).
    destruct ev; try discriminate. cbn in *. now apply Z.eqb_eq.
  - apply IH. intros ev' H'. apply H. now right.
Qed.

Lemma scheduler_steps_no_step (e : Z) (l : list event) :
  (forall ev, In ev l -> forall e', ev <> SchedulerStep e') ->
  scheduler_steps e l = 0.
Proof.
  unfold scheduler_steps. induction l as [|ev l IH]; intros H; [reflexivity|].
  cbn [filter]. destruct (is_scheduler_step e ev) eqn:E.
  - exfalso. destruct ev; try discriminate.
    eapply (H _ (or_introl eq_refl)). reflexivity.
  - apply IH. intros ev' H'. apply H. now right.
Qed.

Lemma scheduler_steps_gate (e : Z) :
  scheduler_steps e (gate self e) =
  if (warmup_epochs self <=? e)%Z then 1 else 0.
Proof.
  unfold gate, scheduler_steps.
  destruct (warmup_epochs self <=? e)%Z; cbn; [|reflexivity].
  now rewrite Z.eqb_refl.
Qed.

(** What follows an element of the second part of a list that does not
    occur in the first part lies in the second part. *)
Lemma after_in_second_part {A : Type} (a b l post : list A) (x y : A) :
  a ++ b = l ++ x :: post ->
  ~ In x a ->
  In y post -> In y b.
Proof.
  revert l. induction a as [|h a IH]; intros l E Hx Hy.
  - cbn in E. subst b. apply in_or_app. right. now right.
  - destruct l as [|h' l]; cbn in E; injection E as -> E.
    + exfalso. apply Hx. now left.
    + apply (IH l E); [|exact Hy]. intros H. apply Hx. now right.
Qed.

(** One epoch keeps the invariant. *)
Lemma run_epoch_invariant (st : train_state) (e : Z) (done : list Z) :
  ~ In e done ->
  scheduler_invariant self done (trace st) ->
  scheduler_invariant self (e :: done)
    (trace (fst (run_epoch self train_loader st e))).
Proof.
  intros Hnew (Ha & Hb & Hc).
  set (tr' := trace (fst (run_epoch self train_loader st e))).
  destruct (run_epoch_trace st e) as (iters & ckpt & Ht & Hi & Hck).
  fold tr' in Ht. unfold scheduler_invariant.
  assert (Hseg : forall ev,
             In ev (EpochStart e :: iters ++ gate self e ++ ckpt) ->
             event_epoch ev = e).
  { intros ev [<-|H]; [reflexivity|].
    apply in_app_or in H. destruct H as [H|H].
    - destruct (Hi ev H) as [k ->]. reflexivity.
    - apply in_app_or in H. destruct H as [H|H].
      + unfold gate in H. destruct (warmup_epochs self <=? e)%Z;
          [destruct H as [<-|[]]; reflexivity | destruct H].
      + destruct Hck as [-> | ->]; [destruct H|].
        destruct H as [<-|[]]. reflexivity. }
  assert (Hold : forall ev, In ev (trace st) -> event_epoch ev <> e).
  { intros ev H E. apply Hnew. rewrite <- E. now apply Ha. }
  repeat split.
  - intros ev H. rewrite Ht in H. apply in_app_or in H. destruct H as [H|H].
    + right. now apply Ha.
    + left. symmetry. now apply Hseg.
  - rewrite Ht. destruct H as [<-|H].
    + apply in_or_app. right. now left.
    + apply in_or_app. left. now apply Hb.
  - rewrite Ht, scheduler_steps_app. destruct H as [<-|H].
    + rewrite (scheduler_steps_other_epochs e (trace st) Hold).
      change (EpochStart e :: iters ++ gate self e ++ ckpt)
        with ((EpochStart e :: iters) ++ gate self e ++ ckpt).
      rewrite !scheduler_steps_app, scheduler_steps_gate.
      rewrite (scheduler_steps_no_step e (EpochStart e :: iters)).
      2:{ intros ev [<-|H] e'; [discriminate|].
          destruct (Hi ev H) as [k ->]. discriminate. }
      rewrite (scheduler_steps_no_step e ckpt).
      2:{ intros ev H e'. destruct Hck as [-> | ->]; [destruct H|].
          destruct H as [<-|[]]. discriminate. }
      cbn. lia.
    + destruct (Hb e' H) as [_ ->].
      rewrite scheduler_steps_other_epochs; [lia|].
      intros ev Hev E. apply Hseg in Hev. apply Hnew. congruence.
  - intros e' k pre post E Hopt. rewrite Ht in E.
    apply app_eq_app in E. destruct E as (l & [[E1 E2] | [E1 E2]]).
    + destruct l as [|x l]; cbn in E2.
      * discriminate E2.
      * injection E2 as <- ->.
        apply in_app_or in Hopt. destruct Hopt as [Hopt|Hopt].
        -- exact (Hc e' k pre l E1 Hopt).
        -- apply Hseg in Hopt. cbn in Hopt. subst e'.
           apply (Hold (SchedulerStep e)); [|reflexivity].
           rewrite E1. apply in_or_app. right. now left.
    + change (EpochStart e :: iters ++ gate self e ++ ckpt)
        with ((EpochStart e :: iters) ++ gate self e ++ ckpt) in E2.
      assert (Hin : In (OptimizerStep e' k) (gate self e ++ ckpt)).
      { apply (after_in_second_part _ _ _ _ _ _ E2); [|exact Hopt].
        intros [H|H]; [discriminate|].
        destruct (Hi _ H) as [k' H']. discriminate. }
      apply in_app_or in Hin. destruct Hin as [H|H].
      * unfold gate in H. destruct (warmup_epochs self <=? e)%Z;
          [destruct H as [H|[]]; discriminate | destruct H].
      * destruct Hck as [-> | ->]; [destruct H|].
        destruct H as [H|[]]. discriminate.
Qed.

Lemma run_epoch_no_error (st : train_state) (e : Z) :
  train_loader <> [] ->
  checkpoint_freq self <> 0%Z ->
  snd (run_epoch self train_loader st e) = None.
Proof.
  intros Hl Hf. unfold run_epoch.
  destruct (iterations_trace e train_loader (emit (EpochStart e) st))
    as (iters & _ & _ & Hm).
  assert (Hb : metrics_bound
                 (if (warmup_epochs self <=? e)%Z
                  then emit (SchedulerStep e)
                         (fold_left (iteration e) train_loader
                                    (emit (EpochStart e) st))
                  else fold_left (iteration e) train_loader
                                 (emit (EpochStart e) st)) = true).
  { destruct (warmup_epochs self <=? e)%Z; cbn [emit metrics_bound];
      rewrite Hm; destruct train_loader; try congruence;
      cbn; apply orb_true_r. }
  rewrite Hb. cbn [negb].
  destruct (Z.eqb_spec (checkpoint_freq self) 0); [contradiction|].
  destruct ((e mod checkpoint_freq self =? 0) || (e + 1 =? epochs self))%Z;
    reflexivity.
Qed.

(** The loop over epochs keeps the invariant; [started] lists the
    epochs it enters, all of them unless an exception ends the run. *)
Lemma run_epochs_invariant (es : list Z) (st : train_state) (done : list Z) :
  NoDup es ->
  (forall e, In e es -> ~ In e done) ->
  scheduler_invariant self done (trace st) ->
  exists started,
    (forall e, In e started -> In e es) /\
    scheduler_invariant self (started ++ done)
      (trace (fst (run_epochs self train_loader es st))) /\
    (snd (run_epochs self train_loader es st) = None ->
     forall e, In e es -> In e started).
Proof.
  revert st done. induction es as [|e es IH]; intros st done Hnd Hdis Hinv.
  - exists []. cbn [app run_epochs fst snd]. split; [intros e []|].
    split; [exact Hinv | intros _ e []].
  - cbn [run_epochs].
    pose proof (run_epoch_invariant st e done
                  (Hdis e (or_introl eq_refl)) Hinv) as Hinv'.
    destruct (run_epoch self train_loader st e) as [st' [err|]] eqn:E;
      cbn [fst snd] in *.
    + exists [e]. split; [|split].
      * intros e' [<-|[]]. now left.
      * exact Hinv'.
      * discriminate.
    + inversion Hnd as [|? ? Hnotin Hnd']; subst.
      destruct (IH st' (e :: done) Hnd') as (started & Hsub & Hinv'' & Hall).
      { intros e' He' [<-|H]; [contradiction|]. apply (Hdis e'); auto. now right. }
      { exact Hinv'. }
      exists (started ++ [e]). split; [|split].
      * intros e' H. apply in_app_or in H. destruct H as [H|[<-|[]]];
          [right; auto | now left].
      * rewrite <- app_assoc. exact Hinv''.
      * intros Hnone e' [<-|H]; apply in_or_app; [right; now left | left; auto].
Qed.

Lemma run_epochs_no_error (es : list Z) (st : train_state) :
  train_loader <> [] ->
  checkpoint_freq self <> 0%Z ->
  snd (run_epochs self train_loader es st) = None.
Proof.
  intros Hl Hf. revert st. induction es as [|e es IH]; intros st;
    [reflexivity|].
  cbn [run_epochs].
  pose proof (run_epoch_no_error st e Hl Hf) as H.
  destruct (run_epoch self train_loader st e) as [st' [err|]];
    cbn in H; [discriminate | apply IH].
Qed.

Lemma In_range (lo hi e : Z) :
  In e (range lo hi) <-> (lo <= e < hi)%Z.
Proof.
  unfold range. rewrite in_map_iff. split.
  - intros (k & <- & H). apply in_seq in H. lia.
  - intros H. exists (Z.to_nat (e - lo)). split; [lia|].
    apply in_seq. lia.
Qed.

Lemma NoDup_range (lo hi : Z) : NoDup (range lo hi).
Proof.
  unfold range. apply Finite.Injective_map_NoDup.
  - intros a b H. lia.
  - apply seq_NoDup.
Qed.


End TrainingLoop.


(** ** Finiteness of the loss in exact arithmetic *)

Section Finiteness.
Import Torch XReal.
Local Open Scope R_scope.

Lemma positive_finite (a : xreal) : positive a -> finite a.
Proof. intros (x & -> & _). now exists x. Qed.

Lemma positive_nonneg (a : xreal) : positive a -> nonneg a.
Proof. intros (x & -> & H). exists x. split; [reflexivity | lra]. Qed.

Lemma finite_tadd (a b : xreal) : finite a -> finite b -> finite (tadd a b).
Proof. intros [x ->] [y ->]. now exists (x + y). Qed.

Lemma finite_tmul (a b : xreal) : finite a -> finite b -> finite (tmul a b).
Proof. intros [x ->] [y ->]. now exists (x * y). Qed.

Lemma finite_tneg (a : xreal) : finite a -> finite (tneg a).
Proof. intros [x ->]. now exists (- x). Qed.

Lemma positive_tmul (a b : xreal) :
  positive a -> positive b -> positive (tmul a b).
Proof.
  intros (x & -> & Hx) (y & -> & Hy). exists (x * y).
  split; [reflexivity | now apply Rmult_lt_0_compat].
Qed.

Lemma finite_tdiv (a b : xreal) : finite a -> positive b -> finite (tdiv a b).
Proof.
  intros [x ->] (y & -> & Hy). cbn. unfold xdiv.
  destruct (Req_dec_T y 0) as [E|_]; [lra|]. now exists (x / y).
Qed.

Lemma positive_tdiv (a b : xreal) :
  positive a -> positive b -> positive (tdiv a b).
Proof.
  intros (x & -> & Hx) (y & -> & Hy). cbn. unfold xdiv.
  destruct (Req_dec_T y 0) as [E|_]; [lra|]. exists (x / y).
  split; [reflexivity | now apply Rdiv_lt_0_compat].
Qed.

Lemma positive_texp (a : xreal) : finite a -> positive (texp a).
Proof.
  intros [x ->]. exists (exp x). split; [reflexivity | apply exp_pos].
Qed.

Lemma finite_tlog (a : xreal) : positive a -> finite (tlog a).
Proof.
  intros (x & -> & Hx). cbn. unfold xlog.
  destruct (Rlt_dec 0 x) as [_|N]; [|contradiction]. now exists (ln x).
Qed.

Lemma positive_tsqrt (a : xreal) : positive a -> positive (tsqrt a).
Proof.
  intros (x & -> & Hx). cbn. unfold xsqrt.
  destruct (Rle_dec 0 x) as [_|N]; [|lra]. exists (sqrt x).
  split; [reflexivity | now apply sqrt_lt_R0].
Qed.

Lemma positive_tenth : positive (lit (1 # 10)).
Proof.
  exists (Q2R (1 # 10)). split; [reflexivity|].
  unfold Q2R. cbn. lra.
Qed.

Lemma positive_of_nat (n : nat) : (1 <= n)%nat -> positive (of_nat n).
Proof.
  intros Hn. unfold of_nat. exists (Q2R (inject_Z (Z.of_nat n))).
  split; [reflexivity|]. unfold Q2R, inject_Z. cbn.
  rewrite Rinv_1, Rmult_1_r. apply IZR_lt. lia.
Qed.

(** Sums. *)
Lemma fold_left_finite (xs : list xreal) (a : xreal) :
  finite a -> Forall finite xs -> finite (fold_left tadd xs a).
Proof.
  revert a. induction xs as [|x xs IH]; intros a Ha Hxs; [exact Ha|].
  inversion Hxs; subst. cbn [fold_left]. apply IH; [|assumption].
  now apply finite_tadd.
Qed.

Lemma finite_tsum (l : list xreal) : Forall finite l -> finite (tsum l).
Proof.
  destruct l as [|x xs]; intros H.
  - now exists (Q2R 0).
  - inversion H; subst. now apply fold_left_finite.
Qed.

Lemma fold_left_positive (xs : list xreal) (a : xreal) :
  positive a -> Forall nonneg xs -> positive (fold_left tadd xs a).
Proof.
  revert a. induction xs as [|x xs IH]; intros a Ha Hxs; [exact Ha|].
  inversion Hxs as [|? ? Hx Hxs']; subst. cbn [fold_left].
  apply IH; [|assumption].
  destruct Ha as (u & -> & Hu). destruct Hx as (v & -> & Hv).
  exists (u + v). split; [reflexivity | lra].
Qed.

Lemma fold_left_positive_later (xs : list xreal) (a : xreal) :
  nonneg a -> Forall nonneg xs -> Exists positive xs ->
  positive (fold_left tadd xs a).
Proof.
  revert a. induction xs as [|x xs IH]; intros a Ha Hxs Hex.
  - inversion Hex.
  - inversion Hxs as [|? ? Hx Hxs']; subst. cbn [fold_left].
    destruct Ha as (u & -> & Hu).
    inversion Hex as [? ? Hp | ? ? Hp]; subst.
    + apply fold_left_positive; [|assumption].
      destruct Hp as (v & -> & Hv). exists (u + v).
      split; [reflexivity | lra].
    + apply IH; try assumption.
      destruct Hx as (v & -> & Hv). exists (u + v).
      split; [reflexivity | lra].
Qed.

Lemma positive_tsum (l : list xreal) :
  l <> [] -> Forall positive l -> positive (tsum l).
Proof.
  destruct l as [|x xs]; intros Hne H; [congruence|].
  inversion H; subst. cbn [tsum]. apply fold_left_positive; [assumption|].
  eapply Forall_impl; [|eassumption]. apply positive_nonneg.
Qed.

Lemma positive_sum_squares (l : list xreal) :
  Forall finite l ->
  Exists (fun x => x <> Some 0) l ->
  positive (tsum (map (fun x => tmul x x) l)).
Proof.
  intros Hfin Hex.
  assert (Hnn : Forall nonneg (map (fun x => tmul x x) l)).
  { apply Forall_map. eapply Forall_impl; [|exact Hfin].
    intros a [x ->]. exists (x * x). split; [reflexivity|].
    apply Rle_0_sqr. }
  assert (Hpos : Exists positive (map (fun x => tmul x x) l)).
  { apply Exists_exists in Hex. destruct Hex as (a & Hin & Hne).
    apply Exists_exists. exists (tmul a a).
    split; [exact (in_map (fun x => tmul x x) l a Hin)|].
    rewrite Forall_forall in Hfin. destruct (Hfin a Hin) as [x ->].
    exists (x * x). split; [reflexivity|].
    assert (x <> 0) by (intros ->; now apply Hne).
    now apply Rsqr_pos_lt. }
  destruct (map (fun x => tmul x x) l) as [|y ys]; [inversion Hpos|].
  cbn [tsum]. inversion Hnn; subst.
  inversion Hpos as [? ? Hp | ? ? Hp]; subst.
  - apply fold_left_positive; assumption.
  - apply fold_left_positive_later; assumption.
Qed.

Lemma Forall_zip_with {A : Type} (P Q R : A -> Prop) (f : A -> A -> A)
      (a b : list A) :
  (forall x y, P x -> Q y -> R (f x y)) ->
  Forall P a -> Forall Q b -> Forall R (Numpy.zip_with f a b).
Proof.
  intros Hf Ha. revert b. induction Ha as [|x a Hx Ha IH]; intros b Hb.
  - constructor.
  - destruct Hb as [|y b Hy Hb]; cbn; constructor; auto.
Qed.

Lemma length_zip_with {A : Type} (f : A -> A -> A) (a b : list A) :
  length (Numpy.zip_with f a b) = Nat.min (length a) (length b).
Proof.
  revert b. induction a as [|x a IH]; intros [|y b]; cbn; auto.
Qed.

Lemma finite_mean (l : list xreal) :
  l <> [] -> Forall finite l -> finite (mean l).
Proof.
  intros Hne Hfin. unfold mean. apply finite_tdiv.
  - now apply finite_tsum.
  - apply positive_of_nat. destruct l; [congruence | cbn; lia].
Qed.

(** [-mean(log(elements / sums))] is finite for positive operands. *)
Lemma finite_nll (elements sums : list xreal) :
  elements <> [] -> length sums = length elements ->
  Forall positive elements -> Forall positive sums ->
  finite (SimCLR.nll elements sums).
Proof.
  intros Hne Hlen He Hs. unfold SimCLR.nll, log1, div1.
  apply finite_tneg, finite_mean.
  - intros E. apply (f_equal (@length _)) in E.
    rewrite length_map, length_zip_with, Hlen, Nat.min_id in E.
    destruct elements; [congruence | discriminate].
  - apply Forall_map.
    eapply Forall_impl; [apply finite_tlog|].
    apply (Forall_zip_with positive positive positive); auto.
    apply positive_tdiv.
Qed.

(** Embeddings and the exponentiated similarity matrix. *)
Lemma embed_finite_nonzero (features : tensor3 xreal) (i v : nat) :
  finite_nonzero features ->
  (i < dim0 features)%nat -> (v < dim1 features)%nat ->
  Forall finite (SimCLR.embed features i v) /\
  Exists (fun x => x <> Some 0) (SimCLR.embed features i v).
Proof.
  intros H Hi Hv. destruct (H i v Hi Hv) as [Hfin (k & Hk & Hnz)].
  unfold SimCLR.embed. split.
  - apply Forall_map, Forall_forall. intros k' Hk'.
    apply Hfin. apply in_seq in Hk'. lia.
  - apply Exists_exists. exists (at3 features i v k). split; [|exact Hnz].
    apply (in_map (fun k => at3 features i v k)). apply in_seq. lia.
Qed.

Lemma positive_norm2 (l : list xreal) :
  Forall finite l -> Exists (fun x => x <> Some 0) l -> positive (norm2 l).
Proof.
  intros Hf He. unfold norm2. now apply positive_tsqrt, positive_sum_squares.
Qed.

Lemma finite_dot (a b : list xreal) :
  Forall finite a -> Forall finite b -> finite (dot a b).
Proof.
  intros Ha Hb. unfold dot. apply finite_tsum.
  apply (Forall_zip_with finite finite finite); auto. apply finite_tmul.
Qed.

Lemma positive_sim_entry (features : tensor3 xreal) (a b i j : nat) :
  finite_nonzero features ->
  (a < dim1 features)%nat -> (b < dim1 features)%nat ->
  (i < dim0 features)%nat -> (j < dim0 features)%nat ->
  positive (at2 (exp2 (SimCLR.argument features a b)) i j).
Proof.
  intros H Ha Hb Hi Hj. cbn [at2 exp2]. rewrite argument_entry.
  destruct (embed_finite_nonzero features i a H Hi Ha) as [F1 N1].
  destruct (embed_finite_nonzero features j b H Hj Hb) as [F2 N2].
  apply positive_texp. unfold SimCLR.scaled_cosine. apply finite_tdiv.
  - now apply finite_dot.
  - apply positive_tmul; [|apply positive_tenth].
    apply positive_tmul; now apply positive_norm2.
Qed.

Section OnePair.
Variable features : tensor3 xreal.
Variables a b : nat.
Hypothesis Hfeatures : finite_nonzero features.
Hypothesis Hbatch : (1 <= dim0 features)%nat.
Hypothesis Ha : (a < dim1 features)%nat.
Hypothesis Hb : (b < dim1 features)%nat.

Local Abbreviation e := (exp2 (SimCLR.argument features a b)).

Lemma length_diag_e : length (diag e) = dim0 features.
Proof.
  unfold diag. rewrite length_map, length_seq. cbn. apply Nat.min_id.
Qed.

Lemma positive_diag_e : Forall positive (diag e).
Proof.
  unfold diag. apply Forall_map, Forall_forall. intros i Hi.
  apply in_seq in Hi. cbn in Hi. rewrite Nat.min_id in Hi.
  apply positive_sim_entry; auto; lia.
Qed.

Lemma positive_sum_dim1_e : Forall positive (sum_dim1 e).
Proof.
  unfold sum_dim1. apply Forall_map, Forall_forall. intros i Hi.
  apply in_seq in Hi. cbn in Hi. apply positive_tsum.
  - unfold row. cbn. destruct (dim0 features); [lia | discriminate].
  - unfold row. apply Forall_map, Forall_forall. intros j Hj.
    apply in_seq in Hj. cbn in Hj. apply positive_sim_entry; auto; lia.
Qed.

Lemma positive_sum_dim0_e : Forall positive (sum_dim0 e).
Proof.
  unfold sum_dim0. apply Forall_map, Forall_forall. intros j Hj.
  apply in_seq in Hj. cbn in Hj. apply positive_tsum.
  - unfold col. cbn. destruct (dim0 features); [lia | discriminate].
  - unfold col. apply Forall_map, Forall_forall. intros i Hi.
    apply in_seq in Hi. cbn in Hi. apply positive_sim_entry; auto; lia.
Qed.

Lemma diag_e_not_empty : diag e <> [].
Proof.
  intros E. apply (f_equal (@length _)) in E.
  rewrite length_diag_e in E. cbn in E. lia.
Qed.

Lemma finite_loss_diag1 : finite (SimCLR.nll (diag e) (sum_dim1 e)).
Proof.
  apply finite_nll.
  - apply diag_e_not_empty.
  - rewrite length_diag_e, length_sum_dim1. reflexivity.
  - apply positive_diag_e.
  - apply positive_sum_dim1_e.
Qed.

Lemma finite_loss_diag2 : finite (SimCLR.nll (diag e) (sum_dim0 e)).
Proof.
  apply finite_nll.
  - apply diag_e_not_empty.
  - rewrite length_diag_e, length_sum_dim0. reflexivity.
  - apply positive_diag_e.
  - apply positive_sum_dim0_e.
Qed.

End OnePair.

(** With empty index sets the accumulated sum is finite. *)
Lemma finite_accumulated (features : tensor3 xreal) (pids : list string)
      (l : list (nat * nat)) (acc : xreal) :
  finite_nonzero features ->
  (1 <= dim0 features)%nat ->
  PairingIndex.upper_index pids = ([], []) ->
  PairingIndex.lower_index pids = ([], []) ->
  (forall a b, In (a, b) l -> (a < dim1 features)%nat /\ (b < dim1 features)%nat) ->
  finite acc ->
  finite (fold_left SimCLR.accumulate
                    (map (SimCLR.contributing_terms features pids) l) acc).
Proof.
  intros Hf HB HU HL. revert acc.
  induction l as [|[a b] l IH]; intros acc Hin Hacc; [exact Hacc|].
  cbn [map fold_left]. apply IH.
  - intros a' b' H. apply Hin. now right.
  - rewrite contributing_terms_empty_index by assumption.
    cbn [SimCLR.accumulate fold_left fst snd].
    destruct (Hin a b (or_introl eq_refl)) as [Ha Hb].
    apply finite_tadd; [exact Hacc|].
    apply finite_tadd.
    + now apply finite_loss_diag1.
    + now apply finite_loss_diag2.
Qed.




End Finiteness.

(** * Further properties of the two files *)

(** ** The outcomes of [contrastive_loss] *)

Lemma mapM_raises_only {A B : Type} (f : A -> result B) (e0 : py_error)
      (l : list A) (e : py_error) :
  (forall a e', f a = inl e' -> e' = e0) ->
  mapM f l = inl e -> e = e0.
Proof.
  intros H. induction l as [|a l IH]; simpl; [discriminate|].
  destruct (f a) as [e'|b] eqn:Ea.
  - intros E. injection E as <-. now apply (H a).
  - destruct (mapM f l) as [e'|bs]; [|discriminate].
    intros E. injection E as <-. now apply IH.
Qed.

Lemma mapM_raises {A B : Type} (f : A -> result B) (l : list A) (a : A)
      (e : py_error) :
  In a l -> f a = inl e -> exists e', mapM f l = inl e'.
Proof.
  intros Hin Ha. induction l as [|x l IH]; [destruct Hin|]. simpl.
  destruct (f x) as [e'|b] eqn:Ex; [eauto|].
  destruct Hin as [->|Hin]; [congruence|].
  destruct (IH Hin) as [e' ->]. eauto.
Qed.

Section LossOutcomes.
Context {T : Type} {ST : Torch.Scalar T}.
Import Torch.

Lemma index2_raises_only (m : tensor2 T) (rows cols : list nat) (e : py_error) :
  index2 m rows cols = inl e -> e = IndexError.
Proof.
  unfold index2. apply mapM_raises_only.
  intros [i j] e'. destruct ((i <? nrows m) && (j <? ncols m)); [discriminate|].
  intros E. now injection E as <-.
Qed.

Lemma index2_out_of_range (m : tensor2 T) (rows cols : list nat) (i j : nat) :
  In (i, j) (combine rows cols) ->
  (i <? nrows m) && (j <? ncols m) = false ->
  index2 m rows cols = inl IndexError.
Proof.
  intros Hin Hbad.
  destruct (mapM_raises
              (fun '(i, j) =>
                 if (i <? nrows m) && (j <? ncols m)
                 then ret (at2 m i j) else raise IndexError)
              (combine rows cols) (i, j) IndexError Hin) as [e E].
  - now rewrite Hbad.
  - unfold index2. rewrite E. f_equal.
    apply (index2_raises_only m rows cols). exact E.
Qed.

Lemma index_in_range_spec (pids : list string) (b : nat) :
  index_in_range pids b = true <->
  forall i j,
    In (i, j) (PairingIndex.upper_coords pids ++ PairingIndex.lower_coords pids) ->
    i < b /\ j < b.
Proof.
  unfold index_in_range. rewrite forallb_forall. split.
  - intros H i j Hin. specialize (H (i, j) Hin). cbn in H.
    apply andb_true_iff in H. destruct H as [Hi Hj].
    apply Nat.ltb_lt in Hi. apply Nat.ltb_lt in Hj. auto.
  - intros H [i j] Hin. destruct (H i j Hin) as [Hi Hj].
    apply Nat.ltb_lt in Hi. apply Nat.ltb_lt in Hj. now rewrite Hi, Hj.
Qed.

Lemma upper_rows_are_coords (pids : list string) (i : nat) :
  In i (fst (PairingIndex.upper_index pids)) ->
  exists j, In (i, j) (PairingIndex.upper_coords pids).
Proof.
  unfold PairingIndex.upper_coords, PairingIndex.upper_index.
  rewrite coords_np_where. unfold Numpy.np_where; simpl. intros H.
  apply in_map_iff in H. destruct H as ([i' j] & <- & H). eauto.
Qed.

Lemma lower_cols_are_coords (pids : list string) (j : nat) :
  In j (snd (PairingIndex.lower_index pids)) ->
  exists i, In (i, j) (PairingIndex.lower_coords pids).
Proof.
  unfold PairingIndex.lower_coords, PairingIndex.lower_index.
  rewrite coords_np_where. unfold Numpy.np_where; simpl. intros H.
  apply in_map_iff in H. destruct H as ([i j'] & <- & H). eauto.
Qed.

(** No iteration raises when every selected coordinate lies in the
    batch. *)
Lemma loop_body_in_range (features : tensor3 T) (pids : list string)
      (st : SimCLR.locals) (leads : nat * nat) :
  index_in_range pids (dim0 features) = true ->
  SimCLR.loop_body features
    (fst (PairingIndex.upper_index pids)) (snd (PairingIndex.upper_index pids))
    (fst (PairingIndex.lower_index pids)) (snd (PairingIndex.lower_index pids))
    st leads
  = inr (SimCLR.loop_step features pids st leads).
Proof.
  intros Hr. rewrite index_in_range_spec in Hr.
  destruct leads as [lead1 lead2].
  assert (U2 : forall i j, In (i, j) (PairingIndex.upper_coords pids) ->
                           i < dim0 features /\ j < dim0 features)
    by (intros i j H; apply Hr, in_or_app; now left).
  assert (L2 : forall i j, In (i, j) (PairingIndex.lower_coords pids) ->
                           i < dim0 features /\ j < dim0 features)
    by (intros i j H; apply Hr, in_or_app; now right).
  assert (U1 : forall i, In i (fst (PairingIndex.upper_index pids)) ->
                         i < dim0 features)
    by (intros i H; apply upper_rows_are_coords in H;
        destruct H as [j H]; now apply (U2 i j)).
  assert (L1 : forall j, In j (snd (PairingIndex.lower_index pids)) ->
                         j < dim0 features)
    by (intros j H; apply lower_cols_are_coords in H;
        destruct H as [i H]; now apply (L2 i j)).
  unfold PairingIndex.upper_coords, PairingIndex.lower_coords,
    PairingIndex.coords in U2, L2.
  unfold SimCLR.loop_body, SimCLR.loop_step, SimCLR.contributing_terms.
  destruct (PairingIndex.upper_index pids) as [rows1 cols1].
  destruct (PairingIndex.lower_index pids) as [rows2 cols2].
  cbn [fst snd] in *.
  rewrite index2_total by (intros i j H; apply U2 in H; exact H).
  rewrite index2_total by (intros i j H; apply L2 in H; exact H).
  cbn [bind].
  rewrite index1_total
    by (intros i H; apply U1 in H; now rewrite length_sum_dim1).
  cbn [bind].
  rewrite index1_total
    by (intros i H; apply L1 in H; now rewrite length_sum_dim0).
  cbn [bind].
  destruct (0 <? length rows1); destruct (0 <? length rows2); reflexivity.
Qed.

(** An iteration raises [IndexError] when a selected coordinate lies
    outside the batch. *)
Lemma loop_body_out_of_range (features : tensor3 T) (pids : list string)
      (st : SimCLR.locals) (leads : nat * nat) :
  index_in_range pids (dim0 features) = false ->
  SimCLR.loop_body features
    (fst (PairingIndex.upper_index pids)) (snd (PairingIndex.upper_index pids))
    (fst (PairingIndex.lower_index pids)) (snd (PairingIndex.lower_index pids))
    st leads
  = inl IndexError.
Proof.
  intros Hr. unfold index_in_range in Hr.
  assert (Hex : exists i j,
             In (i, j) (PairingIndex.upper_coords pids ++
                        PairingIndex.lower_coords pids) /\
             (i <? dim0 features) && (j <? dim0 features) = false).
  { rewrite <- not_true_iff_false, forallb_forall in Hr.
    destruct (existsb (fun '(i, j) =>
                         negb ((i <? dim0 features) && (j <? dim0 features)))
                      (PairingIndex.upper_coords pids ++
                       PairingIndex.lower_coords pids)) eqn:E.
    - apply existsb_exists in E. destruct E as ([i j] & Hin & Hb).
      exists i, j. split; [exact Hin|]. now apply negb_true_iff in Hb.
    - exfalso. apply Hr. intros [i j] Hin.
      rewrite <- not_true_iff_false, existsb_exists in E.
      destruct ((i <? dim0 features) && (j <? dim0 features)) eqn:Hb;
        [reflexivity|].
      exfalso. apply E. exists (i, j). split; [exact Hin|].
      change (negb ((i <? dim0 features) && (j <? dim0 features)) = true).
      now rewrite Hb. }
  destruct Hex as (i & j & Hin & Hbad).
  destruct leads as [lead1 lead2]. unfold SimCLR.loop_body.
  unfold PairingIndex.upper_coords, PairingIndex.lower_coords,
    PairingIndex.coords in Hin.
  set (e := exp2 (SimCLR.argument features lead1 lead2)).
  destruct (index2 e (fst (PairingIndex.upper_index pids))
                   (snd (PairingIndex.upper_index pids))) as [err|x] eqn:E1.
  - apply index2_raises_only in E1. now subst err.
  - cbn [bind]. apply in_app_or in Hin. destruct Hin as [Hin|Hin].
    + rewrite (index2_out_of_range e _ _ i j Hin Hbad) in E1. discriminate.
    + now rewrite (index2_out_of_range e _ _ i j Hin Hbad).
Qed.

Lemma contrastive_loss_needs_two_views (self : SimCLR.t)
      (features : tensor3 T) (pids : list string) :
  dim1 features < 2 ->
  SimCLR.contrastive_loss self features pids = inl UnboundLocalError.
Proof.
  intros HV. unfold SimCLR.contrastive_loss, SimCLR.contrastive_loss_locals,
    SimCLR.pairing_index.
  assert (Hnil : SimCLR.view_combinations (dim1 features) = []).
  { destruct (dim1 features) as [|[|n]]; [reflexivity | reflexivity | lia]. }
  rewrite Hnil.
  destruct (PairingIndex.upper_index pids), (PairingIndex.lower_index pids).
  reflexivity.
Qed.

Lemma contrastive_loss_in_range (self : SimCLR.t)
      (features : tensor3 T) (pids : list string) :
  2 <= dim1 features ->
  index_in_range pids (dim0 features) = true ->
  SimCLR.contrastive_loss self features pids =
  inr (SimCLR.spec_loss features pids,
       exp2 (SimCLR.argument features (dim1 features - 2) (dim1 features - 1)),
       repeat (lit 1) (dim0 features)).
Proof.
  intros HV Hr.
  assert (Hloop : forall l st,
             SimCLR.for_each
               (SimCLR.loop_body features
                  (fst (PairingIndex.upper_index pids))
                  (snd (PairingIndex.upper_index pids))
                  (fst (PairingIndex.lower_index pids))
                  (snd (PairingIndex.lower_index pids)))
               l st = inr (fold_left (SimCLR.loop_step features pids) l st)).
  { induction l as [|a l IH]; intros st; cbn [SimCLR.for_each fold_left];
      [reflexivity|].
    rewrite loop_body_in_range by exact Hr. apply IH. }
  unfold SimCLR.contrastive_loss, SimCLR.contrastive_loss_locals,
    SimCLR.pairing_index.
  rewrite (surjective_pairing (PairingIndex.upper_index pids)).
  rewrite (surjective_pairing (PairingIndex.lower_index pids)).
  rewrite Hloop, loop_final_locals by exact HV.
  cbn [bind SimCLR.loss_terms SimCLR.sim_matrix_exp SimCLR.loss
       SimCLR.ncombinations].
  rewrite diag_ones_like.
  cbn [nrows ncols exp2 SimCLR.argument div2 mm select_view].
  rewrite Nat.min_id. reflexivity.
Qed.

Lemma contrastive_loss_out_of_range (self : SimCLR.t)
      (features : tensor3 T) (pids : list string) :
  2 <= dim1 features ->
  index_in_range pids (dim0 features) = false ->
  SimCLR.contrastive_loss self features pids = inl IndexError.
Proof.
  intros HV Hr.
  unfold SimCLR.contrastive_loss, SimCLR.contrastive_loss_locals,
    SimCLR.pairing_index.
  rewrite (surjective_pairing (PairingIndex.upper_index pids)).
  rewrite (surjective_pairing (PairingIndex.lower_index pids)).
  assert (Hcons : exists a l, SimCLR.view_combinations (dim1 features) = a :: l).
  { destruct (view_combinations_last (dim1 features) HV) as [l ->].
    destruct l as [|a l]; cbn; eauto. }
  destruct Hcons as (a & l & ->). cbn [SimCLR.for_each].
  now rewrite loop_body_out_of_range.
Qed.

(** X1: the three outcomes of [contrastive_loss].  With fewer than two
    views it raises [UnboundLocalError]; with at least two it returns
    exactly when every coordinate of the pairing index lies inside the
    batch, and raises [IndexError] otherwise. *)
Theorem contrastive_loss_outcomes (self : SimCLR.t)
        (features : tensor3 T) (pids : list string) :
  (SimCLR.contrastive_loss self features pids = inl UnboundLocalError
   <-> dim1 features < 2) /\
  (SimCLR.contrastive_loss self features pids = inl IndexError
   <-> 2 <= dim1 features /\ index_in_range pids (dim0 features) = false) /\
  ((exists r, SimCLR.contrastive_loss self features pids = inr r)
   <-> 2 <= dim1 features /\ index_in_range pids (dim0 features) = true).
Proof.
  destruct (le_lt_dec 2 (dim1 features)) as [HV|HV];
    [destruct (index_in_range pids (dim0 features)) eqn:Hr|].
  - rewrite (contrastive_loss_in_range self features pids HV Hr).
    repeat split; intros;
      repeat match goal with
             | H : _ /\ _ |- _ => destruct H
             | H : exists _, _ |- _ => destruct H
             end;
      try discriminate; try lia; eauto.
  - rewrite (contrastive_loss_out_of_range self features pids HV Hr).
    repeat split; intros;
      repeat match goal with
             | H : _ /\ _ |- _ => destruct H
             | H : exists _, _ |- _ => destruct H
             end;
      try discriminate; try lia; eauto.
  - rewrite (contrastive_loss_needs_two_views self features pids HV).
    repeat split; intros;
      repeat match goal with
             | H : _ /\ _ |- _ => destruct H
             | H : exists _, _ |- _ => destruct H
             end;
      try discriminate; try lia; eauto.
Qed.

End LossOutcomes.

Lemma contrastive_loss_outcomes_witness :
  SimCLR.contrastive_loss XReal.sample_self
    (XReal.const_features 2 2 1 (Some 1%R)) ["p1"; "p1"; "p1"]%string
  = inl IndexError.
Proof.
  apply (proj2 (proj1 (proj2 (contrastive_loss_outcomes XReal.sample_self
           (XReal.const_features 2 2 1 (Some 1%R))
           ["p1"; "p1"; "p1"]%string)))).
  split; [cbn; lia | vm_compute; reflexivity].
Defined.

(** ** The view pairs *)

Lemma combinations2_seq_spec (s n a b : nat) :
  In (a, b) (SimCLR.combinations2 (seq s n)) <-> s <= a < b /\ b < s + n.
Proof.
  split; [apply combinations2_seq_bounds|].
  revert s. induction n as [|n IH]; intros s H; [lia|].
  cbn [seq SimCLR.combinations2]. apply in_or_app.
  destruct (Nat.eq_dec a s) as [->|Hne].
  - left. apply in_map. apply in_seq. lia.
  - right. apply IH. lia.
Qed.

Lemma combinations2_seq_NoDup (s n : nat) :
  NoDup (SimCLR.combinations2 (seq s n)).
Proof.
  revert s. induction n as [|n IH]; intros s; [constructor|].
  cbn [seq SimCLR.combinations2]. apply NoDup_app.
  - apply Finite.Injective_map_NoDup; [|apply seq_NoDup].
    intros x y E. now injection E.
  - apply IH.
  - intros [a b] H1 H2. apply in_map_iff in H1.
    destruct H1 as (x & E & _). injection E as <- _.
    apply combinations2_seq_bounds in H2. lia.
Qed.

Lemma combinations2_seq_length (s n : nat) :
  2 * length (SimCLR.combinations2 (seq s n)) = n * (n - 1).
Proof.
  revert s. induction n as [|n IH]; intros s; [reflexivity|].
  cbn [seq SimCLR.combinations2].
  rewrite length_app, length_map, length_seq.
  rewrite Nat.mul_add_distr_l, (IH (S s)).
  destruct n; cbn [Nat.sub]; nia.
Qed.

(** X2: the loop of [contrastive_loss] visits every pair of views
    [lead1 < lead2] exactly once, so it runs [nviews (nviews - 1) / 2]
    times; that number is the final value of [ncombinations]. *)
Theorem view_pairs_visited_once {T : Type} {ST : Torch.Scalar T}
        (self : SimCLR.t) (features : Torch.tensor3 T) (pids : list string) :
  (forall lead1 lead2,
      In (lead1, lead2) (SimCLR.view_combinations (Torch.dim1 features))
      <-> lead1 < lead2 /\ lead2 < Torch.dim1 features) /\
  NoDup (SimCLR.view_combinations (Torch.dim1 features)) /\
  (forall st,
      SimCLR.contrastive_loss_locals self features pids = inr st ->
      2 * SimCLR.ncombinations st =
      Torch.dim1 features * (Torch.dim1 features - 1)).
Proof.
  split; [|split].
  - intros a b. unfold SimCLR.view_combinations.
    rewrite combinations2_seq_spec. lia.
  - apply combinations2_seq_NoDup.
  - intros st E. apply contrastive_loss_locals_sound in E. subst st.
    match goal with
    | |- context [fold_left ?f ?l ?s] =>
        destruct (loop_accumulates features pids l s) as [_ ->]
    end.
    cbn [SimCLR.ncombinations]. rewrite Nat.add_0_l.
    apply combinations2_seq_length.
Qed.

Lemma view_pairs_visited_once_witness :
  In (1, 2) (SimCLR.view_combinations 3).
Proof.
  apply (proj1 (view_pairs_visited_once XReal.sample_self
                  (XReal.const_features 2 3 1 (Some 1%R)) ["p1"]%string)).
  cbn. lia.
Defined.

(** ** The sign of the loss in exact arithmetic *)

Section LossSign.
Import Torch XReal.
Local Open Scope R_scope.

Lemma nonneg_tadd (a b : xreal) : nonneg a -> nonneg b -> nonneg (tadd a b).
Proof.
  intros (x & -> & Hx) (y & -> & Hy). exists (x + y).
  split; [reflexivity | lra].
Qed.

Lemma nonpos_tadd (a b : xreal) : nonpos a -> nonpos b -> nonpos (tadd a b).
Proof.
  intros (x & -> & Hx) (y & -> & Hy). exists (x + y).
  split; [reflexivity | lra].
Qed.

Lemma fold_left_nonpos (xs : list xreal) (a : xreal) :
  nonpos a -> Forall nonpos xs -> nonpos (fold_left tadd xs a).
Proof.
  revert a. induction xs as [|x xs IH]; intros a Ha Hxs; [exact Ha|].
  inversion Hxs; subst. cbn [fold_left]. apply IH; [|assumption].
  now apply nonpos_tadd.
Qed.

Lemma fold_left_nonneg (xs : list xreal) (a : xreal) :
  nonneg a -> Forall nonneg xs -> nonneg (fold_left tadd xs a).
Proof.
  revert a. induction xs as [|x xs IH]; intros a Ha Hxs; [exact Ha|].
  inversion Hxs; subst. cbn [fold_left]. apply IH; [|assumption].
  now apply nonneg_tadd.
Qed.

Lemma nonpos_tsum (l : list xreal) : Forall nonpos l -> nonpos (tsum l).
Proof.
  destruct l as [|x xs]; intros H.
  - exists (Q2R 0). split; [reflexivity|]. unfold Q2R. cbn. lra.
  - inversion H; subst. now apply fold_left_nonpos.
Qed.

(** A sum of positive numbers is at least each of them. *)
Lemma fold_left_dominates (xs : list xreal) (u : R) :
  0 < u -> Forall positive xs ->
  exists s, fold_left tadd xs (Some u) = Some s /\ u <= s /\
            forall a, In a xs -> dominated a (Some s).
Proof.
  revert u. induction xs as [|x xs IH]; intros u Hu Hxs.
  - exists u. repeat split; [lra | intros a []].
  - inversion Hxs as [|? ? (v & -> & Hv) Hxs']; subst. cbn [fold_left].
    destruct (IH (u + v)) as (s & Es & Hs & Hall); [lra | assumption |].
    change (tadd (Some u) (Some v)) with (Some (u + v)).
    exists s. repeat split; [exact Es | lra |].
    intros a [<-|Ha]; [|now apply Hall].
    exists v, s. repeat split; auto; lra.
Qed.

Lemma tsum_dominates (l : list xreal) (a : xreal) :
  Forall positive l -> In a l -> dominated a (tsum l).
Proof.
  destruct l as [|x xs]; intros H Hin; [destruct Hin|].
  inversion H as [|? ? (u & -> & Hu) Hxs]; subst. cbn [tsum].
  destruct (fold_left_dominates xs u Hu Hxs) as (s & -> & Hs & Hall).
  destruct Hin as [<-|Hin]; [|now apply Hall].
  exists u, s. repeat split; auto.
Qed.

Lemma Forall2_map_same {A B C : Type} (R : B -> C -> Prop)
      (f : A -> B) (g : A -> C) (l : list A) :
  (forall x, In x l -> R (f x) (g x)) -> Forall2 R (map f l) (map g l).
Proof.
  induction l as [|x l IH]; intros H; cbn; constructor.
  - apply H. now left.
  - apply IH. intros y Hy. apply H. now right.
Qed.

(** [-mean(log(elements / sums))] is a non-negative real when every
    element is positive and at most its sum. *)
Lemma nonneg_nll (elements sums : list xreal) :
  elements <> [] ->
  Forall2 dominated elements sums ->
  nonneg (SimCLR.nll elements sums).
Proof.
  intros Hne H.
  assert (Hlog : Forall nonpos (log1 (div1 elements sums)) /\
                 length (log1 (div1 elements sums)) = length elements).
  { clear Hne. unfold log1, div1.
    induction H as [|a s la ls (x & y & -> & -> & Hx) H IH].
    - split; [constructor | reflexivity].
    - destruct IH as [IH1 IH2]; cbn [Numpy.zip_with map length].
      split; [|now rewrite IH2]. constructor; [|exact IH1].
      cbn. unfold xdiv. destruct (Req_dec_T y 0) as [E|_]; [lra|].
      cbn. unfold xlog.
      assert (0 < x / y) by (apply Rdiv_lt_0_compat; lra).
      destruct (Rlt_dec 0 (x / y)) as [_|N]; [|contradiction].
      exists (ln (x / y)). split; [reflexivity|].
      rewrite <- ln_1. destruct (Req_dec_T (x / y) 1) as [->|Hne1]; [lra|].
      left. apply ln_increasing; [assumption|].
      assert (x / y <= 1).
      { apply (Rmult_le_reg_r y); [lra|]. unfold Rdiv.
        rewrite Rmult_assoc, Rinv_l, Rmult_1_r, Rmult_1_l; lra. }
      lra. }
  destruct Hlog as [Hlog Hlen].
  unfold SimCLR.nll, mean.
  destruct (nonpos_tsum _ Hlog) as (t & -> & Ht).
  rewrite Hlen.
  destruct (positive_of_nat (length elements)) as (n & -> & Hn).
  { destruct elements; [congruence | cbn; lia]. }
  cbn. unfold xdiv. destruct (Req_dec_T n 0) as [E|_]; [lra|].
  cbn. exists (- (t / n)). split; [reflexivity|].
  assert (t / n <= 0).
  { unfold Rdiv. rewrite <- (Rmult_0_l (/ n)).
    apply Rmult_le_compat_r; [|exact Ht].
    left. now apply Rinv_0_lt_compat. }
  lra.
Qed.

Section OnePairSign.
Variable features : tensor3 xreal.
Variable pids : list string.
Variables a b : nat.
Hypothesis Hfeatures : finite_nonzero features.
Hypothesis Hbatch : (1 <= dim0 features)%nat.
Hypothesis Hlen : (length pids <= dim0 features)%nat.
Hypothesis Ha : (a < dim1 features)%nat.
Hypothesis Hb : (b < dim1 features)%nat.

Local Abbreviation e := (exp2 (SimCLR.argument features a b)).

Lemma positive_row_e (i : nat) :
  (i < dim0 features)%nat -> Forall positive (row e i).
Proof.
  intros Hi. unfold row. apply Forall_map, Forall_forall. intros j Hj.
  apply in_seq in Hj. cbn in Hj. apply positive_sim_entry; auto; lia.
Qed.

Lemma positive_col_e (j : nat) :
  (j < dim0 features)%nat -> Forall positive (col e j).
Proof.
  intros Hj. unfold col. apply Forall_map, Forall_forall. intros i Hi.
  apply in_seq in Hi. cbn in Hi. apply positive_sim_entry; auto; lia.
Qed.

Lemma entry_dominated_by_row (i j : nat) :
  (i < dim0 features)%nat -> (j < dim0 features)%nat ->
  dominated (at2 e i j) (tsum (row e i)).
Proof.
  intros Hi Hj. apply tsum_dominates; [now apply positive_row_e|].
  unfold row. apply (in_map (at2 e i)). apply in_seq. cbn. lia.
Qed.

Lemma entry_dominated_by_col (i j : nat) :
  (i < dim0 features)%nat -> (j < dim0 features)%nat ->
  dominated (at2 e i j) (tsum (col e j)).
Proof.
  intros Hi Hj. apply tsum_dominates; [now apply positive_col_e|].
  unfold col. apply (in_map (fun i => at2 e i j)). apply in_seq. cbn. lia.
Qed.

Lemma nth_sum_dim1 (i : nat) :
  (i < dim0 features)%nat ->
  nth i (sum_dim1 e) (lit 0) = tsum (row e i).
Proof.
  intros Hi. apply nth_error_nth. unfold sum_dim1.
  rewrite nth_error_map.
  rewrite (nth_error_nth' _ 0%nat) by (rewrite length_seq; exact Hi).
  rewrite seq_nth by exact Hi. reflexivity.
Qed.

Lemma nth_sum_dim0 (j : nat) :
  (j < dim0 features)%nat ->
  nth j (sum_dim0 e) (lit 0) = tsum (col e j).
Proof.
  intros Hj. apply nth_error_nth. unfold sum_dim0.
  rewrite nth_error_map.
  rewrite (nth_error_nth' _ 0%nat) by (rewrite length_seq; exact Hj).
  rewrite seq_nth by exact Hj. reflexivity.
Qed.

Lemma nonneg_loss_diag1 : nonneg (SimCLR.nll (diag e) (sum_dim1 e)).
Proof.
  apply nonneg_nll; [now apply diag_e_not_empty|].
  unfold diag, sum_dim1. cbn [nrows ncols exp2 SimCLR.argument div2 mm
    select_view]. rewrite Nat.min_id.
  apply Forall2_map_same. intros i Hi. apply in_seq in Hi.
  apply entry_dominated_by_row; lia.
Qed.

Lemma nonneg_loss_diag2 : nonneg (SimCLR.nll (diag e) (sum_dim0 e)).
Proof.
  apply nonneg_nll; [now apply diag_e_not_empty|].
  unfold diag, sum_dim0. cbn [nrows ncols exp2 SimCLR.argument div2 mm
    select_view transpose]. rewrite Nat.min_id.
  apply Forall2_map_same. intros i Hi. apply in_seq in Hi.
  apply entry_dominated_by_col; lia.
Qed.

Lemma nonneg_loss_triu :
  fst (PairingIndex.upper_index pids) <> [] ->
  nonneg (SimCLR.nll
            (SimCLR.gather2 e (fst (PairingIndex.upper_index pids))
                              (snd (PairingIndex.upper_index pids)))
            (SimCLR.gather1 (sum_dim1 e) (fst (PairingIndex.upper_index pids)))).
Proof.
  intros Hne.
  pose proof (upper_coords_in_range pids) as Hr.
  unfold PairingIndex.upper_coords, PairingIndex.upper_index in *.
  rewrite coords_np_where in Hr.
  unfold SimCLR.gather2, SimCLR.gather1, Numpy.np_where in *.
  cbn [fst snd] in *. rewrite combine_fst_snd, map_map.
  apply nonneg_nll.
  - intros E. apply Hne. apply map_eq_nil in E. now rewrite E.
  - apply Forall2_map_same. intros [i j] Hin. cbn [fst].
    destruct (Hr i j Hin) as [Hi Hj].
    rewrite nth_sum_dim1 by lia. apply entry_dominated_by_row; lia.
Qed.

Lemma nonneg_loss_tril :
  fst (PairingIndex.lower_index pids) <> [] ->
  nonneg (SimCLR.nll
            (SimCLR.gather2 e (fst (PairingIndex.lower_index pids))
                              (snd (PairingIndex.lower_index pids)))
            (SimCLR.gather1 (sum_dim0 e) (snd (PairingIndex.lower_index pids)))).
Proof.
  intros Hne.
  pose proof (lower_coords_in_range pids) as Hr.
  unfold PairingIndex.lower_coords, PairingIndex.lower_index in *.
  rewrite coords_np_where in Hr.
  unfold SimCLR.gather2, SimCLR.gather1, Numpy.np_where in *.
  cbn [fst snd] in *. rewrite combine_fst_snd, map_map.
  apply nonneg_nll.
  - intros E. apply Hne. apply map_eq_nil in E. now rewrite E.
  - apply Forall2_map_same. intros [i j] Hin. cbn [snd].
    destruct (Hr i j Hin) as [Hi Hj].
    rewrite nth_sum_dim0 by lia. apply entry_dominated_by_col; lia.
Qed.

Lemma nonneg_contributing_terms :
  Forall nonneg (SimCLR.contributing_terms features pids (a, b)).
Proof.
  pose proof nonneg_loss_triu as HU. pose proof nonneg_loss_tril as HL.
  unfold SimCLR.contributing_terms.
  destruct (PairingIndex.upper_index pids) as [rows1 cols1].
  destruct (PairingIndex.lower_index pids) as [rows2 cols2].
  cbn [fst snd] in *.
  constructor; [apply nonneg_loss_diag1|].
  constructor; [apply nonneg_loss_diag2|].
  apply Forall_app. split.
  - destruct rows1 as [|r rows1]; cbn [length Nat.ltb Nat.leb];
      [constructor|].
    constructor; [|constructor]. apply HU. discriminate.
  - destruct rows2 as [|r rows2]; cbn [length Nat.ltb Nat.leb];
      [constructor|].
    constructor; [|constructor]. apply HL. discriminate.
Qed.

End OnePairSign.

Lemma nonneg_accumulate (acc : xreal) (terms : list xreal) :
  nonneg acc -> Forall nonneg terms -> nonneg (SimCLR.accumulate acc terms).
Proof.
  intros Hacc H. unfold SimCLR.accumulate.
  destruct H as [|d1 ? H1 H]; [exact Hacc|].
  destruct H as [|d2 rest H2 H]; [exact Hacc|].
  apply fold_left_nonneg; [|exact H].
  apply nonneg_tadd; [exact Hacc | now apply nonneg_tadd].
Qed.



End LossSign.

(** ** The running averages *)

Section MeterFacts.
Import Torch AverageMeter.
Context {T : Type} {ST : Scalar T}.

Lemma updates_snoc (self : AverageMeter.t T) (calls : list (T * Z))
      (v : T) (n : Z) :
  snd (updates self calls) = None ->
  updates self (calls ++ [(v, n)]) = update (fst (updates self calls)) v n.
Proof.
  revert self. induction calls as [|[v' n'] calls IH]; intros self H.
  - cbn. destruct (update self v n) as [s [e|]]; reflexivity.
  - cbn [updates app] in *.
    destruct (update self v' n') as [s [e|]]; [discriminate|]. now apply IH.
Qed.

(** X4: a meter that was reset and then updated with positive weights
    never raises; its count is the sum of the weights, and after the
    last call [avg] is [sum / count] and [val] the last value. *)
Theorem meter_updates_with_positive_weights
        (calls : list (T * Z)) (v : T) (n : Z) :
  Forall (fun c => (1 <= snd c)%Z) (calls ++ [(v, n)]) ->
  let m := fst (updates reset (calls ++ [(v, n)])) in
  snd (updates reset (calls ++ [(v, n)])) = None /\
  count m = fold_right Z.add 0%Z (map snd (calls ++ [(v, n)])) /\
  (1 <= count m)%Z /\
  avg m = tdiv (sum m) (of_int (count m)) /\
  val m = v.
Proof.
  intros H. apply Forall_app in H. destruct H as [Hcalls Hlast].
  inversion Hlast as [|? ? Hn _]; subst. cbn [snd] in Hn.
  assert (Hpre : forall l (self : AverageMeter.t T),
             Forall (fun c => (1 <= snd c)%Z) l ->
             (0 <= count self)%Z ->
             snd (updates self l) = None /\
             count (fst (updates self l)) =
               (count self + fold_right Z.add 0%Z (map snd l))%Z /\
             (count self <= count (fst (updates self l)))%Z).
  { induction l as [|[v' n'] l IH]; intros self Hl Hc.
    - cbn. repeat split; lia.
    - inversion Hl as [|? ? Hn' Hl']; subst. cbn [snd] in Hn'.
      cbn [updates map fold_right snd]. unfold update.
      destruct (Z.eqb_spec (count self + n') 0); [lia|].
      destruct (IH {| val := v';
                      avg := tdiv (tadd (sum self) (tmul v' (of_int n')))
                                  (of_int (count self + n'));
                      sum := tadd (sum self) (tmul v' (of_int n'));
                      count := (count self + n')%Z |} Hl')
        as (E & Hcount & Hle); [cbn; lia|].
      cbn [count] in Hcount, Hle. repeat split; [exact E | lia | lia]. }
  destruct (Hpre calls reset Hcalls) as (E & Hcount & Hle); [cbn; lia|].
  cbv zeta. rewrite (updates_snoc _ _ _ _ E).
  rewrite map_app, fold_right_app. cbn [map fold_right snd].
  unfold update.
  set (m0 := fst (updates reset calls)) in *.
  cbn [count reset] in Hcount, Hle.
  destruct (Z.eqb_spec (count m0 + n) 0); [lia|].
  cbn [fst snd count avg sum val]. repeat split; try lia.
  rewrite Hcount.
  assert (Hfold : forall l a,
             fold_right Z.add a (map snd l) =
             (fold_right Z.add 0 (map (@snd T Z) l) + a)%Z).
  { induction l as [|c l IHl]; intros a; cbn; [lia|]. rewrite IHl. lia. }
  rewrite (Hfold calls (n + 0)%Z). lia.
Qed.

End MeterFacts.

Lemma meter_updates_with_positive_weights_witness :
  snd (AverageMeter.updates (T := XReal.xreal) AverageMeter.reset
         ([(Some 1%R, 4%Z)] ++ [(Some 2%R, 4%Z)])) = None.
Proof.
  apply (meter_updates_with_positive_weights (T := XReal.xreal)
           [(Some 1%R, 4%Z)] (Some 2%R) 4%Z).
  repeat constructor; cbn; lia.
Defined.

Section MeterAverage.
Import Torch XReal AverageMeter.
Local Open Scope R_scope.

Lemma of_int_xreal (z : Z) : of_int z = Some (IZR z).
Proof.
  unfold of_int. cbn. f_equal. unfold Q2R, inject_Z. cbn.
  now rewrite Rinv_1, Rmult_1_r.
Qed.

Lemma meter_bounds_invariant (lo hi : R) (l : list (R * Z))
      (self : AverageMeter.t xreal) (s : R) :
  sum self = Some s ->
  (0 <= count self)%Z ->
  lo * IZR (count self) <= s <= hi * IZR (count self) ->
  Forall (fun c => lo <= fst c <= hi /\ (1 <= snd c)%Z) l ->
  let r := updates self (map (fun c => (Some (fst c), snd c)) l) in
  snd r = None /\
  (count self <= count (fst r))%Z /\
  exists s',
    sum (fst r) = Some s' /\
    lo * IZR (count (fst r)) <= s' <= hi * IZR (count (fst r)) /\
    (l <> [] -> avg (fst r) = Some (s' / IZR (count (fst r))) /\
                (1 <= count (fst r))%Z).
Proof.
  revert self s. induction l as [|[v n] l IH]; intros self s Hs Hc Hb Hl.
  - cbn. repeat split; [lia|]. exists s. repeat split; try tauto; congruence.
  - inversion Hl as [|? ? [Hv Hn] Hl']; subst. cbn [fst snd] in Hv, Hn.
    cbn [map updates fst snd]. unfold update.
    destruct (Z.eqb_spec (count self + n) 0); [lia|].
    rewrite Hs, !of_int_xreal.
    change (tadd (Some s) (tmul (Some v) (Some (IZR n))))
      with (Some (s + v * IZR n)).
    assert (Hn' : 1 <= IZR n) by (apply IZR_le; exact Hn).
    assert (Hb' : lo * IZR (count self + n) <= s + v * IZR n
                  <= hi * IZR (count self + n)).
    { rewrite plus_IZR.
      assert (lo * IZR n <= v * IZR n)
        by (apply Rmult_le_compat_r; lra).
      assert (v * IZR n <= hi * IZR n)
        by (apply Rmult_le_compat_r; lra).
      split; lra. }
    set (self' := {| val := Some v;
                     avg := tdiv (Some (s + v * IZR n))
                                 (Some (IZR (count self + n)));
                     sum := Some (s + v * IZR n);
                     count := (count self + n)%Z |}).
    destruct (IH self' (s + v * IZR n) eq_refl) as (E & Hle & s' & Hs' & Hb'' & Hav);
      [cbn; lia | exact Hb' | exact Hl' |].
    subst self'.
    split; [exact E|].
    split; [eapply Z.le_trans; [|exact Hle]; cbn [count]; lia|].
    exists s'. split; [exact Hs'|]. split; [exact Hb''|].
    intros _. destruct l as [|c l].
    + cbn in Hs' |- *. injection Hs' as <-. split; [|lia].
      unfold xdiv. destruct (Req_dec_T (IZR (count self + n)) 0) as [E0|_];
        [|reflexivity].
      apply eq_IZR_R0 in E0. lia.
    + apply Hav. discriminate.
Qed.



End MeterAverage.

(** ** The encoder: which inputs it accepts, and how it fails *)

Section EncoderOutcomes.
Import Networks.

Lemma six_blocks_mode_independent (cl avg tr : bool) (s : shape) :
  six_blocks (init cl avg tr) s = six_blocks (init false avg tr) s.
Proof. reflexivity. Qed.

Lemma for_each_views_accepted (self : BaselineConvNet) (batch_size l : nat)
      (h h' : shape) (i : nat) (views : list nat) :
  SimCLR.for_each (view_body self batch_size l) (i :: views) h = inr h' ->
  exists s, six_blocks self [batch_size; 1; l] = inr s.
Proof.
  cbn [SimCLR.for_each]. unfold view_body at 1.
  destruct (six_blocks self [batch_size; 1; l]) as [e|s]; [discriminate|].
  eauto.
Qed.

(** X6: in multi-view mode [forward] returns exactly when there is no
    view at all or the input is long enough for the six blocks, and
    then the shape is [(batch_size, num_views, 128)], or
    [(batch_size, 1, 128)] with [avg_embeddings]. *)
Theorem forward_multi_view_accepts (avg tr : bool)
        (batch_size num_views sequence_length : nat) (s : shape) :
  forward (init false avg tr) (batch_size, num_views, sequence_length) = inr s
  <->
  (num_views = 0 \/ long_enough tr batch_size sequence_length) /\
  s = [batch_size; if avg then 1 else num_views; 128].
Proof.
  assert (Hok : num_views = 0 \/ long_enough tr batch_size sequence_length ->
                forward (init false avg tr)
                        (batch_size, num_views, sequence_length)
                = inr [batch_size; if avg then 1 else num_views; 128]).
  { intros [-> | Hlong].
    - unfold forward. cbn [classification init seq SimCLR.for_each bind
        avg_embeddings finalLayer]. destruct avg; reflexivity.
    - destruct (six_blocks_accept avg tr _ _ Hlong) as [l6 E].
      unfold forward. cbn [classification init].
      rewrite (for_each_views _ _ _ _ _ l6 E).
      cbn [bind avg_embeddings finalLayer]. destruct avg; reflexivity. }
  split.
  - intros E.
    assert (Hcond : num_views = 0 \/ long_enough tr batch_size sequence_length).
    { destruct num_views as [|v]; [now left | right].
      unfold forward in E. cbn [classification init] in E.
      destruct (SimCLR.for_each _ (seq 0 (S v)) _) as [e|h] eqn:Ef;
        [discriminate|].
      cbn [seq] in Ef. apply for_each_views_accepted in Ef.
      destruct Ef as [x Ex]. exact (six_blocks_accepted avg tr _ _ x Ex). }
    split; [exact Hcond|]. rewrite (Hok Hcond) in E. now injection E.
  - intros [Hcond ->]. now apply Hok.
Qed.

Lemma forward_multi_view_accepts_witness :
  forward (init false true false) (1, 8, 223) = inr [1; 1; 128].
Proof.
  apply (proj2 (forward_multi_view_accepts true false 1 8 223 [1; 1; 128])).
  split; [|reflexivity]. right. split; [lia | discriminate].
Defined.

(** X7: in classification mode [forward] accepts single-channel inputs
    only.  It returns exactly when the input has one channel and is
    long enough for the six blocks, and then the shape is
    [(batch_size, 1)]; [avg_embeddings] plays no part. *)
Theorem forward_classification_accepts (avg tr : bool)
        (batch_size channels sequence_length : nat) (s : shape) :
  forward (init true avg tr) (batch_size, channels, sequence_length) = inr s
  <->
  channels = 1 /\ long_enough tr batch_size sequence_length /\
  s = [batch_size; 1].
Proof.
  assert (Hok : long_enough tr batch_size sequence_length ->
                forward (init true avg tr) (batch_size, 1, sequence_length)
                = inr [batch_size; 1]).
  { intros Hlong. destruct (six_blocks_accept avg tr _ _ Hlong) as [l6 E].
    unfold forward. cbn [classification init].
    rewrite six_blocks_mode_independent, E. reflexivity. }
  split.
  - intros E.
    assert (Hc : channels = 1).
    { unfold forward in E. cbn [classification init] in E.
      unfold six_blocks, block at 1, conv1d in E.
      cbn [init conv1 in_channels] in E.
      destruct (Nat.eqb_spec channels 1); [assumption|].
      cbn [andb bind raise] in E. discriminate. }
    subst channels.
    assert (Hlong : long_enough tr batch_size sequence_length).
    { unfold forward in E. cbn [classification init] in E.
      rewrite six_blocks_mode_independent in E.
      destruct (six_blocks (init false avg tr) [batch_size; 1; sequence_length])
        as [e|x] eqn:Ex; [discriminate|].
      exact (six_blocks_accepted avg tr _ _ x Ex). }
    split; [reflexivity|]. split; [exact Hlong|].
    rewrite (Hok Hlong) in E. now injection E.
  - intros (-> & Hlong & ->). now apply Hok.
Qed.

Lemma forward_classification_accepts_witness :
  forward (init true false true) (16, 1, 5000) = inr [16; 1].
Proof.
  apply (proj2 (forward_classification_accepts false true 16 1 5000 [16; 1])).
  split; [reflexivity|]. split; [|reflexivity].
  split; [lia | intros _ _; lia].
Defined.

(** How a block fails. *)
Lemma block_raises (tr : bool) (c : Conv1d) (b : BatchNorm1d)
      (n c_in l : nat) (e : py_error) :
  block tr c b [n; c_in; l] = inl e ->
  e = RuntimeError \/ (e = ValueError /\ tr = true /\ n = 1).
Proof.
  unfold block, conv1d, activation, batch_norm.
  destruct ((c_in =? in_channels c) && (kernel_size c <=? l));
    cbn [bind ret raise]; [|intros E; injection E as <-; now left].
  destruct (negb (out_channels c =? num_features b));
    [intros E; injection E as <-; now left|].
  destruct tr; cbn [andb]; [|discriminate].
  destruct (Nat.eqb_spec (n * ((l - kernel_size c) / stride c + 1)) 1) as [E1|];
    [|discriminate].
  intros E. injection E as <-. right. repeat split.
  apply Nat.eq_mul_1 in E1. tauto.
Qed.

Lemma block_shape (tr : bool) (c : Conv1d) (b : BatchNorm1d)
      (n c_in l : nat) (s : shape) :
  block tr c b [n; c_in; l] = inr s ->
  exists c' l', s = [n; c'; l'].
Proof.
  unfold block, conv1d, activation, batch_norm.
  destruct ((c_in =? in_channels c) && (kernel_size c <=? l));
    cbn [bind ret raise]; [|discriminate].
  destruct (negb (out_channels c =? num_features b)); [discriminate|].
  destruct (tr && _); [discriminate|].
  intros E. injection E as <-. eauto.
Qed.

Lemma six_blocks_raises (self : BaselineConvNet) (n c l : nat) (e : py_error) :
  six_blocks self [n; c; l] = inl e ->
  e = RuntimeError \/ (e = ValueError /\ training self = true /\ n = 1).
Proof.
  unfold six_blocks. intros E.
  repeat match type of E with
  | bind ?m _ = inl _ =>
      let h := fresh "h" in
      let Eh := fresh "Eh" in
      destruct m as [?|h] eqn:Eh; cbn [bind] in E;
      [injection E as <-; exact (block_raises _ _ _ _ _ _ _ Eh)|];
      apply block_shape in Eh; destruct Eh as (? & ? & ->)
  end.
  exact (block_raises _ _ _ _ _ _ _ E).
Qed.

Lemma sequential_linear_raises (layers : list layer) (s : shape) (e : py_error) :
  sequential layers s = inl e -> e = RuntimeError.
Proof.
  assert (Hlin : forall l s e, linear l s = inl e -> e = RuntimeError).
  { intros l. induction s0 as [|d rest IH]; intros e0; cbn.
    - intros E. now injection E as <-.
    - destruct rest as [|d' rest'].
      + destruct (d =? in_features l); [discriminate|].
        intros E. now injection E as <-.
      + destruct (linear l (d' :: rest')) as [e1|r] eqn:El; [|discriminate].
        intros E. injection E as <-. now apply IH. }
  revert s. induction layers as [|ly layers IH]; intros s; cbn; [discriminate|].
  destruct ly as [l|]; cbn.
  - destruct (linear l s) as [e1|s'] eqn:El.
    + intros E. injection E as <-. now apply (Hlin l s).
    + apply IH.
  - apply IH.
Qed.

(** X8: [forward] raises nothing but [RuntimeError] (a shape that does
    not fit) and [ValueError]; the latter only in training mode on a
    batch of a single sample. *)
Theorem forward_raises (cl avg tr : bool)
        (batch_size channels sequence_length : nat) (e : py_error) :
  forward (init cl avg tr) (batch_size, channels, sequence_length) = inl e ->
  e = RuntimeError \/ (e = ValueError /\ tr = true /\ batch_size = 1).
Proof.
  unfold forward. destruct cl; cbn [classification init].
  - destruct (six_blocks _ _) as [e1|h] eqn:E6; cbn [bind].
    + intros E. injection E as <-. apply six_blocks_raises in E6. exact E6.
    + destruct (avg_pool h) as [e1|h1] eqn:E1; cbn [bind].
      * intros E. injection E as <-. left.
        destruct h as [|? [|? [|? [|]]]]; cbn in E1; unfold raise, ret in E1; congruence.
      * destruct (flatten h1) as [e2|h2] eqn:E2; cbn [bind].
        -- intros E. injection E as <-. left.
           destruct h1; cbn in E2; unfold raise, ret in E2; congruence.
        -- intros E. left. now apply sequential_linear_raises in E.
  - destruct (SimCLR.for_each _ _ _) as [e1|h] eqn:Ef; cbn [bind].
    + intros E. injection E as <-.
      revert Ef. generalize [batch_size; channels; 256].
      induction (seq 0 channels) as [|i views IH]; intros h0;
        cbn [SimCLR.for_each]; [discriminate|].
      unfold view_body at 1.
      destruct (six_blocks _ [batch_size; 1; sequence_length]) as [e2|x] eqn:E6;
        cbn [bind].
      * intros E. injection E as <-. apply six_blocks_raises in E6. exact E6.
      * destruct (avg_pool x) as [e3|x1] eqn:E1; cbn [bind].
        -- intros E. injection E as <-. left.
           destruct x as [|? [|? [|? [|]]]]; cbn in E1; unfold raise, ret in E1; congruence.
        -- destruct (flatten x1) as [e4|x2] eqn:E2; cbn [bind].
           ++ intros E. injection E as <-. left.
              destruct x1; cbn in E2; unfold raise, ret in E2; congruence.
           ++ destruct (list_eq_dec Nat.eq_dec x2 [batch_size; 256]).
              ** apply IH.
              ** intros E. injection E as <-. now left.
    + destruct (avg_embeddings (init false avg tr)).
      * destruct (mean_dim1_keepdim h) as [e2|h2] eqn:Em; cbn [bind].
        -- intros E. injection E as <-. left.
           destruct h as [|? [|? [|? [|]]]]; cbn in Em; unfold raise, ret in Em; congruence.
        -- intros E. left. now apply sequential_linear_raises in E.
      * cbn [bind]. intros E. left. now apply sequential_linear_raises in E.
Qed.

Lemma forward_raises_witness :
  ValueError = RuntimeError \/
  (ValueError = ValueError /\ true = true /\ 1 = 1).
Proof.
  apply (forward_raises false false true 1 8 230 ValueError).
  vm_compute. reflexivity.
Defined.

End EncoderOutcomes.

(** ** Runs of [train] *)

Section TrainRuns.
Import SimCLR.
Context {B : Type}.
Variable self : SimCLR.t.

Lemma iterations_closed_form (e : Z) (l : list B) (st : train_state) :
  fold_left (iteration e) l st =
  {| n_iter := n_iter st + Z.of_nat (length l);
     metrics_bound := metrics_bound st || negb (length l =? 0);
     trace := trace st ++
              map (fun k => OptimizerStep e (n_iter st + Z.of_nat k)%Z)
                  (seq 0 (length l)) |}.
Proof.
  revert st. induction l as [|b l IH]; intros st.
  - cbn. rewrite Z.add_0_r, orb_false_r, app_nil_r. now destruct st.
  - cbn [fold_left length]. rewrite IH. unfold iteration at 1 2 3.
    cbn [n_iter metrics_bound trace]. f_equal.
    + lia.
    + cbn. now rewrite orb_true_r.
    + rewrite <- app_assoc. f_equal. cbn [seq map app].
      rewrite Z.add_0_r. f_equal.
      rewrite <- seq_shift, map_map. apply map_ext. intros k.
      cbn [iteration n_iter]. f_equal. lia.
Qed.

Lemma run_epoch_closed_form (train_loader : list B) (st : train_state) (e : Z) :
  train_loader <> [] ->
  checkpoint_freq self <> 0%Z ->
  run_epoch self train_loader st e =
  ({| n_iter := n_iter st + Z.of_nat (length train_loader);
      metrics_bound := true;
      trace := trace st ++
               epoch_events self (length train_loader) (n_iter st) e |},
   None).
Proof.
  intros Hl Hf. unfold run_epoch, epoch_events, gate.
  rewrite iterations_closed_form.
  assert (Hlen : (length train_loader =? 0) = false)
    by (destruct train_loader; [congruence | reflexivity]).
  rewrite Hlen. unfold emit. cbn [n_iter metrics_bound trace negb].
  rewrite orb_true_r.
  destruct (warmup_epochs self <=? e)%Z;
    cbn [n_iter metrics_bound trace negb];
    (destruct (Z.eqb_spec (checkpoint_freq self) 0); [contradiction|]);
    destruct ((e mod checkpoint_freq self =? 0) || (e + 1 =? epochs self))%Z;
    cbn [n_iter metrics_bound trace]; f_equal; f_equal;
    rewrite <- ?app_assoc; cbn [app]; rewrite <- ?app_assoc;
    cbn [app]; rewrite ?app_nil_r; reflexivity.
Qed.

Lemma run_epochs_closed_form (train_loader : list B) (es : list Z)
      (st : train_state) :
  train_loader <> [] ->
  checkpoint_freq self <> 0%Z ->
  es <> [] ->
  run_epochs self train_loader es st =
  ({| n_iter := n_iter st + Z.of_nat (length es * length train_loader);
      metrics_bound := true;
      trace := trace st ++
               epochs_events self (length train_loader) (n_iter st) es |},
   None).
Proof.
  intros Hl Hf. revert st. induction es as [|e es IH]; intros st Hes;
    [congruence|].
  cbn [run_epochs]. rewrite run_epoch_closed_form by assumption.
  destruct es as [|e' es'].
  - cbn [run_epochs epochs_events length Nat.mul]. rewrite app_nil_r.
    f_equal. f_equal. lia.
  - rewrite IH by discriminate. cbn [n_iter trace]. f_equal. f_equal.
    + cbn [length]. lia.
    + cbn [epochs_events]. now rewrite <- !app_assoc.
Qed.

Lemma length_range (lo hi : Z) : length (range lo hi) = Z.to_nat (hi - lo).
Proof. unfold range. now rewrite length_map, length_seq. Qed.

Lemma run_epochs_of_train (train_loader : list B) :
  train_loader <> [] ->
  checkpoint_freq self <> 0%Z ->
  train self train_loader =
  (epochs_events self (length train_loader) 0
                 (range (curr_epochs self + 1) (epochs self)),
   None).
Proof.
  intros Hl Hf. unfold train.
  destruct (range (curr_epochs self + 1) (epochs self)) as [|e es] eqn:E.
  - reflexivity.
  - rewrite run_epochs_closed_form by (assumption || discriminate).
    reflexivity.
Qed.


Lemma step_counters_app (l r : list event) :
  step_counters (l ++ r) = step_counters l ++ step_counters r.
Proof. unfold step_counters. apply flat_map_app. Qed.

Lemma saved_epochs_app (l r : list event) :
  saved_epochs (l ++ r) = saved_epochs l ++ saved_epochs r.
Proof. unfold saved_epochs. apply flat_map_app. Qed.

Lemma step_counters_epoch (nb : nat) (n0 e : Z) :
  step_counters (epoch_events self nb n0 e) =
  map (fun k => (n0 + Z.of_nat k)%Z) (seq 0 nb).
Proof.
  unfold epoch_events, gate.
  change (EpochStart e :: ?l) with ([EpochStart e] ++ l).
  rewrite !step_counters_app.
  assert (Hsteps : forall l,
             step_counters (map (fun k => OptimizerStep e (n0 + Z.of_nat k)%Z) l)
             = map (fun k => (n0 + Z.of_nat k)%Z) l).
  { induction l as [|k l IH]; cbn; [reflexivity | now rewrite <- IH]. }
  rewrite Hsteps.
  destruct (warmup_epochs self <=? e)%Z;
    destruct ((e mod checkpoint_freq self =? 0) || (e + 1 =? epochs self))%Z;
    cbn; now rewrite app_nil_r.
Qed.

Lemma seq_from (s n : nat) : seq s n = map (Nat.add s) (seq 0 n).
Proof.
  revert s. induction n as [|n IH]; intros s; [reflexivity|].
  cbn [seq map]. rewrite Nat.add_0_r. f_equal.
  rewrite (IH (S s)), (IH 1), map_map. apply map_ext. intros k. lia.
Qed.

Lemma step_counters_epochs (nb : nat) (n0 : Z) (es : list Z) :
  step_counters (epochs_events self nb n0 es) =
  map (fun k => (n0 + Z.of_nat k)%Z) (seq 0 (length es * nb)).
Proof.
  revert n0. induction es as [|e es IH]; intros n0; [reflexivity|].
  cbn [epochs_events length Nat.mul].
  rewrite step_counters_app, step_counters_epoch, IH.
  rewrite seq_app, map_app. f_equal. cbn [Nat.add].
  rewrite (seq_from nb), map_map.
  apply map_ext. intros k. lia.
Qed.


End TrainRuns.

Section TrainCheckpoints.
Import SimCLR.
Context {B : Type}.
Variable self : SimCLR.t.

Lemma saved_epochs_epoch (nb : nat) (n0 e : Z) :
  saved_epochs (epoch_events self nb n0 e) =
  if ((e mod checkpoint_freq self =? 0) || (e + 1 =? epochs self))%Z
  then [e] else [].
Proof.
  unfold epoch_events, gate.
  change (EpochStart e :: ?l) with ([EpochStart e] ++ l).
  rewrite !saved_epochs_app.
  assert (Hsteps : forall l,
             saved_epochs (map (fun k => OptimizerStep e (n0 + Z.of_nat k)%Z) l)
             = []).
  { induction l as [|k l IH]; cbn; [reflexivity | exact IH]. }
  rewrite Hsteps.
  destruct (warmup_epochs self <=? e)%Z;
    destruct ((e mod checkpoint_freq self =? 0) || (e + 1 =? epochs self))%Z;
    reflexivity.
Qed.

Lemma saved_epochs_epochs (nb : nat) (n0 : Z) (es : list Z) :
  saved_epochs (epochs_events self nb n0 es) =
  filter (fun e => ((e mod checkpoint_freq self =? 0)
                    || (e + 1 =? epochs self))%Z) es.
Proof.
  revert n0. induction es as [|e es IH]; intros n0; [reflexivity|].
  cbn [epochs_events filter].
  rewrite saved_epochs_app, saved_epochs_epoch, IH.
  destruct ((e mod checkpoint_freq self =? 0) || (e + 1 =? epochs self))%Z;
    reflexivity.
Qed.


Lemma range_cons (lo hi : Z) :
  (lo < hi)%Z -> range lo hi = lo :: range (lo + 1) hi.
Proof.
  intros H. unfold range.
  replace (Z.to_nat (hi - lo)) with (S (Z.to_nat (hi - (lo + 1)))) by lia.
  cbn [seq map]. f_equal; [lia|].
  rewrite <- seq_shift, map_map. apply map_ext. intros k. lia.
Qed.

Lemma range_nil (lo hi : Z) : (hi <= lo)%Z -> range lo hi = [].
Proof.
  intros H. unfold range. replace (Z.to_nat (hi - lo)) with 0 by lia.
  reflexivity.
Qed.


End TrainCheckpoints.





(** ** [info_nce_loss] *)

Section MaskedViews.
Context {A : Type}.

Lemma select_row_map {X : Type} (f : X -> A) (p : X -> bool) (l : list X) :
  InfoNCE.select_row (map f l) (map p l) = map f (filter p l).
Proof.
  unfold InfoNCE.select_row. induction l as [|x l IH]; [reflexivity|].
  cbn [map combine filter snd]. destruct (p x); cbn [map fst]; now rewrite IH.
Qed.

Lemma zip_with_map_same {X Y Z : Type} (g : X -> Y -> Z) {I : Type}
      (a : I -> X) (b : I -> Y) (l : list I) :
  Numpy.zip_with g (map a l) (map b l) = map (fun i => g (a i) (b i)) l.
Proof. induction l as [|i l IH]; cbn; [reflexivity | now rewrite IH]. Qed.

Lemma masked_select_indexed {I J : Type} (f : I -> J -> A)
      (p : I -> J -> bool) (cols : I -> list J) (rows : list I) :
  InfoNCE.masked_select (map (fun i => map (f i) (cols i)) rows)
                        (map (fun i => map (p i) (cols i)) rows) =
  concat (map (fun i => map (f i) (filter (p i) (cols i))) rows).
Proof.
  unfold InfoNCE.masked_select. rewrite zip_with_map_same. f_equal.
  apply map_ext. intros i. apply select_row_map.
Qed.

Lemma chunk_concat (c : nat) (rows : list (list A)) :
  Forall (fun r => length r = c) rows ->
  InfoNCE.chunk (length rows) c (concat rows) = rows.
Proof.
  induction 1 as [|r rows Hr H IH]; [reflexivity|].
  cbn [length InfoNCE.chunk concat].
  rewrite firstn_app, skipn_app, Hr, Nat.sub_diag, firstn_all2, skipn_all2
    by lia.
  cbn [firstn skipn app]. now rewrite app_nil_r, IH.
Qed.

Lemma length_concat_uniform (c : nat) (rows : list (list A)) :
  Forall (fun r => length r = c) rows ->
  length (concat rows) = length rows * c.
Proof.
  induction 1 as [|r rows Hr H IH]; [reflexivity|].
  cbn [concat length]. rewrite length_app, IH, Hr. reflexivity.
Qed.

(** Rows of one length, flattened and viewed again, are the rows. *)
Lemma view_concat (c : nat) (rows : list (list A)) :
  rows <> [] ->
  Forall (fun r => length r = c) rows ->
  InfoNCE.view (length rows) (concat rows) = inr rows.
Proof.
  intros Hne H. unfold InfoNCE.view.
  destruct (Nat.eqb_spec (length rows) 0) as [E|E].
  - destruct rows; [congruence | discriminate].
  - rewrite (length_concat_uniform c rows H).
    rewrite (Nat.mul_comm (length rows) c), Nat.Div0.mod_mul, Nat.eqb_refl.
    rewrite Nat.div_mul by exact E. now rewrite (chunk_concat c rows H).
Qed.

Lemma view_indexed {I J : Type} (f : I -> J -> A) (p : I -> J -> bool)
      (cols : I -> list J) (rows : list I) (c : nat) :
  rows <> [] ->
  (forall i, In i rows -> length (filter (p i) (cols i)) = c) ->
  InfoNCE.view (length rows)
    (InfoNCE.masked_select (map (fun i => map (f i) (cols i)) rows)
                           (map (fun i => map (p i) (cols i)) rows)) =
  inr (map (fun i => map (f i) (filter (p i) (cols i))) rows).
Proof.
  intros Hne Hc. rewrite masked_select_indexed.
  rewrite <- (length_map (fun i => map (f i) (filter (p i) (cols i))) rows) at 1.
  apply (view_concat c).
  - destruct rows; [congruence | discriminate].
  - apply Forall_map, Forall_forall. intros i Hi.
    rewrite length_map. now apply Hc.
Qed.

End MaskedViews.

Lemma filter_filter {A : Type} (p q : A -> bool) (l : list A) :
  filter q (filter p l) = filter (fun x => p x && q x) l.
Proof.
  induction l as [|x l IH]; [reflexivity|]. cbn [filter].
  destruct (p x); cbn [filter andb]; [destruct (q x)|]; now rewrite IH.
Qed.

Lemma length_filter_map {A B : Type} (g : A -> B) (p : B -> bool) (l : list A) :
  length (filter p (map g l)) = length (filter (fun x => p (g x)) l).
Proof.
  induction l as [|x l IH]; [reflexivity|]. cbn [map filter].
  destruct (p (g x)); cbn [length]; now rewrite IH.
Qed.

Lemma length_filter_split {A : Type} (p : A -> bool) (l : list A) :
  length (filter p l) + length (filter (fun x => negb (p x)) l) = length l.
Proof.
  induction l as [|x l IH]; [reflexivity|]. cbn [filter].
  destruct (p x); cbn [negb length]; lia.
Qed.

Lemma length_filter_without (q : nat -> bool) (i : nat) (l : list nat) :
  NoDup l -> In i l -> q i = true ->
  S (length (filter (fun j => negb (j =? i) && q j) l)) = length (filter q l).
Proof.
  intros Hnd. induction Hnd as [|x l Hx Hnd IH]; intros Hin Hq; [destruct Hin|].
  cbn [filter]. destruct (Nat.eqb_spec x i) as [->|Hne].
  - rewrite Hq. cbn [negb andb length]. f_equal.
    f_equal. apply filter_ext_in. intros j Hj.
    destruct (Nat.eqb_spec j i) as [->|_]; [contradiction | reflexivity].
  - destruct Hin as [->|Hin]; [congruence|]. cbn [negb andb].
    destruct (q x); cbn [length]; rewrite <- (IH Hin Hq); reflexivity.
Qed.

Lemma filter_none {A : Type} (p : A -> bool) (l : list A) :
  (forall x, In x l -> p x = false) -> filter p l = [].
Proof.
  induction l as [|x l IH]; intros H; [reflexivity|]. cbn [filter].
  rewrite (H x (or_introl eq_refl)). apply IH. intros y Hy. apply H. now right.
Qed.

Lemma length_filter_eq_seq (s n r : nat) :
  s <= r < s + n -> length (filter (fun k => k =? r) (seq s n)) = 1.
Proof.
  revert s. induction n as [|n IH]; intros s H; [lia|].
  cbn [seq filter]. destruct (Nat.eqb_spec s r) as [->|Hne].
  - cbn [length]. f_equal. rewrite filter_none; [reflexivity|].
    intros k Hk. apply in_seq in Hk. apply Nat.eqb_neq. lia.
  - apply IH. lia.
Qed.

Lemma length_filter_concat_repeat {A : Type} (p : A -> bool) (l : list A)
      (v : nat) :
  length (filter p (concat (repeat l v))) = v * length (filter p l).
Proof.
  induction v as [|v IH]; [reflexivity|].
  cbn [repeat concat]. rewrite filter_app, length_app, IH. reflexivity.
Qed.

Lemma length_concat_repeat {A : Type} (l : list A) (v : nat) :
  length (concat (repeat l v)) = v * length l.
Proof.
  induction v as [|v IH]; [reflexivity|].
  cbn [repeat concat]. rewrite length_app, IH. reflexivity.
Qed.

Lemma nth_concat_repeat_seq (bs v j : nat) :
  j < v * bs -> nth j (concat (repeat (seq 0 bs) v)) 0 = j mod bs.
Proof.
  revert j. induction v as [|v IH]; intros j Hj; [lia|].
  cbn [repeat concat]. destruct (Nat.lt_ge_cases j bs) as [Hlt|Hge].
  - rewrite app_nth1 by (now rewrite length_seq).
    rewrite seq_nth by exact Hlt. now rewrite Nat.mod_small.
  - rewrite app_nth2 by (now rewrite length_seq). rewrite length_seq.
    rewrite IH by (cbn in Hj; lia).
    replace j with ((j - bs) + 1 * bs) at 2 by lia.
    now rewrite Nat.Div0.mod_add.
Qed.

Lemma list_as_map_nth {A : Type} (l : list A) (d : A) :
  l = map (fun j => nth j l d) (seq 0 (length l)).
Proof.
  assert (H : forall pre,
             l = map (fun j => nth j (pre ++ l) d) (seq (length pre) (length l))).
  { induction l as [|x l IH]; intros pre; [reflexivity|].
    cbn [length seq map]. f_equal.
    - rewrite app_nth2, Nat.sub_diag by lia. reflexivity.
    - specialize (IH (pre ++ [x])).
      rewrite <- app_assoc, length_app in IH. cbn [app length] in IH.
      rewrite Nat.add_1_r in IH. exact IH. }
  exact (H []).
Qed.


Lemma view_indexed_n {A I J : Type} (f : I -> J -> A) (p : I -> J -> bool)
      (cols : I -> list J) (rows : list I) (c n : nat) :
  n = length rows ->
  rows <> [] ->
  (forall i, In i rows -> length (filter (p i) (cols i)) = c) ->
  InfoNCE.view n
    (InfoNCE.masked_select (map (fun i => map (f i) (cols i)) rows)
                           (map (fun i => map (p i) (cols i)) rows)) =
  inr (map (fun i => map (f i) (filter (p i) (cols i))) rows).
Proof. intros ->. apply view_indexed. Qed.

Section InfoNCEFacts.
Import Torch InfoNCE.
Context {T : Type} {ST : Scalar T}.
Variable clamp_min_eps : T -> T.
Variable self : SimCLR.t.
Variable features : tensor2 T.

Hypothesis Hviews : 1 <= SimCLR.n_views self.
Hypothesis Hbatch : 1 <= SimCLR.batch_size self.
Hypothesis Hrows :
  nrows features = SimCLR.n_views self * SimCLR.batch_size self.

Local Abbreviation v := (SimCLR.n_views self).
Local Abbreviation bs := (SimCLR.batch_size self).
Local Abbreviation N := (SimCLR.n_views self * SimCLR.batch_size self).
Local Abbreviation lam := (fun j => nth j (arange_labels self) 0).
Local Abbreviation sim := (similarity clamp_min_eps features).

Lemma length_arange_labels : length (arange_labels self) = N.
Proof. unfold arange_labels. now rewrite length_concat_repeat, length_seq. Qed.

Lemma arange_labels_indexed : arange_labels self = map lam (seq 0 N).
Proof.
  rewrite <- length_arange_labels. apply list_as_map_nth.
Qed.

Lemma lam_mod (j : nat) : j < N -> lam j = j mod bs.
Proof. clear Hrows. intros Hj. unfold arange_labels. now apply nth_concat_repeat_seq. Qed.

Lemma N_positive : 1 <= N.
Proof. clear Hrows. nia. Qed.

Lemma seq_N_not_empty : seq 0 N <> [].
Proof. clear Hrows.
  pose proof N_positive as H.
  destruct (SimCLR.n_views self * SimCLR.batch_size self); [lia | discriminate].
Qed.

Lemma off_diagonal_count (i : nat) :
  In i (seq 0 N) ->
  length (filter (fun j => negb (j =? i)) (seq 0 N)) = N - 1.
Proof. clear Hrows.
  intros Hi. apply in_seq in Hi.
  pose proof (length_filter_split (fun j => j =? i) (seq 0 N)) as H.
  rewrite length_filter_eq_seq, length_seq in H by lia. lia.
Qed.

Lemma same_label_count (i : nat) :
  In i (seq 0 N) ->
  length (filter (fun j => lam j =? lam i) (seq 0 N)) = v.
Proof. clear Hrows.
  intros Hi. apply in_seq in Hi.
  assert (Hr : lam i < bs).
  { rewrite lam_mod by lia. pose proof (Nat.mod_upper_bound i bs). lia. }
  generalize dependent (lam i). intros r Hr.
  rewrite <- (length_filter_map lam (fun x => x =? r)).
  rewrite <- arange_labels_indexed. unfold arange_labels.
  rewrite length_filter_concat_repeat, length_filter_eq_seq; lia.
Qed.

Lemma positives_count (i : nat) :
  In i (seq 0 N) ->
  length (filter (fun j => lam j =? lam i)
                 (filter (fun j => negb (j =? i)) (seq 0 N))) = v - 1.
Proof. clear Hrows.
  intros Hi. rewrite filter_filter.
  pose proof (length_filter_without (fun j => lam j =? lam i) i (seq 0 N)
                (seq_NoDup _ _) Hi (Nat.eqb_refl _)) as H.
  pose proof (same_label_count i Hi) as Hs.
  cbv beta in *. lia.
Qed.

Lemma negatives_count (i : nat) :
  In i (seq 0 N) ->
  length (filter (fun j => negb (lam j =? lam i))
                 (filter (fun j => negb (j =? i)) (seq 0 N))) = N - 1 - (v - 1).
Proof. clear Hrows.
  intros Hi.
  pose proof (length_filter_split (fun j => lam j =? lam i)
                (filter (fun j => negb (j =? i)) (seq 0 N))) as H.
  pose proof (positives_count i Hi) as Hp.
  pose proof (off_diagonal_count i Hi) as Ho.
  cbv beta in *. lia.
Qed.

Lemma positives_columns (i : nat) :
  In i (seq 0 N) ->
  filter (fun j => lam j =? lam i) (filter (fun j => negb (j =? i)) (seq 0 N))
  = positive_columns bs N i.
Proof. clear Hrows.
  intros Hi. apply in_seq in Hi. rewrite filter_filter.
  unfold positive_columns.
  apply filter_ext_in. intros j Hj. apply in_seq in Hj.
  now rewrite !lam_mod by lia.
Qed.

Lemma negatives_columns (i : nat) :
  In i (seq 0 N) ->
  filter (fun j => negb (lam j =? lam i))
         (filter (fun j => negb (j =? i)) (seq 0 N))
  = negative_columns bs N i.
Proof. clear Hrows.
  intros Hi. apply in_seq in Hi. rewrite filter_filter.
  unfold negative_columns.
  apply filter_ext_in. intros j Hj. apply in_seq in Hj.
  rewrite !lam_mod by lia.
  destruct (Nat.eqb_spec j i) as [->|_]; [|reflexivity].
  now rewrite Nat.eqb_refl.
Qed.

(** The stages of [info_nce_loss]. *)
Lemma label_matrix_indexed :
  map (fun li => map (fun lj => lj =? li) (arange_labels self))
      (arange_labels self) =
  map (fun i => map (fun j => lam j =? lam i) (seq 0 N)) (seq 0 N).
Proof.
  assert (H : forall (l : list nat) (g : nat -> nat) (I : list nat),
             l = map g I ->
             map (fun li => map (fun lj => lj =? li) l) l =
             map (fun i => map (fun j => g j =? g i) I) I).
  { intros l g I ->. rewrite map_map. apply map_ext. intros i.
    now rewrite map_map. }
  exact (H _ _ _ arange_labels_indexed).
Qed.

Lemma lnot_eye :
  lnot (eye N) =
  map (fun i => map (fun j => negb (j =? i)) (seq 0 N)) (seq 0 N).
Proof.
  unfold lnot, eye. rewrite map_map. apply map_ext. intros i.
  now rewrite map_map.
Qed.

Lemma similarity_rows :
  to_rows (mm (normalize clamp_min_eps features)
              (transpose (normalize clamp_min_eps features))) =
  map (fun i => map (fun j => sim i j) (seq 0 N)) (seq 0 N).
Proof.
  unfold to_rows, row at 1.
  cbn [nrows ncols mm transpose normalize]. rewrite Hrows. reflexivity.
Qed.

(** X13: for at least one view and one sample per view, on features
    with [n_views * batch_size] rows, [info_nce_loss] returns logits
    with one row per sample.  Row [i] holds the similarities of sample
    [i] over the temperature: first to its [n_views - 1] other views
    (the samples [j <> i] with [j = i] modulo [batch_size]), then to
    every sample with another label, in increasing order of [j]; the
    labels returned are all zero. *)
Theorem info_nce_loss_logits :
  info_nce_loss clamp_min_eps self features =
  inr (map (fun i =>
              map (fun j => tdiv (sim i j) (lit (SimCLR.temperature self)))
                  (positive_columns bs N i ++ negative_columns bs N i))
           (seq 0 N),
       repeat 0%Z N) /\
  (forall i, i < N ->
     length (positive_columns bs N i) = v - 1 /\
     length (negative_columns bs N i) = N - v).
Proof.
  split.
  - unfold info_nce_loss.
    destruct (Nat.eqb_spec (SimCLR.n_views self) 0) as [E0|_]; [lia|].
    cbv zeta. rewrite label_matrix_indexed.
    rewrite !length_map, !length_seq, lnot_eye.
    match goal with
    | |- context [view ?n (masked_select ?a ?b)] =>
        assert (E1 : view n (masked_select a b) =
                     inr (map (fun i =>
                                 map (fun j => lam j =? lam i)
                                     (filter (fun j => negb (j =? i)) (seq 0 N)))
                              (seq 0 N)))
    end.
    { apply (view_indexed_n (fun i j => lam j =? lam i)
                            (fun i j => negb (j =? i))
                            (fun _ => seq 0 N) (seq 0 N) (N - 1)).
      - now rewrite length_seq.
      - apply seq_N_not_empty.
      - apply off_diagonal_count. }
    rewrite E1. cbn [bind]. clear E1.
    cbn [nrows ncols mm transpose normalize]. rewrite Hrows.
    unfold eye at 1 2. rewrite !length_map, !length_seq, Nat.eqb_refl.
    cbn [andb negb].
    change (mm _ _) with
      (mm (normalize clamp_min_eps features)
          (transpose (normalize clamp_min_eps features))).
    rewrite similarity_rows.
    match goal with
    | |- context [view ?n (masked_select ?a ?b)] =>
        assert (E2 : view n (masked_select a b) =
                     inr (map (fun i =>
                                 map (fun j => sim i j)
                                     (filter (fun j => negb (j =? i)) (seq 0 N)))
                              (seq 0 N)))
    end.
    { apply (view_indexed_n (fun i j => sim i j)
                            (fun i j => negb (j =? i))
                            (fun _ => seq 0 N) (seq 0 N) (N - 1)).
      - now rewrite length_seq.
      - apply seq_N_not_empty.
      - apply off_diagonal_count. }
    rewrite E2. cbn [bind]. clear E2.
    rewrite !length_map, !length_seq.
    match goal with
    | |- context [view ?n (masked_select ?a ?b)] =>
        assert (E3 : view n (masked_select a b) =
                     inr (map (fun i =>
                                 map (fun j => sim i j)
                                     (filter (fun j => lam j =? lam i)
                                        (filter (fun j => negb (j =? i))
                                                (seq 0 N))))
                              (seq 0 N)))
    end.
    { apply (view_indexed_n (fun i j => sim i j)
                            (fun i j => lam j =? lam i)
                            (fun i => filter (fun j => negb (j =? i)) (seq 0 N))
                            (seq 0 N) (v - 1)).
      - now rewrite length_seq.
      - apply seq_N_not_empty.
      - apply positives_count. }
    rewrite E3. cbn [bind]. clear E3.
    assert (Hlnot :
              lnot (map (fun i =>
                           map (fun j => lam j =? lam i)
                               (filter (fun j => negb (j =? i)) (seq 0 N)))
                        (seq 0 N)) =
              map (fun i =>
                     map (fun j => negb (lam j =? lam i))
                         (filter (fun j => negb (j =? i)) (seq 0 N)))
                  (seq 0 N)).
    { unfold lnot. rewrite map_map. apply map_ext. intros i.
      now rewrite map_map. }
    rewrite Hlnot. clear Hlnot.
    match goal with
    | |- context [view ?n (masked_select ?a ?b)] =>
        assert (E4 : view n (masked_select a b) =
                     inr (map (fun i =>
                                 map (fun j => sim i j)
                                     (filter (fun j => negb (lam j =? lam i))
                                        (filter (fun j => negb (j =? i))
                                                (seq 0 N))))
                              (seq 0 N)))
    end.
    { apply (view_indexed_n (fun i j => sim i j)
                            (fun i j => negb (lam j =? lam i))
                            (fun i => filter (fun j => negb (j =? i)) (seq 0 N))
                            (seq 0 N) (N - 1 - (v - 1))).
      - now rewrite length_seq.
      - apply seq_N_not_empty.
      - apply negatives_count. }
    rewrite E4. cbn [bind]. clear E4.
    unfold cat_dim1. rewrite !length_map, !length_seq, Nat.eqb_refl.
    unfold ret. rewrite zip_with_map_same. cbn [bind].
    rewrite !length_map, !length_seq, map_map. f_equal. f_equal.
    apply map_ext_in. intros i Hi.
    rewrite positives_columns, negatives_columns by exact Hi.
    now rewrite <- map_app, map_map.
  - intros i Hi. assert (Hin : In i (seq 0 N)) by (apply in_seq; lia).
    rewrite <- positives_columns, <- negatives_columns by exact Hin.
    pose proof (positives_count i Hin) as Hp.
    pose proof (negatives_count i Hin) as Hn.
    cbv beta in *. split; [exact Hp|]. lia.
Qed.

End InfoNCEFacts.

Section InfoNCEFailures.
Import Torch InfoNCE.
Context {T : Type} {ST : Scalar T}.
Variable clamp_min_eps : T -> T.
Variable self : SimCLR.t.
Variable features : tensor2 T.


End InfoNCEFailures.

Lemma info_nce_loss_logits_witness :
  InfoNCE.info_nce_loss (T := XReal.xreal) (fun x => x) XReal.sample_self
    {| Torch.nrows := 8; Torch.ncols := 3;
       Torch.at2 := fun _ _ => Some 1%R |} =
  inr (map (fun i =>
              map (fun j =>
                     Torch.tdiv
                       (InfoNCE.similarity (fun x => x)
                          {| Torch.nrows := 8; Torch.ncols := 3;
                             Torch.at2 := fun _ _ => Some 1%R |} i j)
                       (Torch.lit (7 # 100)))
                  (positive_columns 4 8 i ++ negative_columns 4 8 i))
           (seq 0 8),
       repeat 0%Z 8).
Proof.
  apply (proj1 (info_nce_loss_logits (T := XReal.xreal) (fun x => x)
                  XReal.sample_self
                  {| Torch.nrows := 8; Torch.ncols := 3;
                     Torch.at2 := fun _ _ => Some 1%R |}
                  ltac:(cbn; lia) ltac:(cbn; lia) ltac:(reflexivity))).
Defined.


(** ** The pairing index: shape and symmetry *)

Lemma NoDup_flat_map_disjoint {A B : Type} (f : A -> list B) (l : list A) :
  (forall a, In a l -> NoDup (f a)) ->
  (forall a a' b, In a l -> In a' l -> In b (f a) -> In b (f a') -> a = a') ->
  NoDup l ->
  NoDup (flat_map f l).
Proof.
  intros Hf Hdis Hnd. induction Hnd as [|a l Ha Hnd IH]; [constructor|].
  cbn [flat_map]. apply NoDup_app.
  - apply Hf. now left.
  - apply IH.
    + intros x Hx. apply Hf. now right.
    + intros x x' b Hx Hx'. apply Hdis; now right.
  - intros b Hb Hb'. apply in_flat_map in Hb'. destruct Hb' as (a' & Ha' & Hb').
    apply Ha. rewrite (Hdis a a' b); auto; [now left | now right].
Qed.

Lemma NoDup_enumerate {A : Type} (l : list A) : NoDup (Numpy.enumerate l).
Proof.
  apply (NoDup_map_inv fst). unfold Numpy.enumerate.
  assert (H : forall s, map fst (combine (seq s (length l)) l) = seq s (length l)).
  { induction l as [|x l IH]; intros s; [reflexivity|].
    cbn. now rewrite IH. }
  rewrite H. apply seq_NoDup.
Qed.

Lemma NoDup_nonzero (m : list (list Z)) : NoDup (Numpy.nonzero m).
Proof.
  unfold Numpy.nonzero. apply NoDup_flat_map_disjoint.
  - intros [i row] _. apply NoDup_flat_map_disjoint.
    + intros [j x] _. destruct (x =? 0)%Z; repeat constructor. intros [].
    + intros [j x] [j' x'] b Hj Hj' Hb Hb'.
      destruct (x =? 0)%Z; [destruct Hb|]. destruct (x' =? 0)%Z; [destruct Hb'|].
      destruct Hb as [<-|[]]. destruct Hb' as [Hb'|[]]. injection Hb' as <-.
      apply In_enumerate in Hj, Hj'. congruence.
    + apply NoDup_enumerate.
  - intros [i row] [i' row'] b Hi Hi' Hb Hb'.
    apply in_flat_map in Hb. destruct Hb as ([j x] & _ & Hb).
    apply in_flat_map in Hb'. destruct Hb' as ([j' x'] & _ & Hb').
    destruct (x =? 0)%Z; [destruct Hb|]. destruct (x' =? 0)%Z; [destruct Hb'|].
    destruct Hb as [<-|[]]. destruct Hb' as [Hb'|[]]. injection Hb' as <- _.
    apply In_enumerate in Hi, Hi'. congruence.
  - apply NoDup_enumerate.
Qed.

(** X15: for every identity vector the two index arrays of each
    triangle have one length, every index is less than the number of
    identities, and no coordinate is listed twice: each selected cell
    enters the mean of its loss term once. *)
Theorem pairing_index_well_formed (pids : list string) :
  length (fst (PairingIndex.upper_index pids)) =
    length (snd (PairingIndex.upper_index pids)) /\
  length (fst (PairingIndex.lower_index pids)) =
    length (snd (PairingIndex.lower_index pids)) /\
  NoDup (PairingIndex.upper_coords pids) /\
  NoDup (PairingIndex.lower_coords pids) /\
  (forall i j,
      In (i, j) (PairingIndex.upper_coords pids ++
                 PairingIndex.lower_coords pids) ->
      i < length pids /\ j < length pids).
Proof.
  unfold PairingIndex.upper_coords, PairingIndex.lower_coords,
    PairingIndex.upper_index, PairingIndex.lower_index.
  rewrite !coords_np_where. unfold Numpy.np_where. cbn [fst snd].
  rewrite !length_map. repeat split; try apply NoDup_nonzero.
  - apply in_app_or in H. destruct H as [H|H].
    + apply (upper_coords_in_range pids i j).
      unfold PairingIndex.upper_coords, PairingIndex.upper_index.
      now rewrite coords_np_where.
    + apply (lower_coords_in_range pids i j).
      unfold PairingIndex.lower_coords, PairingIndex.lower_index.
      now rewrite coords_np_where.
  - apply in_app_or in H. destruct H as [H|H].
    + apply (upper_coords_in_range pids i j).
      unfold PairingIndex.upper_coords, PairingIndex.upper_index.
      now rewrite coords_np_where.
    + apply (lower_coords_in_range pids i j).
      unfold PairingIndex.lower_coords, PairingIndex.lower_index.
      now rewrite coords_np_where.
Qed.

Lemma pairing_index_well_formed_witness : 0 < 3 /\ 1 < 3.
Proof.
  apply (proj2 (proj2 (proj2 (proj2
           (pairing_index_well_formed ["p1"; "p1"; "p2"]%string)))) 0 1).
  vm_compute. left. reflexivity.
Defined.

Lemma upper_is_lower_transposed (pids : list string) (i j : nat) :
  Forall (fun p => PairingIndex.has_dash p = false) pids ->
  In (i, j) (PairingIndex.upper_coords pids) <->
  In (j, i) (PairingIndex.lower_coords pids).
Proof.
  intros Hdash. split; intros H.
  - assert (Hlt : i < j) by (apply upper_coords_spec in H; tauto).
    assert (Hsel : In (i, j) (PairingIndex.upper_coords pids ++
                              PairingIndex.lower_coords pids))
      by (apply in_or_app; now left).
    apply (pairing_index_equal_ids pids Hdash) in Hsel.
    destruct Hsel as (_ & p & Hi & Hj).
    assert (Hsym : In (j, i) (PairingIndex.upper_coords pids ++
                              PairingIndex.lower_coords pids))
      by (apply (equal_identities_selected pids j i p); auto; lia).
    apply in_app_or in Hsym. destruct Hsym as [Hu|Hl]; [|exact Hl].
    apply upper_coords_spec in Hu. lia.
  - assert (Hlt : i < j) by (apply lower_coords_spec in H; tauto).
    assert (Hsel : In (j, i) (PairingIndex.upper_coords pids ++
                              PairingIndex.lower_coords pids))
      by (apply in_or_app; now right).
    apply (pairing_index_equal_ids pids Hdash) in Hsel.
    destruct Hsel as (_ & p & Hj & Hi).
    assert (Hsym : In (i, j) (PairingIndex.upper_coords pids ++
                              PairingIndex.lower_coords pids))
      by (apply (equal_identities_selected pids i j p); auto; lia).
    apply in_app_or in Hsym. destruct Hsym as [Hu|Hl]; [exact Hu|].
    apply lower_coords_spec in Hl. lia.
Qed.

(** X16: for identities without the separator ['-'] the lower index is
    the transpose of the upper index, so both have the same number of
    entries. *)
Theorem pairing_index_symmetric (pids : list string) :
  Forall (fun p => PairingIndex.has_dash p = false) pids ->
  (forall i j, In (i, j) (PairingIndex.upper_coords pids) <->
               In (j, i) (PairingIndex.lower_coords pids)) /\
  length (fst (PairingIndex.upper_index pids)) =
  length (fst (PairingIndex.lower_index pids)).
Proof.
  intros Hdash. split.
  - intros i j. now apply upper_is_lower_transposed.
  - pose (swap := fun c : nat * nat => (snd c, fst c)).
    assert (Hinj : forall l, NoDup l -> NoDup (map swap l)).
    { intros l. apply Finite.Injective_map_NoDup.
      intros [a b] [a' b'] E. unfold swap in E. cbn in E. congruence. }
    assert (Hlen : forall ix, length (fst (Numpy.np_where ix)) =
                              length (Numpy.nonzero ix))
      by (intros ix; unfold Numpy.np_where; cbn [fst]; apply length_map).
    unfold PairingIndex.upper_index, PairingIndex.lower_index.
    rewrite !Hlen.
    pose proof (upper_is_lower_transposed pids) as Hsym.
    unfold PairingIndex.upper_coords, PairingIndex.lower_coords,
      PairingIndex.upper_index, PairingIndex.lower_index in Hsym.
    rewrite !coords_np_where in Hsym.
    apply Nat.le_antisymm.
    + rewrite <- (length_map swap). apply NoDup_incl_length.
      * apply Hinj, NoDup_nonzero.
      * intros [a b] H. apply in_map_iff in H.
        destruct H as ([i j] & E & H). unfold swap in E. cbn in E.
        injection E as <- <-. now apply (Hsym i j Hdash).
    + rewrite <- (length_map swap
                    (Numpy.nonzero
                       (Numpy.tril (PairingIndex.bool_matrix_of_interest pids)
                                   (-1)))).
      apply NoDup_incl_length.
      * apply Hinj, NoDup_nonzero.
      * intros [a b] H. apply in_map_iff in H.
        destruct H as ([i j] & E & H). unfold swap in E. cbn in E.
        injection E as <- <-. now apply (Hsym j i Hdash).
Qed.

Lemma pairing_index_symmetric_witness :
  length (fst (PairingIndex.upper_index ["p1"; "p1"; "p2"; "p1"]%string)) =
  length (fst (PairingIndex.lower_index ["p1"; "p1"; "p2"; "p1"]%string)).
Proof.
  apply (proj2 (pairing_index_symmetric ["p1"; "p1"; "p2"; "p1"]%string
                  ltac:(repeat constructor))).
Defined.
